(** * SyncFolders: one-way periodic mirroring of a source tree onto a replica

    A shallow embedding of [SyncFolders.cpp].  The filesystem is a tree of
    named entries, the process state threads the filesystem, the
    [changesMade] flag and the log through a small state-and-exception
    monad, and the three reconcilers ([syncSubdirectories], [syncCopy],
    [syncDelete]) are written as the loops of the source.

    What the model takes for granted:
    - a filesystem call fails for structural reasons only (a missing or
      non-directory parent, a destination of the wrong type, a root that is
      not a directory); there are no permissions and no device errors;
    - no entry of a tree is a symbolic link; what the counting loop does
      with a link is told apart on directory entries of their own
      ([dirent]);
    - a special file is one that is at its end when read and that swallows
      what is written to it (a character device such as [/dev/null]); a
      FIFO, on which opening waits for the other end, is not modelled;
    - streams are those of libstdc++: reading a path that does not exist
      yields no byte (the stream does not open, and [computeFileHash] does
      not ask), reading a directory throws [std::ios_base::failure], and
      [SHA256] on an empty buffer (where [&buffer[0]] has no element to
      point to) digests the empty sequence;
    - a directory iterator reports the entries present when it is made,
      which is what the loop sees as long as its body leaves the walked tree
      alone: that is the case whenever neither root lies under the other;
    - the log is a list of lines of its own: the log file lies outside both
      trees, and writing to it never fails;
    - time is the reading of a clock in nanoseconds, advanced by the time
      the work takes and by [sleep_for]; the rounding of the [double]
      arithmetic of [main] is left out;
    - the [int] count of the completion check is a natural number;
    - [main] is run against a list of passes, each telling what the outside
      world does while the loop body is under way: the time the work takes,
      the signals delivered, and what other processes have done to the
      filesystem by the time the next pass begins; a run for which the list
      is too short is still in its loop;
    - the paths of the command line are absolute, and none of their
      components is [.] or [..]: they are read as lists of components from
      the filesystem root;
    - [logOperation_on_file] is the logger with its file, its two streams
      and the local time of the call as an input; the cycles use the logger
      without them. *)

From Stdlib Require Import List String Ascii NArith ZArith Bool Lia Arith.
From Stdlib Require Import Strings.Byte.
From Stdlib Require Import Sorting.Permutation FinFun.
Import ListNotations.

Local Open Scope list_scope.

(* ===================================================================== *)
(** * SHA-256 (FIPS 180-4), the digest behind [computeFileHash]          *)
(* ===================================================================== *)

Module Sha256.

Local Open Scope N_scope.

Definition mask32 : N := 0xFFFFFFFF.
Definition w32 (x : N) : N := N.land x mask32.
Definition add32 (x y : N) : N := w32 (x + y).
Definition rotr (n x : N) : N := N.lor (N.shiftr x n) (w32 (N.shiftl x (32 - n))).
Definition not32 (x : N) : N := N.lxor x mask32.

Definition Ch (x y z : N) : N := N.lxor (N.land x y) (N.land (not32 x) z).
Definition Maj (x y z : N) : N :=
  N.lxor (N.lxor (N.land x y) (N.land x z)) (N.land y z).
Definition bigsigma0 (x : N) : N := N.lxor (N.lxor (rotr 2 x) (rotr 13 x)) (rotr 22 x).
Definition bigsigma1 (x : N) : N := N.lxor (N.lxor (rotr 6 x) (rotr 11 x)) (rotr 25 x).
Definition smallsigma0 (x : N) : N := N.lxor (N.lxor (rotr 7 x) (rotr 18 x)) (N.shiftr x 3).
Definition smallsigma1 (x : N) : N := N.lxor (N.lxor (rotr 17 x) (rotr 19 x)) (N.shiftr x 10).

(** The round constants are the first 32 fractional bits of the cube roots
    of the first 64 primes, the initial hash value those of the square
    roots of the first 8 primes. *)
Fixpoint has_divisor (cands : list N) (n : N) : bool :=
  match cands with
  | [] => false
  | p :: ps => (n mod p =? 0) || has_divisor ps n
  end.

Fixpoint primes_from (fuel : nat) (n : N) (found : list N) (want : nat) : list N :=
  match fuel, want with
  | O, _ => rev found
  | _, O => rev found
  | S fuel', S want' =>
      if has_divisor found n
      then primes_from fuel' (n + 1) found want
      else primes_from fuel' (n + 1) (n :: found) want'
  end.

Definition first_primes (k : nat) : list N := primes_from 400 2 [] k.

(** Largest [r] in [lo, hi) with [r^3 <= n], by bisection. *)
Fixpoint cbrt_bisect (fuel : nat) (lo hi n : N) : N :=
  match fuel with
  | O => lo
  | S fuel' =>
      if hi <=? lo + 1 then lo
      else let mid := (lo + hi) / 2 in
           if mid * mid * mid <=? n
           then cbrt_bisect fuel' mid hi n
           else cbrt_bisect fuel' lo mid n
  end.

Definition frac_cbrt32 (p : N) : N :=
  w32 (cbrt_bisect 64 0 (N.shiftl 1 40) (N.shiftl p 96)).
Definition frac_sqrt32 (p : N) : N := w32 (N.sqrt (N.shiftl p 64)).

Definition K256 : list N := Eval vm_compute in map frac_cbrt32 (first_primes 64).
Definition H256 : list N := Eval vm_compute in map frac_sqrt32 (first_primes 8).

(** Padding: a [0x80] byte, zeros up to 56 mod 64, the bit length on 64 bits. *)
Fixpoint be_bytes (n : nat) (x : N) : list N :=
  match n with
  | O => []
  | S n' => N.land (N.shiftr x (8 * N.of_nat n')) 0xFF :: be_bytes n' x
  end.

Definition pad (msg : list N) : list N :=
  let len := N.of_nat (List.length msg) in
  let zeros := N.to_nat ((64 + 55 - len mod 64) mod 64) in
  msg ++ 0x80 :: repeat 0 zeros ++ be_bytes 8 (8 * len).

Fixpoint words_be (fuel : nat) (bs : list N) : list N :=
  match fuel, bs with
  | S fuel', b0 :: b1 :: b2 :: b3 :: rest =>
      (N.shiftl b0 24 + N.shiftl b1 16 + N.shiftl b2 8 + b3) :: words_be fuel' rest
  | _, _ => []
  end.

(** Message schedule, most recent word first. *)
Fixpoint extend (n : nat) (recent : list N) : list N :=
  match n with
  | O => recent
  | S n' =>
      let w := add32 (add32 (smallsigma1 (nth 1 recent 0)) (nth 6 recent 0))
                     (add32 (smallsigma0 (nth 14 recent 0)) (nth 15 recent 0)) in
      extend n' (w :: recent)
  end.

Definition schedule (block : list N) : list N := rev (extend 48 (rev block)).

Record regs := Regs { ra : N; rb : N; rc : N; rd : N; re : N; rf : N; rg : N; rh : N }.

Definition round (s : regs) (kw : N * N) : regs :=
  let t1 := add32 (add32 (add32 (rh s) (bigsigma1 (re s)))
                         (add32 (Ch (re s) (rf s) (rg s)) (fst kw))) (snd kw) in
  let t2 := add32 (bigsigma0 (ra s)) (Maj (ra s) (rb s) (rc s)) in
  Regs (add32 t1 t2) (ra s) (rb s) (rc s) (add32 (rd s) t1) (re s) (rf s) (rg s).

Definition compress (s : regs) (block : list N) : regs :=
  let s' := fold_left round (combine K256 (schedule block)) s in
  Regs (add32 (ra s) (ra s')) (add32 (rb s) (rb s')) (add32 (rc s) (rc s'))
       (add32 (rd s) (rd s')) (add32 (re s) (re s')) (add32 (rf s) (rf s'))
       (add32 (rg s) (rg s')) (add32 (rh s) (rh s')).

Fixpoint blocks (fuel : nat) (ws : list N) (s : regs) : regs :=
  match fuel, ws with
  | S fuel', _ :: _ => blocks fuel' (skipn 16 ws) (compress s (firstn 16 ws))
  | _, _ => s
  end.

Definition init : regs :=
  Regs (nth 0 H256 0) (nth 1 H256 0) (nth 2 H256 0) (nth 3 H256 0)
       (nth 4 H256 0) (nth 5 H256 0) (nth 6 H256 0) (nth 7 H256 0).

(** The 32 digest bytes of a message. *)
Definition digest (msg : list byte) : list N :=
  let bs := pad (map Byte.to_N msg) in
  let ws := words_be (List.length bs) bs in
  let s := blocks (List.length ws) ws init in
  flat_map (be_bytes 4) [ra s; rb s; rc s; rd s; re s; rf s; rg s; rh s].

End Sha256.

(** [hashStream << std::hex << std::setw(2) << std::setfill('0') << (int)hash[i]] *)
Definition hex_digit (n : N) : ascii :=
  if (n <? 10)%N then ascii_of_N (48 + n) else ascii_of_N (87 + n).

Fixpoint hex_string (bs : list N) : string :=
  match bs with
  | [] => EmptyString
  | b :: bs' => String (hex_digit (N.shiftr b 4)) (String (hex_digit (N.land b 15)) (hex_string bs'))
  end.

Definition SHA256_hex (buffer : list byte) : string := hex_string (Sha256.digest buffer).
Arguments SHA256_hex : simpl never.
Global Opaque SHA256_hex.

Definition bytes_of_string (s : string) : list byte := list_byte_of_string s.


(* ===================================================================== *)
(** * The filesystem                                                       *)
(* ===================================================================== *)

(** A directory lists its entries by name, in the order the directory
    iterator reports them.  [Other] stands for the entries that are neither
    regular files nor directories: special files. *)
#[warnings="-register-all"]
Inductive node : Type :=
| File (data : list byte)
| Dir (entries : list (string * node))
| Other.

(** A path is the list of its components below the filesystem root. *)
Definition path : Type := list string.

(** [fs::file_type], as far as the program distinguishes it. *)
Inductive file_type : Type := not_found | regular | directory | other.

Definition type_of (n : node) : file_type :=
  match n with
  | File _ => regular
  | Dir _ => directory
  | Other => other
  end.

Fixpoint find_entry (name : string) (es : list (string * node)) : option node :=
  match es with
  | [] => None
  | (n, c) :: es' => if String.eqb name n then Some c else find_entry name es'
  end.

Fixpoint lookup (t : node) (p : path) : option node :=
  match p with
  | [] => Some t
  | name :: p' =>
      match t with
      | Dir es =>
          match find_entry name es with
          | Some c => lookup c p'
          | None => None
          end
      | _ => None
      end
  end.

(** [fs::status(p).type()]: a path through a non-directory is not found. *)
Definition status (t : node) (p : path) : file_type :=
  match lookup t p with
  | Some n => type_of n
  | None => not_found
  end.

Definition exists_at (t : node) (p : path) : bool :=
  match status t p with not_found => false | _ => true end.

Definition regular_at (t : node) (p : path) : bool :=
  match status t p with regular => true | _ => false end.

Definition directory_at (t : node) (p : path) : bool :=
  match status t p with directory => true | _ => false end.

(** The bytes a stream finds at a path: those of a regular file, and none
    where nothing can be read (no such file, a special file). *)
Definition read_all (t : node) (p : path) : list byte :=
  match lookup t p with
  | Some (File data) => data
  | _ => []
  end.

Fixpoint set_entry (name : string) (x : node) (es : list (string * node))
  : list (string * node) :=
  match es with
  | [] => [(name, x)]
  | (n, c) :: es' =>
      if String.eqb name n then (n, x) :: es' else (n, c) :: set_entry name x es'
  end.

Fixpoint remove_entry (name : string) (es : list (string * node))
  : list (string * node) :=
  match es with
  | [] => []
  | (n, c) :: es' =>
      if String.eqb name n then remove_entry name es' else (n, c) :: remove_entry name es'
  end.

(** Bind [p] to [x], replacing what is there; [None] when the parent of [p]
    is not an existing directory. *)
Fixpoint put (t : node) (p : path) (x : node) : option node :=
  match p with
  | [] => None
  | name :: p' =>
      match t with
      | Dir es =>
          match p' with
          | [] => Some (Dir (set_entry name x es))
          | _ :: _ =>
              match find_entry name es with
              | Some c =>
                  match put c p' x with
                  | Some c' => Some (Dir (set_entry name c' es))
                  | None => None
                  end
              | None => None
              end
          end
      | _ => None
      end
  end.

(** Unbind [p] together with everything below it; nothing changes when [p]
    does not exist. *)
Fixpoint del (t : node) (p : path) : node :=
  match p with
  | [] => t
  | name :: p' =>
      match t with
      | Dir es =>
          match p' with
          | [] => Dir (remove_entry name es)
          | _ :: _ =>
              match find_entry name es with
              | Some c => Dir (set_entry name (del c p') es)
              | None => t
              end
          end
      | _ => t
      end
  end.

(** The relative paths of all descendants, each directory before its
    content: the order of [fs::recursive_directory_iterator]. *)
Fixpoint walk (t : node) : list path :=
  match t with
  | Dir es => flat_map (fun e => [fst e] :: map (cons (fst e)) (walk (snd e))) es
  | _ => []
  end.

Fixpoint has_name (name : string) (es : list (string * node)) : bool :=
  match es with
  | [] => false
  | (n, _) :: es' => String.eqb name n || has_name name es'
  end.

Fixpoint distinct_names (es : list (string * node)) : bool :=
  match es with
  | [] => true
  | (n, _) :: es' => negb (has_name n es') && distinct_names es'
  end.

(** Well-formed trees: no directory lists a name twice. *)
Fixpoint wf (t : node) : bool :=
  match t with
  | Dir es => distinct_names es && forallb (fun e => wf (snd e)) es
  | _ => true
  end.

(** Induction on trees, with the hypothesis on every entry of a directory. *)
Fixpoint node_induction (P : node -> Prop)
    (HF : forall data, P (File data)) (HO : P Other)
    (HD : forall es, Forall (fun e => P (snd e)) es -> P (Dir es))
    (t : node) : P t :=
  match t with
  | File data => HF data
  | Other => HO
  | Dir es =>
      HD es ((fix children (es : list (string * node)) : Forall (fun e => P (snd e)) es :=
                match es with
                | [] => Forall_nil _
                | e :: es' => Forall_cons e (node_induction P HF HO HD (snd e)) (children es')
                end) es)
  end.

Fixpoint path_eqb (p q : path) : bool :=
  match p, q with
  | [], [] => true
  | x :: p', y :: q' => String.eqb x y && path_eqb p' q'
  | _, _ => false
  end.

(** [p] is [q] or lies below [q]. *)
Fixpoint under (p q : path) {struct q} : bool :=
  match q, p with
  | [], _ => true
  | y :: q', x :: p' => String.eqb x y && under p' q'
  | _ :: _, [] => false
  end.

(** [fs::relative(p, base)] for a [p] below [base]: the remainder of [p].
    The program only calls it on entries enumerated under [base]. *)
Fixpoint relative (p base : path) {struct base} : path :=
  match base, p with
  | [], _ => p
  | b :: base', x :: p' => if String.eqb x b then relative p' base' else p
  | _ :: _, [] => p
  end.

Definition path_string (p : path) : string :=
  String.concat "" (map (fun c => String "/" c) p).

(* ===================================================================== *)
(** * Process state, exceptions and the logger                            *)
(* ===================================================================== *)

(** The lines handed to [logOperation]; [message_text] is the text the
    source builds (the time stamp that [logOperation] prepends is left out). *)
Inductive message : Type :=
| CreatedReplicaDirectory (replica : path)
| CreatedDirectory (replicaPath : path)
| CopiedFile (src dst : path)
| Removed (p : path)
| FilesystemErrorLine (what : string)
| ErrorLine (what : string)
| SourceMissing
| SourceNotDirectory
| SourceGone
| SynchronizationComplete
| SynchronizationStopped.

Definition message_text (m : message) : string :=
  match m with
  | CreatedReplicaDirectory p => "Created replica directory: " ++ path_string p
  | CreatedDirectory p => "Created directory: " ++ path_string p
  | CopiedFile a b => "Copied file: " ++ path_string a ++ " to " ++ path_string b
  | Removed p => "Removed: " ++ path_string p
  | FilesystemErrorLine w => "Filesystem error: " ++ w
  | ErrorLine w => "Error: " ++ w
  | SourceMissing => "Error: Source path does not exist."
  | SourceNotDirectory => "Error: Source path is not a directory."
  | SourceGone => "Source directory has been deleted or is inaccessible. Exiting..."
  | SynchronizationComplete =>
      "Synchronization complete. All files and directories are synchronized."
  | SynchronizationStopped => "Synchronization stopped."
  end%string.

(** The lines that report a mutation of the replica. *)
Definition is_mutation_line (m : message) : bool :=
  match m with
  | CreatedReplicaDirectory _ | CreatedDirectory _ | CopiedFile _ _ | Removed _ => true
  | _ => false
  end.

(** [tree] is the filesystem, [changesMade] the global flag, [log] the lines
    written so far (oldest first), [clock] the reading of
    [std::chrono::steady_clock] in nanoseconds. *)
Record state : Type := State {
  tree : node;
  changesMade : bool;
  log : list message;
  clock : Z
}.

Inductive exn : Type :=
| filesystem_error (what : string)
| std_exception (what : string).

Inductive outcome (A : Type) : Type :=
| Ok (a : A)
| Throw (e : exn).
Arguments Ok {A} a.
Arguments Throw {A} e.

(** Computations over the process state that return or throw. *)
Definition M (A : Type) : Type := state -> outcome A * state.

Definition ret {A} (a : A) : M A := fun st => (Ok a, st).

Definition bind {A B} (m : M A) (k : A -> M B) : M B :=
  fun st =>
    match m st with
    | (Ok a, st') => k a st'
    | (Throw e, st') => (Throw e, st')
    end.

Definition throw {A} (e : exn) : M A := fun st => (Throw e, st).

(** [try { m } catch (const fs::filesystem_error& e) { h e } catch (const std::exception& e) { h e }] *)
Definition try_catch (m : M unit) (h : exn -> M unit) : M unit :=
  fun st =>
    match m st with
    | (Ok a, st') => (Ok a, st')
    | (Throw e, st') => h e st'
    end.

Declare Scope prog_scope.
Delimit Scope prog_scope with prog.
Notation "x <- m ;; k" := (bind m (fun x => k))
  (at level 61, m at next level, right associativity) : prog_scope.
Notation "m ;; k" := (bind m (fun _ => k))
  (at level 61, right associativity) : prog_scope.
Local Open Scope prog_scope.

Fixpoint for_each {A} (l : list A) (body : A -> M unit) : M unit :=
  match l with
  | [] => ret tt
  | x :: l' => body x ;; for_each l' body
  end.

Definition with_tree (f : node -> node) (st : state) : state :=
  State (f (tree st)) (changesMade st) (log st) (clock st).

Definition set_changesMade (b : bool) : M unit :=
  fun st => (Ok tt, State (tree st) b (log st) (clock st)).

Definition get_changesMade : M bool := fun st => (Ok (changesMade st), st).

Definition logOperation (m : message) : M unit :=
  fun st => (Ok tt, State (tree st) (changesMade st) (log st ++ [m]) (clock st)).

(** The two handlers every reconciler ends with. *)
Definition log_exception (e : exn) : M unit :=
  match e with
  | filesystem_error w => logOperation (FilesystemErrorLine w)
  | std_exception w => logOperation (ErrorLine w)
  end.

(* ===================================================================== *)
(** * The [std::filesystem] calls of the program                          *)
(* ===================================================================== *)

Definition fs_exists (p : path) : M bool := fun st => (Ok (exists_at (tree st) p), st).
Definition is_regular_file (p : path) : M bool := fun st => (Ok (regular_at (tree st) p), st).
Definition is_directory (p : path) : M bool := fun st => (Ok (directory_at (tree st) p), st).

(** [fs::create_directory(p)]: makes the one directory [p]; an existing
    directory is not an error; a missing or non-directory parent is. *)
Definition create_directory (p : path) : M bool :=
  fun st =>
    match status (tree st) p with
    | directory => (Ok false, st)
    | not_found =>
        match put (tree st) p (Dir []) with
        | Some t' => (Ok true, with_tree (fun _ => t') st)
        | None => (Throw (filesystem_error ("create_directory: " ++ path_string p)), st)
        end
    | _ => (Throw (filesystem_error ("create_directory: " ++ path_string p)), st)
    end.

(** [fs::copy_file(from, to, fs::copy_options::overwrite_existing)]:
    [from] must be a regular file, [to] must be absent or another regular file. *)
Definition copy_file (from to : path) : M bool :=
  fun st =>
    let failure :=
      (Throw (filesystem_error ("copy_file: " ++ path_string from ++ " " ++ path_string to)), st) in
    match lookup (tree st) from with
    | Some (File data) =>
        match status (tree st) to with
        | not_found | regular =>
            if path_eqb from to then failure
            else match put (tree st) to (File data) with
                 | Some t' => (Ok true, with_tree (fun _ => t') st)
                 | None => failure
                 end
        | _ => failure
        end
    | _ => failure
    end.

(** [fs::remove_all(p)]: removes [p] and its content; a missing [p] is not
    an error.  The program discards the count it returns. *)
Definition remove_all (p : path) : M unit :=
  fun st => (Ok tt, with_tree (fun t => del t p) st).

(** [fs::recursive_directory_iterator(root)]: the entries below [root], as
    absolute paths; throws when [root] is not a directory.  The entries are
    those present when the iterator is made, which is what the loop sees as
    long as its body does not change the tree it walks. *)
Definition recursive_directory_iterator (root : path) : M (list path) :=
  fun st =>
    match lookup (tree st) root with
    | Some (Dir es) => (Ok (map (app root) (walk (Dir es))), st)
    | _ => (Throw (filesystem_error ("recursive_directory_iterator: " ++ path_string root)), st)
    end.

(** [std::chrono::steady_clock::now()] *)
Definition steady_now : M Z := fun st => (Ok (clock st), st).

(** Wall-clock time going by. *)
Definition elapse (ns : Z) : M unit :=
  fun st => (Ok tt, State (tree st) (changesMade st) (log st) (clock st + ns)).

(** [std::this_thread::sleep_for(d)]: returns at once for [d <= 0]. *)
Definition sleep_for (ns : Z) : M unit :=
  if (ns <=? 0)%Z then ret tt else elapse ns.

(* ===================================================================== *)
(** * The program                                                          *)
(* ===================================================================== *)

(** What the stream buffer of libstdc++ throws when reading a directory: a
    [std::ios_base::failure], which is a [std::exception] and no
    [fs::filesystem_error]. *)
Definition read_failure : exn :=
  std_exception "basic_filebuf::underflow error reading the file: Is a directory".

(** [std::ifstream file(path, std::ios::binary)] read to its end by
    [std::vector<char> buffer(std::istreambuf_iterator<char>(file), {})].
    Whether the stream opened is not looked at: on a path that does not
    exist the iterator of the closed stream is at its end at once and the
    buffer stays empty.  A directory opens, and the first read of the
    iterator fails inside the stream buffer, which throws.  A special file
    is at its end at once. *)
Definition read_stream (p : path) : M (list byte) :=
  fun st =>
    match status (tree st) p with
    | directory => (Throw read_failure, st)
    | _ => (Ok (read_all (tree st) p), st)
    end.

Definition computeFileHash (p : path) : M string :=
  buffer <- read_stream p ;;
  ret (SHA256_hex buffer).

(** The body of the [for] loop of [syncCopy]. *)
Definition syncCopy_entry (source replica : path) (path : path) : M unit :=
  let relativePath := relative path source in
  let replicaPath := replica ++ relativePath in
  isfile <- is_regular_file path ;;
  if isfile : bool then
    present <- fs_exists replicaPath ;;
    shouldCopy <-
      (if negb present then ret true
       else
         sourceHash <- computeFileHash path ;;
         replicaHash <- computeFileHash replicaPath ;;
         ret (negb (String.eqb sourceHash replicaHash))) ;;
    if shouldCopy : bool then
      copy_file path replicaPath ;;
      logOperation (CopiedFile path replicaPath) ;;
      set_changesMade true
    else ret tt
  else ret tt.

Definition syncCopy (source replica : path) : M unit :=
  try_catch
    (entries <- recursive_directory_iterator source ;;
     for_each entries (syncCopy_entry source replica))
    log_exception.

(** The first loop of [syncDelete]: the replica entries without a
    counterpart in the source. *)
Definition stale_entries (source replica : path) (entries : list path) : M (list path) :=
  fun st =>
    (Ok (filter (fun path =>
                   let relativePath := relative path replica in
                   let sourcePath := source ++ relativePath in
                   negb (exists_at (tree st) sourcePath)) entries), st).

(** The body of its second loop. *)
Definition syncDelete_entry (path : path) : M unit :=
  remove_all path ;;
  logOperation (Removed path) ;;
  set_changesMade true.

Definition syncDelete (source replica : path) : M unit :=
  try_catch
    (entries <- recursive_directory_iterator replica ;;
     filesToRemove <- stale_entries source replica entries ;;
     for_each filesToRemove syncDelete_entry)
    log_exception.

(** The body of the [for] loop of [syncSubdirectories]. *)
Definition syncSubdirectories_entry (source replica : path) (path : path) : M unit :=
  let relativePath := relative path source in
  let replicaPath := replica ++ relativePath in
  isdir <- is_directory path ;;
  if isdir : bool then
    present <- fs_exists replicaPath ;;
    if negb present then
      create_directory replicaPath ;;
      logOperation (CreatedDirectory replicaPath) ;;
      set_changesMade true
    else ret tt
  else ret tt.

Definition syncSubdirectories (source replica : path) : M unit :=
  try_catch
    (entries <- recursive_directory_iterator source ;;
     for_each entries (syncSubdirectories_entry source replica))
    log_exception.

Definition syncFolders (source replica : path) : M unit :=
  set_changesMade false ;;
  try_catch
    (present <- fs_exists replica ;;
     (if negb present then
        create_directory replica ;;
        logOperation (CreatedReplicaDirectory replica) ;;
        set_changesMade true
      else ret tt) ;;
     syncSubdirectories source replica ;;
     syncCopy source replica ;;
     syncDelete source replica)
    log_exception.

Definition isSourceValid (source : path) : M bool :=
  present <- fs_exists source ;;
  if negb present then logOperation SourceMissing ;; ret false
  else
    isdir <- is_directory source ;;
    if negb isdir then logOperation SourceNotDirectory ;; ret false
    else ret true.

(** [int count], written as a natural number (the count stays far below
    [INT_MAX]). *)
Definition countFilesAndDirectories (dir : path) : M nat :=
  entries <- recursive_directory_iterator dir ;;
  fun st =>
    (Ok (fold_left (fun count entry =>
                      if regular_at (tree st) entry || directory_at (tree st) entry
                      then S count else count) entries O), st).





(** Nothing catches what the two counts throw. *)
Definition checkSyncCompletion (source replica : path) : M unit :=
  sourceCount <- countFilesAndDirectories source ;;
  replicaCount <- countFilesAndDirectories replica ;;
  changed <- get_changesMade ;;
  if Nat.eqb sourceCount replicaCount && changed then
    logOperation SynchronizationComplete ;;
    set_changesMade false
  else ret tt.

(** One pass through the body of [while (keepRunning)] in [main]; [work] is
    the wall-clock time the two calls take, [interval] the configured
    number of seconds.  [Some 1] is [return 1]. *)
Definition nanoseconds_of_seconds (s : Z) : Z := (s * 1000000000)%Z.

Definition loop_body (source replica : path) (interval work : Z) : M (option Z) :=
  valid <- isSourceValid source ;;
  if negb valid then logOperation SourceGone ;; ret (Some 1%Z)
  else
    start <- steady_now ;;
    syncFolders source replica ;;
    checkSyncCompletion source replica ;;
    elapse work ;;
    finish <- steady_now ;;
    let elapsed_seconds := (finish - start)%Z in
    sleep_for (nanoseconds_of_seconds interval - elapsed_seconds)%Z ;;
    ret None.

Definition run {A} (m : M A) (st : state) : state := snd (m st).
Definition result {A} (m : M A) (st : state) : outcome A := fst (m st).

Definition initial (t : node) : state := State t false [] 0.

(* ===================================================================== *)
(** * Notions the statements and the proofs are written in               *)
(* ===================================================================== *)

(** Two roots are apart when neither lies under the other. *)
Definition apart (p q : path) : Prop := under p q = false /\ under q p = false.

(** What the program can observe at a path: its type and what reading it
    yields. *)
Definition obs_node (o : option node) : file_type * list byte :=
  match o with
  | Some (File data) => (regular, data)
  | Some (Dir _) => (directory, [])
  | Some Other => (other, [])
  | None => (not_found, [])
  end.

Definition obs (t : node) (p : path) : file_type * list byte := obs_node (lookup t p).

(** A leaf bound at a path that was free or a regular file changes what is
    observed at that path only. *)
Definition leaf (x : node) : Prop := forall a r, lookup x (a :: r) = None.

(** What one pass through the body of a reconciler loop does. *)
Inductive action : Type :=
| Skip
| Mutate (t' : node) (line : message)
| Fail (e : exn).

Definition apply_action (a : action) (st : state) : outcome unit * state :=
  match a with
  | Skip => (Ok tt, st)
  | Mutate t' line => (Ok tt, State t' true (log st ++ [line]) (clock st))
  | Fail e => (Throw e, st)
  end.

Section LoopNotions.

Variable act : node -> path -> action.

(** The tree the loop leaves behind. *)
Fixpoint loop_tree (es : list path) (t : node) : node :=
  match es with
  | [] => t
  | e :: es' =>
      match act t e with
      | Skip => loop_tree es' t
      | Mutate t' _ => loop_tree es' t'
      | Fail _ => t
      end
  end.

(** The loop finds nothing to do: it skips every entry up to the end or
    up to the first one that throws. *)
Fixpoint quiet (es : list path) (t : node) : Prop :=
  match es with
  | [] => True
  | e :: es' =>
      match act t e with
      | Skip => quiet es' t
      | Mutate _ _ => False
      | Fail _ => True
      end
  end.

(** The loop runs to its end without throwing. *)
Fixpoint completes (es : list path) (t : node) : Prop :=
  match es with
  | [] => True
  | e :: es' =>
      match act t e with
      | Skip => completes es' t
      | Mutate t' _ => completes es' t'
      | Fail _ => False
      end
  end.

(** The lines the loop writes before it ends or throws. *)
Fixpoint loop_lines (es : list path) (t : node) : list message :=
  match es with
  | [] => []
  | e :: es' =>
      match act t e with
      | Skip => loop_lines es' t
      | Mutate t' line => line :: loop_lines es' t'
      | Fail _ => []
      end
  end.

End LoopNotions.

Definition create_error (p : path) : exn :=
  filesystem_error ("create_directory: " ++ path_string p).

Definition copy_error (from to : path) : exn :=
  filesystem_error ("copy_file: " ++ path_string from ++ " " ++ path_string to).

Definition iterator_error (root : path) : exn :=
  filesystem_error ("recursive_directory_iterator: " ++ path_string root).

(** [syncSubdirectories_entry] as an action on the tree. *)
Definition mirror_action (source replica : path) (t : node) (e : path) : action :=
  let replicaPath := replica ++ relative e source in
  if directory_at t e then
    if exists_at t replicaPath then Skip
    else match put t replicaPath (Dir []) with
         | Some t' => Mutate t' (CreatedDirectory replicaPath)
         | None => Fail (create_error replicaPath)
         end
  else Skip.

Definition should_copy (t : node) (from to : path) : bool :=
  if negb (exists_at t to) then true
  else negb (String.eqb (SHA256_hex (read_all t from)) (SHA256_hex (read_all t to))).

(** The entry is not passed over: reading its counterpart throws, or the
    copy is due. *)
Definition acted_on (t : node) (from to : path) : bool :=
  directory_at t to || should_copy t from to.

(** [syncCopy_entry] as an action on the tree. *)
Definition copy_action (source replica : path) (t : node) (e : path) : action :=
  let replicaPath := replica ++ relative e source in
  if regular_at t e then
    if directory_at t replicaPath then Fail read_failure
    else if should_copy t e replicaPath then
      match status t replicaPath with
      | not_found | regular =>
          if path_eqb e replicaPath then Fail (copy_error e replicaPath)
          else match put t replicaPath (File (read_all t e)) with
               | Some t' => Mutate t' (CopiedFile e replicaPath)
               | None => Fail (copy_error e replicaPath)
               end
      | _ => Fail (copy_error e replicaPath)
      end
    else Skip
  else Skip.

(** [syncDelete_entry] as an action: it always mutates. *)
Definition delete_action (t : node) (e : path) : action := Mutate (del t e) (Removed e).

(** The entries [fs::recursive_directory_iterator(root)] yields, when
    [root] is a directory. *)
Definition entries_of (t : node) (root : path) : option (list path) :=
  match lookup t root with
  | Some (Dir es) => Some (map (app root) (walk (Dir es)))
  | _ => None
  end.

(** The state moved on without any mutation: the same tree, flag and clock,
    and only error lines added to the log. *)
Definition no_mutation (st st' : state) : Prop :=
  tree st' = tree st /\ changesMade st' = changesMade st /\ clock st' = clock st
  /\ exists errs, log st' = log st ++ errs
                  /\ Forall (fun m => is_mutation_line m = false) errs.

Section ReconcileNotions.

Variable act : node -> path -> action.
Variable body : path -> M unit.
Variable root : path.
Variable select : node -> list path -> list path.

(** The shape shared by the three reconcilers: enumerate [root], choose
    the entries to work on, loop over them, and log what is thrown. *)
Definition reconcile : M unit :=
  try_catch
    (entries <- recursive_directory_iterator root ;;
     chosen <- (fun st => (Ok (select (tree st) entries), st)) ;;
     for_each chosen body)
    log_exception.

Definition reconcile_tree (t : node) : node :=
  match entries_of t root with
  | Some es => loop_tree act (select t es) t
  | None => t
  end.

End ReconcileNotions.

Definition all_entries (t : node) (es : list path) : list path := es.

Definition stale_in (source replica : path) (t : node) (es : list path) : list path :=
  filter (fun path => negb (exists_at t (source ++ relative path replica))) es.

Definition mirror_tree (source replica : path) : node -> node :=
  reconcile_tree (mirror_action source replica) source all_entries.

Definition copy_tree (source replica : path) : node -> node :=
  reconcile_tree (copy_action source replica) source all_entries.

(** The replica root as [syncFolders] ensures it: [None] when making it throws. *)
Definition ensure_replica (replica : path) (t : node) : option node :=
  if exists_at t replica then Some t else put t replica (Dir []).

Definition reset_flag (st : state) : state :=
  State (tree st) false (log st) (clock st).

Section RootNotions.

Variables source replica : path.

(** The entries the loops over the source see. *)
Definition source_entry (e : path) : Prop := exists r, e = source ++ r /\ r <> [].

Definition copy_blocked (t : node) (r : path) : Prop :=
  match status t (replica ++ r) with
  | not_found => directory_at t (removelast (replica ++ r)) = false
  | regular => False
  | _ => True
  end.

(** Both decisions depend on what is observed at the entry, at its
    counterpart and at the counterpart's parent. *)
Definition same_footprint (t t' : node) (r : path) : Prop :=
  obs t' (source ++ r) = obs t (source ++ r)
  /\ obs t' (replica ++ r) = obs t (replica ++ r)
  /\ obs t' (removelast (replica ++ r)) = obs t (removelast (replica ++ r)).

(** A replica path without counterpart in the source. *)
Definition stale_path (t : node) (p : path) : Prop :=
  exists s, p = replica ++ s /\ s <> [] /\ exists_at t (source ++ s) = false.

Definition prune_tree : node -> node :=
  reconcile_tree delete_action replica (stale_in source replica).

(** The three reconcilers in a row, none of which throws. *)
Definition reconcilers : M unit :=
  syncSubdirectories source replica ;;
  syncCopy source replica ;;
  syncDelete source replica.

(** Nothing left to do for any of the three. *)
Definition settled (t : node) : Prop :=
  (forall es, entries_of t source = Some es ->
              quiet (mirror_action source replica) es t)
  /\ (forall es, entries_of t source = Some es ->
                 quiet (copy_action source replica) es t)
  /\ (forall es, entries_of t replica = Some es ->
                 stale_in source replica t es = []).

(** A tree on which a cycle finds nothing to do. *)
Definition cycle_settled (t : node) : Prop :=
  if exists_at t replica then settled t else put t replica (Dir []) = None.

(** What the two loops over the source keep: well-formedness, the source
    tree, and whatever exists. *)
Definition kept (t t' : node) : Prop :=
  wf t' = true
  /\ (forall q, lookup t' (source ++ q) = lookup t (source ++ q))
  /\ (forall q, exists_at t q = true -> exists_at t' q = true).

(** Every path of the list lies below the source root and exists. *)
Definition entries_exist (es : list path) (t : node) : Prop :=
  forall e, In e es -> exists r, e = source ++ r /\ r <> [] /\ exists_at t e = true.

(** Wherever the source has a directory and the replica has an entry, the
    replica entry is a directory too. *)
Definition dirs_compatible (t : node) : Prop :=
  forall r, directory_at t (source ++ r) = true ->
            exists_at t (replica ++ r) = true ->
            directory_at t (replica ++ r) = true.

(** Wherever both have an entry, the two are of the same type. *)
Definition compatible (t : node) : Prop :=
  forall r, exists_at t (source ++ r) = true ->
            exists_at t (replica ++ r) = true ->
            status t (replica ++ r) = status t (source ++ r).

(** What the Structure Mirror changes: counterparts of source directories
    that were missing, each now a directory. *)
Definition created_only (t t' : node) : Prop :=
  forall q, obs t' q = obs t q
            \/ exists r, q = replica ++ r
                         /\ directory_at t (source ++ r) = true
                         /\ exists_at t q = false
                         /\ obs t' q = (directory, []).

(** One cycle of the run loop: the synchronization and the completion check. *)
Definition cycle : M unit :=
  syncFolders source replica ;; checkSyncCompletion source replica.

Fixpoint cycles (n : nat) (st : state) : state :=
  match n with
  | O => st
  | S n' => cycles n' (run cycle st)
  end.

End RootNotions.

(** The tree one call of [syncFolders] leaves behind. *)
Definition cycle_tree (source replica : path) (t : node) : node :=
  match ensure_replica replica t with
  | Some t0 => prune_tree source replica (copy_tree source replica (mirror_tree source replica t0))
  | None => t
  end.

Definition exception_line (e : exn) : message :=
  match e with
  | filesystem_error w => FilesystemErrorLine w
  | std_exception w => ErrorLine w
  end.

Definition add_line (m : message) (st : state) : state :=
  State (tree st) (changesMade st) (log st ++ [m]) (clock st).

(** An entry the count takes in: a regular file or a directory. *)
Definition counted (t : node) (e : path) : bool := regular_at t e || directory_at t e.

(** The number of regular files and directories below [dir], when [dir]
    is a directory. *)
Definition entry_count (t : node) (dir : path) : option nat :=
  match entries_of t dir with
  | Some es => Some (List.length (filter (counted t) es))
  | None => None
  end.



(** The test [sourceCount == replicaCount && changesMade], with both counts
    taken; [false] when a count throws. *)
Definition completion_due (source replica : path) (st : state) : bool :=
  match entry_count (tree st) source, entry_count (tree st) replica with
  | Some a, Some b => Nat.eqb a b && changesMade st
  | _, _ => false
  end.


Fixpoint same_kinds (a b : node) : bool :=
  match a, b with
  | File _, File _ => true
  | Other, Other => true
  | Dir ea, Dir eb =>
      forallb (fun e => match find_entry (fst e) eb with
                        | Some c => same_kinds (snd e) c
                        | None => true
                        end) ea
  | _, _ => false
  end.

(** A small tree used to exercise the statements below: the source [/s]
    holds a file and a directory with a sub-directory and an empty file; the
    replica [/r] holds a stale file and a regular file where the source has
    a directory. *)
Definition demo_tree : node :=
  Dir [("s"%string,
        Dir [("a.txt"%string, File (bytes_of_string "X"));
             ("d"%string, Dir [("e"%string, Dir []); ("f"%string, File [])])]);
       ("r"%string,
        Dir [("stale.txt"%string, File []); ("d"%string, File [])])].

(** A source [/s] with a file, a directory, a sub-directory and an empty
    file; a replica [/r] with an outdated copy of the file and a stale
    directory that holds a special file. *)
Definition tidy_tree : node :=
  Dir [("s"%string,
        Dir [("a.txt"%string, File (bytes_of_string "X"));
             ("d"%string, Dir [("e"%string, Dir []); ("f"%string, File [])])]);
       ("r"%string,
        Dir [("stale"%string, Dir [("x"%string, Other)]); ("a.txt"%string, File [])])].

(** A source [/s] with a directory [d] that holds a file and a directory,
    and a directory [x]; a replica [/r] in which [d] is a regular file. *)
Definition conflict_tree : node :=
  Dir [("s"%string,
        Dir [("d"%string, Dir [("f"%string, File (bytes_of_string "X"));
                               ("e"%string, Dir [])]);
             ("x"%string, Dir [])]);
       ("r"%string, Dir [("d"%string, File [])])].

(** A source [/s] with [d/f] and [z.txt]; a replica [/r] in which [d] is a
    regular file and [old.txt] is stale. *)
Definition blocked_tree : node :=
  Dir [("s"%string,
        Dir [("d"%string, Dir [("f"%string, File (bytes_of_string "X"))]);
             ("z.txt"%string, File (bytes_of_string "Z"))]);
       ("r"%string,
        Dir [("d"%string, File []); ("old.txt"%string, File [])])].

(** A source [/s] with two files; a replica [/r] that holds a directory
    under the name of the first. *)
Definition crossed_tree : node :=
  Dir [("s"%string,
        Dir [("a.txt"%string, File (bytes_of_string "X"));
             ("b.txt"%string, File (bytes_of_string "Y"))]);
       ("r"%string, Dir [("a.txt"%string, Dir [])])].

(** The source [/r/s] lies inside the replica [/r]. *)
Definition nested_tree : node :=
  Dir [("r"%string, Dir [("s"%string, Dir [("a"%string, File (bytes_of_string "X"))])])].

(** The source [/r/s] lies inside the replica [/r] and holds a directory of
    its own name beside a file. *)
Definition nested_twice_tree : node :=
  Dir [("r"%string,
        Dir [("s"%string,
              Dir [("s"%string, Dir []); ("a"%string, File (bytes_of_string "X"))])])].

Definition after_cycle (t : node) : state :=
  run (syncFolders ["s"%string] ["r"%string]) (initial t).

(** The state moved on, writing [lines] to the log: the flag is raised as
    soon as one of them reports a mutation, and the tree is the same when
    none does. *)
Definition logged (lines : list message) (st st' : state) : Prop :=
  log st' = log st ++ lines
  /\ changesMade st' = changesMade st || existsb is_mutation_line lines
  /\ (existsb is_mutation_line lines = false -> tree st' = tree st).

(** The number of lines that report an error, not a mutation. *)
Definition error_lines (lines : list message) : nat :=
  List.length (filter (fun m => negb (is_mutation_line m)) lines).

(** The replica root is a directory, or it is missing where
    [create_directory] can make it. *)
Definition replica_ready (replica : path) (t : node) : bool :=
  directory_at t replica
  || (negb (exists_at t replica) && directory_at t (removelast replica)).

(** What the Copy Reconciler changes: counterparts of regular files of the
    source that were missing or had another digest, each now a regular file
    with the bytes of the source file. *)
Definition copied_only (source replica : path) (t t' : node) : Prop :=
  forall q, obs t' q = obs t q
            \/ exists r, q = replica ++ r
                         /\ regular_at t (source ++ r) = true
                         /\ should_copy t (source ++ r) q = true
                         /\ (exists_at t q = false \/ regular_at t q = true)
                         /\ obs t' q = (regular, read_all t (source ++ r)).


(** The line [isSourceValid] writes about a source that is no directory. *)
Definition invalid_source_line (t : node) (source : path) : message :=
  if exists_at t source then SourceNotDirectory else SourceMissing.

(** The characters [std::hex] writes. *)
Definition is_lower_hex (c : ascii) : bool :=
  let n := N_of_ascii c in
  ((48 <=? n) && (n <=? 57) || (97 <=? n) && (n <=? 102))%N.

Fixpoint string_forallb (f : ascii -> bool) (s : string) : bool :=
  match s with
  | EmptyString => true
  | String c s' => f c && string_forallb f s'
  end.

(* ===================================================================== *)
(** * The process: arguments, signals and the run loop                    *)
(* ===================================================================== *)

(** [SIGINT] and [SIGTERM], with the numbers <csignal> gives them. *)
Definition SIGINT : Z := 2.
Definition SIGTERM : Z := 15.

(** [signalHandler], as a function of the global [keepRunning]. *)
Definition signalHandler (signal : Z) (keepRunning : bool) : bool :=
  if (signal =? SIGINT)%Z || (signal =? SIGTERM)%Z then false else keepRunning.

(** [std::isspace] in the C locale. *)
Definition isspace (c : ascii) : bool :=
  let n := N_of_ascii c in ((n =? 32) || (9 <=? n) && (n <=? 13))%N.

Definition digit_value (c : ascii) : option Z :=
  let n := N_of_ascii c in
  if ((48 <=? n) && (n <=? 57))%N then Some (Z.of_N n - 48)%Z else None.

Fixpoint skip_spaces (s : string) : string :=
  match s with
  | String c s' => if isspace c then skip_spaces s' else s
  | EmptyString => s
  end.

(** The value of the digits [s] starts with; [acc] is the value read so
    far, [None] before the first digit. *)
Fixpoint leading_digits (s : string) (acc : option Z) : option Z :=
  match s with
  | String c s' =>
      match digit_value c with
      | Some d =>
          leading_digits s'
            (Some (10 * match acc with Some a => a | None => 0 end + d)%Z)
      | None => acc
      end
  | EmptyString => acc
  end.

Definition INT_MIN : Z := (-2147483648)%Z.
Definition INT_MAX : Z := 2147483647%Z.

(** [std::stoi(str)]: white space, an optional sign, then decimal digits;
    what follows the digits is ignored.  It throws [std::invalid_argument]
    when there is no digit and [std::out_of_range] when the value is no
    [int]. *)
Definition stoi (str : string) : outcome Z :=
  let s := skip_spaces str in
  let signed :=
    match s with
    | String "-"%char r => (true, r)
    | String "+"%char r => (false, r)
    | _ => (false, s)
    end in
  match leading_digits (snd signed) None with
  | None => Throw (std_exception "invalid stoi argument")
  | Some n =>
      let v := if fst signed then (- n)%Z else n in
      if ((INT_MIN <=? v) && (v <=? INT_MAX))%Z then Ok v
      else Throw (std_exception "stoi argument out of range")
  end.

Definition digit_char (d : Z) : ascii := ascii_of_N (48 + Z.to_N d).

(** The decimal digits of [n >= 0] in front of [tail]; an [int] has at
    most ten of them. *)
Fixpoint digits (fuel : nat) (n : Z) (tail : string) : string :=
  match fuel with
  | O => tail
  | S fuel' =>
      let tail' := String (digit_char (n mod 10)) tail in
      if (n <? 10)%Z then tail' else digits fuel' (n / 10) tail'
  end.

(** [std::to_string(int)] *)
Definition to_string (n : Z) : string :=
  if (n <? 0)%Z then String "-" (digits 10 (- n) EmptyString)
  else digits 10 n EmptyString.

(** [fs::path p = str]: the components between the separators.  Paths are
    taken from the filesystem root; a [.] or [..] component, which the
    operating system would resolve, is read as a name and is outside what
    the model covers. *)
Fixpoint components (s : string) (current : string) : list string :=
  match s with
  | EmptyString => if String.eqb current EmptyString then [] else [current]
  | String c s' =>
      if Ascii.eqb c "/"
      then if String.eqb current EmptyString then components s' EmptyString
           else current :: components s' EmptyString
      else components s' (current ++ String c EmptyString)
  end.

Definition path_of_string (s : string) : path := components s EmptyString.

(** The process: the state the cycles work on, the global [keepRunning],
    the lines [main] logs before its loop, and what went to [std::cerr]. *)
Record process : Type := Process {
  machine : state;
  keepRunning : bool;
  startup : list string;
  cerr : list string
}.

(** What the outside world does during one pass through the run loop:
    [work] is the wall-clock time of the two calls, [signals] are the
    signals delivered to the process after the loop condition was tested,
    and [outside] is what other processes have done to the filesystem by the
    time the next pass begins. *)
Record pass : Type := Pass {
  work : Z;
  signals : list Z;
  outside : node -> node
}.

(** How [main] ends: [return code], an exception nobody catches, or no end
    within the passes given. *)
Inductive ending : Type :=
| Returned (code : Z)
| Terminated (e : exn)
| Running.

(** The handler runs once per signal delivered. *)
Definition deliver (sigs : list Z) (keepRunning : bool) : bool :=
  fold_left (fun k s => signalHandler s k) sigs keepRunning.

(** [while (keepRunning) { ... }] and the two statements that follow it.
    Nothing in the body reads [keepRunning]: a signal takes effect at the
    next test of the loop condition. *)
Fixpoint run_loop (sourcePath replicaPath : path) (interval : Z)
    (passes : list pass) (p : process) : ending * process :=
  if keepRunning p then
    match passes with
    | [] => (Running, p)
    | x :: rest =>
        match loop_body sourcePath replicaPath interval (work x) (machine p) with
        | (Ok None, st) =>
            run_loop sourcePath replicaPath interval rest
              (Process (with_tree (outside x) st)
                       (deliver (signals x) (keepRunning p)) (startup p) (cerr p))
        | (Ok (Some code), st) =>
            (Returned code, Process st (keepRunning p) (startup p) (cerr p))
        | (Throw e, st) =>
            (Terminated e, Process st (keepRunning p) (startup p) (cerr p))
        end
    end
  else
    (Returned 0,
     Process (add_line SynchronizationStopped (machine p)) false (startup p) (cerr p)).

Definition usage (program : string) : string :=
  "Usage: " ++ program
  ++ " <source_path> <replica_path> <interval_seconds> <log_file_path>".

(** The four lines [main] logs before the loop. *)
Definition banner (source replica : string) (interval : Z) : list string :=
  ["Starting folder synchronization.";
   "Source path: " ++ source;
   "Replica path: " ++ replica;
   "Synchronization interval: " ++ to_string interval ++ " seconds"]%string.

Definition main (argv : list string) (passes : list pass) (p : process)
  : ending * process :=
  match argv with
  | [_; source; replica; seconds; _] =>
      match stoi seconds with
      | Throw e => (Terminated e, p)
      | Ok interval =>
          match isSourceValid (path_of_string source) (machine p) with
          | (Ok true, st) =>
              run_loop (path_of_string source) (path_of_string replica) interval passes
                (Process st (keepRunning p)
                         (startup p ++ banner source replica interval) (cerr p))
          | (Ok false, st) =>
              (Returned 1, Process st (keepRunning p) (startup p) (cerr p))
          | (Throw e, st) =>
              (Terminated e, Process st (keepRunning p) (startup p) (cerr p))
          end
      end
  | _ =>
      (Returned 1,
       Process (machine p) (keepRunning p) (startup p)
               (cerr p ++ [usage (hd EmptyString argv)]))
  end.

(** The process as it starts on the tree [t]. *)
Definition boot (t : node) : process := Process (initial t) true [] [].

(** The time a list of passes that go through takes: each lasts the longer
    of its work and the interval. *)
Definition spacing (interval : Z) (passes : list pass) : Z :=
  fold_right (fun x total => Z.max (work x) (nanoseconds_of_seconds interval) + total)%Z
             0%Z passes.

(** A signal that makes [signalHandler] lower [keepRunning]. *)
Definition stops (signal : Z) : bool :=
  (signal =? SIGINT)%Z || (signal =? SIGTERM)%Z.

(* ===================================================================== *)
(** * The logger on its file                                               *)
(* ===================================================================== *)

(** [std::tm], as far as [getCurrentTime] prints it: the year counts from
    1900 and the month from 0. *)
Record tm : Type := Tm {
  tm_year : Z;
  tm_mon : Z;
  tm_mday : Z;
  tm_hour : Z;
  tm_min : Z;
  tm_sec : Z
}.

(** [%m], [%d], [%H], [%M] and [%S] write two digits. *)
Definition two_digits (n : Z) : string :=
  String (digit_char (n / 10)) (String (digit_char (n mod 10)) EmptyString).

(** [getCurrentTime], from the local time [localtime_s] has filled in:
    [std::put_time(&now_tm, "%Y-%m-%d %H:%M:%S")]. *)
Definition getCurrentTime (now_tm : tm) : string :=
  (to_string (tm_year now_tm + 1900) ++ "-" ++ two_digits (tm_mon now_tm + 1)
   ++ "-" ++ two_digits (tm_mday now_tm) ++ " " ++ two_digits (tm_hour now_tm)
   ++ ":" ++ two_digits (tm_min now_tm) ++ ":" ++ two_digits (tm_sec now_tm))%string.

(** A local time as [localtime_s] gives it, in the years 1000 to 9999. *)
Definition plausible (now_tm : tm) : Prop :=
  (-900 <= tm_year now_tm <= 8099 /\ 0 <= tm_mon now_tm <= 11
   /\ 1 <= tm_mday now_tm <= 31 /\ 0 <= tm_hour now_tm <= 23
   /\ 0 <= tm_min now_tm <= 59 /\ 0 <= tm_sec now_tm <= 60)%Z.

Definition endl : string := String "010"%char EmptyString.

(** [std::cout] and [std::cerr], line by line. *)
Record console : Type := Console {
  stdout : list string;
  stderr : list string
}.

(** [std::ofstream logFile(p, std::ios_base::app)] followed by one write:
    the file is made when it is missing, and the bytes go behind what it
    holds.  A special file opens and swallows the bytes.  Opening fails on
    a directory and below anything that is not a directory. *)
Definition append_to_file (t : node) (p : path) (bytes : list byte) : option node :=
  match status t p with
  | not_found | regular => put t p (File (read_all t p ++ bytes))
  | other => Some t
  | directory => None
  end.

(** The log path names a regular file, or nothing yet in a directory. *)
Definition appendable (t : node) (p : path) : Prop :=
  p <> []
  /\ (regular_at t p = true
      \/ (exists_at t p = false /\ directory_at t (removelast p) = true)).

(** The log path names a directory, or nothing below something that is no
    directory. *)
Definition unopenable (t : node) (p : path) : Prop :=
  directory_at t p = true
  \/ (exists_at t p = false /\ directory_at t (removelast p) = false).

Definition log_entry (now_tm : tm) (message : string) : string :=
  ("[" ++ getCurrentTime now_tm ++ "] " ++ message)%string.

(** [logOperation] with its file and the two streams; [now_tm] is the local
    time of the call. *)
Definition logOperation_on_file (logFilePath : string) (now_tm : tm) (message : string)
    (w : node * console) : node * console :=
  let logEntry := log_entry now_tm message in
  match append_to_file (fst w) (path_of_string logFilePath)
                       (bytes_of_string (logEntry ++ endl)) with
  | Some t' => (t', Console (stdout (snd w) ++ [logEntry]) (stderr (snd w)))
  | None =>
      (fst w,
       Console (stdout (snd w))
               (stderr (snd w)
                ++ [("Error: Unable to open log file: " ++ logFilePath)%string]))
  end.

(** A series of calls, each with its local time and its message. *)
Definition log_all (logFilePath : string) (calls : list (tm * string))
    (w : node * console) : node * console :=
  fold_left (fun w call => logOperation_on_file logFilePath (fst call) (snd call) w)
            calls w.

(* ===================================================================== *)
(** * The digest on the FIPS 180-4 test messages                          *)
(* ===================================================================== *)

Example sha256_empty :
  SHA256_hex [] = "e3b0c44298fc1c149afbf4c8996fb92427ae41e4649b934ca495991b7852b855"%string.
Proof. vm_compute. reflexivity. Qed.

Example sha256_abc :
  SHA256_hex (bytes_of_string "abc")
  = "ba7816bf8f01cfea414140de5dae2223b00361a396177a9cb410ff61f20015ad"%string.
Proof. vm_compute. reflexivity. Qed.

Example sha256_two_blocks :
  SHA256_hex (bytes_of_string "abcdbcdecdefdefgefghfghighijhijkijkljklmklmnlmnomnopnopq")
  = "248d6a61d20638b8e5c026930c3e6039a33ce45964ff2167f6ecedd419db06c1"%string.
Proof. vm_compute. reflexivity. Qed.

(* ===================================================================== *)
(** * Paths                                                               *)
(* ===================================================================== *)

Lemma path_eqb_eq (p q : path) : path_eqb p q = true <-> p = q.
Proof.
  revert q; induction p as [|x p IH]; intros [|y q]; simpl; split; intro H;
    try reflexivity; try discriminate.
  - apply andb_true_iff in H as [Hx Hp]. apply String.eqb_eq in Hx.
    apply IH in Hp. now subst.
  - inversion H; subst. rewrite String.eqb_refl. simpl. now apply IH.
Qed.

Lemma path_eqb_refl (p : path) : path_eqb p p = true.
Proof. now apply path_eqb_eq. Qed.

Lemma under_iff (p q : path) : under p q = true <-> exists r, p = q ++ r.
Proof.
  revert p; induction q as [|y q IH]; intros p; simpl.
  - split; [intros _; now exists p | reflexivity].
  - destruct p as [|x p].
    + split; [discriminate | intros [r Hr]; discriminate].
    + rewrite andb_true_iff, String.eqb_eq, IH. split.
      * intros [-> [r ->]]. now exists r.
      * intros [r Hr]. inversion Hr; subst. split; [reflexivity | now exists r].
Qed.

Lemma under_app (q r : path) : under (q ++ r) q = true.
Proof. apply under_iff. now exists r. Qed.

Lemma under_refl (q : path) : under q q = true.
Proof. apply under_iff. exists []. now rewrite app_nil_r. Qed.

Lemma under_trans (p q r : path) :
  under p q = true -> under q r = true -> under p r = true.
Proof.
  rewrite !under_iff. intros [a ->] [b ->]. exists (b ++ a). now rewrite app_assoc.
Qed.

Lemma under_app_cancel (base p q : path) : under (base ++ p) (base ++ q) = under p q.
Proof.
  induction base as [|x base IH]; simpl; [reflexivity|].
  now rewrite String.eqb_refl.
Qed.

Lemma under_nil (p : path) : under [] p = true -> p = [].
Proof. destruct p; [reflexivity | discriminate]. Qed.

Lemma relative_app (base r : path) : relative (base ++ r) base = r.
Proof.
  induction base as [|x base IH]; simpl; [reflexivity|].
  now rewrite String.eqb_refl.
Qed.

Lemma apart_sym (p q : path) : apart p q -> apart q p.
Proof. intros [H1 H2]. now split. Qed.

Lemma apart_app_l (p q r : path) : apart p q -> apart (p ++ r) q.
Proof.
  revert q; induction p as [|x p IH]; intros q [H1 H2].
  - destruct q; discriminate.
  - destruct q as [|y q]; [discriminate|]. simpl in *.
    destruct (String.eqb x y) eqn:E.
    + rewrite String.eqb_sym in H2. rewrite E in H2. simpl in *.
      destruct (IH q (conj H1 H2)) as [H3 H4]. split; simpl.
      * now rewrite E.
      * rewrite String.eqb_sym, E. exact H4.
    + split; simpl; [now rewrite E | now rewrite String.eqb_sym, E].
Qed.

Lemma apart_app (p q r s : path) : apart p q -> apart (p ++ r) (q ++ s).
Proof.
  intros H. apply apart_app_l. apply apart_sym. apply apart_app_l. now apply apart_sym.
Qed.

(* ===================================================================== *)
(** * Directory listings                                                   *)
(* ===================================================================== *)

Lemma find_set_same name x es : find_entry name (set_entry name x es) = Some x.
Proof.
  induction es as [|[n c] es IH]; simpl.
  - now rewrite String.eqb_refl.
  - destruct (String.eqb name n) eqn:E; simpl; rewrite E; [reflexivity | exact IH].
Qed.

Lemma find_set_other name other x es :
  String.eqb other name = false ->
  find_entry other (set_entry name x es) = find_entry other es.
Proof.
  intros Hne. induction es as [|[n c] es IH]; simpl.
  - now rewrite Hne.
  - destruct (String.eqb name n) eqn:E; simpl.
    + apply String.eqb_eq in E. subst n. now rewrite Hne.
    + now rewrite IH.
Qed.

Lemma find_remove_same name es : find_entry name (remove_entry name es) = None.
Proof.
  induction es as [|[n c] es IH]; simpl; [reflexivity|].
  destruct (String.eqb name n) eqn:E; simpl; [exact IH | now rewrite E].
Qed.

Lemma find_remove_other name other es :
  String.eqb other name = false ->
  find_entry other (remove_entry name es) = find_entry other es.
Proof.
  intros Hne. induction es as [|[n c] es IH]; simpl; [reflexivity|].
  destruct (String.eqb name n) eqn:E; simpl.
  - apply String.eqb_eq in E. subst n. now rewrite Hne.
  - now rewrite IH.
Qed.

Lemma has_name_find name es : has_name name es = false <-> find_entry name es = None.
Proof.
  induction es as [|[n c] es IH]; simpl; [tauto|].
  destruct (String.eqb name n); simpl; [split; discriminate | exact IH].
Qed.

Lemma has_name_set other name x es :
  has_name other (set_entry name x es) = String.eqb other name || has_name other es.
Proof.
  induction es as [|[n c] es IH]; simpl.
  - reflexivity.
  - destruct (String.eqb name n) eqn:E; simpl.
    + apply String.eqb_eq in E. subst n. now destruct (String.eqb other name).
    + rewrite IH. now destruct (String.eqb other name), (String.eqb other n).
Qed.

Lemma has_name_remove other name es :
  has_name other (remove_entry name es) = true -> has_name other es = true.
Proof.
  induction es as [|[n c] es IH]; simpl; [trivial|].
  destruct (String.eqb name n); simpl; intros H.
  - rewrite (IH H). apply orb_true_r.
  - apply orb_true_iff in H as [H|H]; [now rewrite H | rewrite (IH H); apply orb_true_r].
Qed.

Lemma distinct_set name x es :
  distinct_names es = true -> distinct_names (set_entry name x es) = true.
Proof.
  induction es as [|[n c] es IH]; simpl; [reflexivity|].
  intros H. apply andb_true_iff in H as [Hn Hd].
  destruct (String.eqb name n) eqn:E; simpl.
  - now rewrite Hn, Hd.
  - rewrite has_name_set, String.eqb_sym, E, (IH Hd). simpl. now rewrite Hn.
Qed.

Lemma distinct_remove name es :
  distinct_names es = true -> distinct_names (remove_entry name es) = true.
Proof.
  induction es as [|[n c] es IH]; simpl; [reflexivity|].
  intros H. apply andb_true_iff in H as [Hn Hd].
  destruct (String.eqb name n); simpl; [now apply IH|].
  rewrite (IH Hd), andb_true_r. apply negb_true_iff.
  destruct (has_name n (remove_entry name es)) eqn:R; [|reflexivity].
  apply has_name_remove in R. rewrite R in Hn. discriminate.
Qed.

Lemma forallb_set (f : string * node -> bool) name x es :
  (forall n, f (n, x) = true) -> forallb f es = true ->
  forallb f (set_entry name x es) = true.
Proof.
  intros Hx. induction es as [|[n c] es IH]; simpl.
  - now rewrite Hx.
  - intros H. apply andb_true_iff in H as [Hc Hes].
    destruct (String.eqb name n); simpl.
    + now rewrite Hx, Hes.
    + now rewrite Hc, IH.
Qed.

Lemma forallb_remove (f : string * node -> bool) name es :
  forallb f es = true -> forallb f (remove_entry name es) = true.
Proof.
  induction es as [|[n c] es IH]; simpl; [reflexivity|].
  intros H. apply andb_true_iff in H as [Hc Hes].
  destruct (String.eqb name n); simpl; [now apply IH | now rewrite Hc, IH].
Qed.

Lemma find_entry_In name es c : find_entry name es = Some c -> In (name, c) es.
Proof.
  induction es as [|[n d] es IH]; simpl; [discriminate|].
  destruct (String.eqb name n) eqn:E.
  - apply String.eqb_eq in E. intros [= ->]. subst. now left.
  - intros H. right. now apply IH.
Qed.

Lemma In_find_entry name es c :
  distinct_names es = true -> In (name, c) es -> find_entry name es = Some c.
Proof.
  induction es as [|[n d] es IH]; simpl; [contradiction|].
  intros H [Heq|Hin].
  - inversion Heq; subst. now rewrite String.eqb_refl.
  - apply andb_true_iff in H as [Hn Hd].
    destruct (String.eqb name n) eqn:E.
    + apply String.eqb_eq in E. subst n.
      specialize (IH Hd Hin). apply negb_true_iff in Hn.
      apply has_name_find in Hn. congruence.
    + now apply IH.
Qed.

(* ===================================================================== *)
(** * Looking up, binding and unbinding paths                             *)
(* ===================================================================== *)

Lemma status_obs t p : status t p = fst (obs t p).
Proof. unfold status, obs. now destruct (lookup t p) as [[]|]. Qed.

Lemma read_all_obs t p : read_all t p = snd (obs t p).
Proof. unfold read_all, obs. now destruct (lookup t p) as [[]|]. Qed.

Lemma lookup_app t p r :
  lookup t (p ++ r) = match lookup t p with Some n => lookup n r | None => None end.
Proof.
  revert t; induction p as [|a p IH]; intros t; simpl; [reflexivity|].
  destruct t; try reflexivity. destruct (find_entry a entries); [apply IH | reflexivity].
Qed.

Lemma lookup_prefix t p r : lookup t p = None -> lookup t (p ++ r) = None.
Proof. intros H. now rewrite lookup_app, H. Qed.

Lemma exists_at_prefix t p r : exists_at t (p ++ r) = true -> exists_at t p = true.
Proof.
  unfold exists_at, status. rewrite lookup_app.
  destruct (lookup t p) as [n|]; [now destruct n | discriminate].
Qed.

Lemma lookup_below_dir t p a r n :
  lookup t (p ++ a :: r) = Some n -> directory_at t p = true.
Proof.
  unfold directory_at, status. rewrite lookup_app.
  destruct (lookup t p) as [[]|]; simpl; try discriminate. reflexivity.
Qed.

Lemma put_lookup_below p : forall t x t' r,
  put t p x = Some t' -> lookup t' (p ++ r) = lookup x r.
Proof.
  induction p as [|a p IH]; intros t x t' r H; [discriminate|].
  destruct t as [|es|]; try discriminate. simpl in H.
  destruct p as [|b p].
  - inversion H; subst. simpl. now rewrite find_set_same.
  - destruct (find_entry a es) as [c|] eqn:F; try discriminate.
    destruct (put c (b :: p) x) as [c'|] eqn:P; try discriminate.
    inversion H; subst. change ((a :: b :: p) ++ r) with (a :: ((b :: p) ++ r)).
    cbn [lookup]. rewrite find_set_same. now apply (IH c).
Qed.

Lemma put_lookup_apart p : forall t x t' q,
  put t p x = Some t' -> apart q p -> lookup t' q = lookup t q.
Proof.
  induction p as [|a p IH]; intros t x t' q H [H1 H2]; [discriminate|].
  destruct t as [|es|]; try discriminate. simpl in H.
  destruct q as [|c q]; [discriminate|]. simpl in H1, H2.
  destruct (String.eqb c a) eqn:E.
  - apply String.eqb_eq in E. subst c. rewrite String.eqb_refl in H2. simpl in *.
    destruct p as [|b p]; [destruct q; discriminate|].
    destruct (find_entry a es) as [d|] eqn:F; try discriminate.
    destruct (put d (b :: p) x) as [d'|] eqn:P; try discriminate.
    inversion H; subst. cbn [lookup]. rewrite find_set_same; try rewrite F.
    apply (IH d x d' q P). now split.
  - assert (lookup t' (c :: q) = lookup (Dir es) (c :: q)); [|assumption].
    destruct p as [|b p].
    + inversion H; subst. cbn [lookup]. now rewrite find_set_other.
    + destruct (find_entry a es) as [d|]; try discriminate.
      destruct (put d (b :: p) x) as [d'|]; try discriminate.
      inversion H; subst. cbn [lookup]. now rewrite find_set_other.
Qed.

(** Off the path bound, nothing observable changes. *)
Lemma put_obs_off p : forall t x t' q,
  put t p x = Some t' -> under q p = false -> obs t' q = obs t q.
Proof.
  induction p as [|a p IH]; intros t x t' q H Hq; [discriminate|].
  destruct t as [|es|]; try discriminate. simpl in H.
  destruct q as [|c q].
  - destruct p as [|b p].
    + now inversion H.
    + destruct (find_entry a es) as [d|]; try discriminate.
      destruct (put d (b :: p) x) as [d'|]; try discriminate. now inversion H.
  - simpl in Hq. destruct (String.eqb c a) eqn:E.
    + apply String.eqb_eq in E. subst c. simpl in Hq.
      destruct p as [|b p]; [discriminate|].
      destruct (find_entry a es) as [d|] eqn:F; try discriminate.
      destruct (put d (b :: p) x) as [d'|] eqn:P; try discriminate.
      inversion H; subst. unfold obs. cbn [lookup]. rewrite find_set_same; try rewrite F.
      apply (IH d x d' q P Hq).
    + unfold obs. destruct p as [|b p].
      * inversion H; subst. cbn [lookup]. now rewrite find_set_other.
      * destruct (find_entry a es) as [d|]; try discriminate.
        destruct (put d (b :: p) x) as [d'|]; try discriminate.
        inversion H; subst. cbn [lookup]. now rewrite find_set_other.
Qed.

(** Binding a path fails exactly when its parent is not a directory. *)
Lemma put_None_iff p : forall t x,
  p <> [] -> (put t p x = None <-> directory_at t (removelast p) = false).
Proof.
  induction p as [|a p IH]; intros t x Hp; [contradiction|].
  destruct p as [|b p].
  - simpl. unfold directory_at, status. simpl.
    destruct t; simpl; split; intros; congruence.
  - change (removelast (a :: b :: p)) with (a :: removelast (b :: p)).
    assert (Hbp : b :: p <> []) by discriminate.
    destruct t as [|es|];
      try (unfold directory_at, status; simpl; split; reflexivity).
    change (put (Dir es) (a :: b :: p) x)
      with (match find_entry a es with
            | Some c => match put c (b :: p) x with
                        | Some c' => Some (Dir (set_entry a c' es))
                        | None => None
                        end
            | None => None
            end).
    unfold directory_at, status in *. cbn [lookup].
    destruct (find_entry a es) as [d|]; [|split; reflexivity].
    specialize (IH d x Hbp).
    destruct (put d (b :: p) x) eqn:P.
    + split; [discriminate|]. intros H. apply IH in H. discriminate.
    + split; [intros _; now apply IH | reflexivity].
Qed.

Lemma del_lookup_below p : forall t r, p <> [] -> lookup (del t p) (p ++ r) = None.
Proof.
  induction p as [|a p IH]; intros t r Hp; [contradiction|].
  change ((a :: p) ++ r) with (a :: (p ++ r)).
  destruct t as [|es|]; try reflexivity.
  destruct p as [|b p].
  - simpl. now rewrite find_remove_same.
  - simpl del. destruct (find_entry a es) as [d|] eqn:F.
    + cbn [lookup]. rewrite find_set_same. apply IH. discriminate.
    + cbn [lookup]. now rewrite F.
Qed.

Lemma del_lookup_apart p : forall t q, apart q p -> lookup (del t p) q = lookup t q.
Proof.
  induction p as [|a p IH]; intros t q [H1 H2]; [reflexivity|].
  destruct t as [|es|]; try reflexivity.
  destruct q as [|c q]; [discriminate|]. simpl in H1, H2.
  destruct (String.eqb c a) eqn:E.
  - apply String.eqb_eq in E. subst c. rewrite String.eqb_refl in H2. simpl in *.
    destruct p as [|b p]; [destruct q; discriminate|].
    simpl del. destruct (find_entry a es) as [d|] eqn:F;
      [|unfold obs; cbn [lookup]; now rewrite ?F].
    cbn [lookup]. rewrite find_set_same; try rewrite F. apply IH. now split.
  - destruct p as [|b p].
    + simpl. now rewrite find_remove_other.
    + simpl del. destruct (find_entry a es) as [d|]; [|reflexivity].
      cbn [lookup]. now rewrite find_set_other.
Qed.

Lemma del_obs_off p : forall t q, under q p = false -> obs (del t p) q = obs t q.
Proof.
  induction p as [|a p IH]; intros t q Hq; [reflexivity|].
  destruct t as [|es|]; try reflexivity.
  destruct q as [|c q].
  - destruct p as [|b p]; [reflexivity|].
    simpl del. now destruct (find_entry a es).
  - simpl in Hq. destruct (String.eqb c a) eqn:E.
    + apply String.eqb_eq in E. subst c. simpl in Hq.
      destruct p as [|b p]; [discriminate|].
      simpl del. destruct (find_entry a es) as [d|] eqn:F;
      [|unfold obs; cbn [lookup]; now rewrite ?F].
      unfold obs. cbn [lookup]. rewrite find_set_same; try rewrite F. apply (IH d q Hq).
    + unfold obs. destruct p as [|b p].
      * simpl. now rewrite find_remove_other.
      * simpl del. destruct (find_entry a es) as [d|]; [|reflexivity].
        cbn [lookup]. now rewrite find_set_other.
Qed.

Lemma del_obs_below p t q :
  p <> [] -> under q p = true -> obs (del t p) q = (not_found, []).
Proof.
  intros Hp Hq. apply under_iff in Hq as [r ->].
  unfold obs. now rewrite del_lookup_below.
Qed.

(* ===================================================================== *)
(** * Well-formed trees and the directory walk                            *)
(* ===================================================================== *)

Lemma wf_child es name c :
  wf (Dir es) = true -> find_entry name es = Some c -> wf c = true.
Proof.
  simpl. intros H F. apply andb_true_iff in H as [_ H].
  rewrite forallb_forall in H. apply (H (name, c)). now apply find_entry_In.
Qed.

Lemma wf_lookup p : forall t n, wf t = true -> lookup t p = Some n -> wf n = true.
Proof.
  induction p as [|a p IH]; intros t n W H; simpl in H.
  - now inversion H; subst.
  - destruct t as [|es|]; try discriminate.
    destruct (find_entry a es) as [c|] eqn:F; try discriminate.
    apply (IH c n); [now apply (wf_child es a) | exact H].
Qed.

Lemma wf_set es name x :
  wf (Dir es) = true -> wf x = true -> wf (Dir (set_entry name x es)) = true.
Proof.
  simpl. intros H Hx. apply andb_true_iff in H as [Hd Hf].
  rewrite distinct_set by assumption. simpl. now apply forallb_set.
Qed.

Lemma wf_put p : forall t x t',
  wf t = true -> wf x = true -> put t p x = Some t' -> wf t' = true.
Proof.
  induction p as [|a p IH]; intros t x t' W Wx H; [discriminate|].
  destruct t as [|es|]; try discriminate. simpl in H.
  destruct p as [|b p].
  - inversion H; subst. now apply wf_set.
  - destruct (find_entry a es) as [c|] eqn:F; try discriminate.
    destruct (put c (b :: p) x) as [c'|] eqn:P; try discriminate.
    inversion H; subst. apply wf_set; [assumption|].
    apply (IH c x c'); [now apply (wf_child es a) | assumption | assumption].
Qed.

Lemma wf_del p : forall t, wf t = true -> wf (del t p) = true.
Proof.
  induction p as [|a p IH]; intros t W; [assumption|].
  destruct t as [|es|]; try assumption.
  destruct p as [|b p].
  - simpl in *. apply andb_true_iff in W as [Hd Hf].
    now rewrite distinct_remove, forallb_remove.
  - simpl del. destruct (find_entry a es) as [c|] eqn:F; [|assumption].
    apply wf_set; [assumption|]. apply IH. now apply (wf_child es a).
Qed.

Lemma walk_cons_iff es name q :
  In (name :: q) (walk (Dir es)) <->
  exists c, In (name, c) es /\ (q = [] \/ In q (walk c)).
Proof.
  simpl. rewrite in_flat_map. split.
  - intros [[n c] [Hin [Hhd|Htl]]]; simpl in *.
    + inversion Hhd; subst. exists c. split; [assumption | now left].
    + apply in_map_iff in Htl as [q' [Heq Hq']]. inversion Heq; subst.
      exists c. split; [assumption | now right].
  - intros [c [Hin Hq]]. exists (name, c). split; [assumption|]. simpl.
    destruct Hq as [->|Hq]; [now left | right; now apply in_map].
Qed.

Lemma walk_not_nil t : ~ In [] (walk t).
Proof.
  destruct t as [|es|]; simpl; try tauto.
  rewrite in_flat_map. intros [[n c] [_ [H|H]]]; [discriminate|].
  apply in_map_iff in H as [q [Hq _]]. discriminate.
Qed.

(** The walk of a well-formed tree lists exactly its descendants. *)
Lemma In_walk q : forall t,
  wf t = true -> (In q (walk t) <-> q <> [] /\ lookup t q <> None).
Proof.
  induction q as [|a q IH]; intros t W.
  - split; [intros H; now apply walk_not_nil in H | intros [H _]; contradiction].
  - destruct t as [|es|]; try (simpl; split; [contradiction | intros [_ H]; congruence]).
    rewrite walk_cons_iff. cbn [lookup]. split.
    + intros [c [Hin Hq]]. split; [discriminate|].
      assert (Hd : distinct_names es = true)
        by (simpl in W; now apply andb_true_iff in W as [? _]).
      rewrite (In_find_entry a es c Hd Hin).
      destruct Hq as [->|Hq]; [discriminate|].
      apply IH in Hq; [tauto|]. apply (wf_child es a); [assumption|].
      now apply In_find_entry.
    + intros [_ H]. destruct (find_entry a es) as [c|] eqn:F; [|congruence].
      exists c. split; [now apply find_entry_In|].
      destruct q as [|b q]; [now left | right].
      apply IH; [now apply (wf_child es a)|]. split; [discriminate | assumption].
Qed.

(* ===================================================================== *)
(** * Loops whose body skips, mutates or throws                            *)
(* ===================================================================== *)

Section Loop.

Variable act : node -> path -> action.
Variable body : path -> M unit.
Hypothesis body_act :
  forall e st, body e st = apply_action (act (tree st) e) st.

Lemma for_each_tree es : forall st,
  tree (snd (for_each es body st)) = loop_tree act es (tree st).
Proof.
  induction es as [|e es IH]; intros st; simpl; [reflexivity|].
  unfold bind. rewrite body_act.
  destruct (act (tree st) e); simpl; try reflexivity; now rewrite IH.
Qed.

Lemma for_each_clock es : forall st, clock (snd (for_each es body st)) = clock st.
Proof.
  induction es as [|e es IH]; intros st; simpl; [reflexivity|].
  unfold bind. rewrite body_act.
  destruct (act (tree st) e); simpl; try reflexivity; now rewrite IH.
Qed.

Lemma quiet_for_each es : forall st,
  quiet act es (tree st) -> snd (for_each es body st) = st.
Proof.
  induction es as [|e es IH]; intros st Q; simpl; [reflexivity|].
  unfold bind. rewrite body_act. simpl in Q.
  destruct (act (tree st) e); simpl; [now apply IH | contradiction | reflexivity].
Qed.

Lemma completes_for_each es : forall st,
  completes act es (tree st) -> fst (for_each es body st) = Ok tt.
Proof.
  induction es as [|e es IH]; intros st C; simpl; [reflexivity|].
  unfold bind. rewrite body_act. simpl in C.
  destruct (act (tree st) e); simpl; [now apply IH | now apply IH | contradiction].
Qed.

(** An entry the loop skips stays skipped whatever the loop does next,
    and an entry it has dealt with is skipped from then on: then the loop
    is quiet act on the tree it leaves. *)
Variable dom : path -> Prop.
Hypothesis done_skips :
  forall t e t' line, dom e -> act t e = Mutate t' line -> act t' e = Skip.
Hypothesis skip_stable :
  forall t e g t' line,
    dom e -> dom g -> act t e = Skip -> act t g = Mutate t' line -> act t' e = Skip.

Lemma skip_loop_tree es : forall t e,
  dom e -> Forall dom es -> act t e = Skip -> act (loop_tree act es t) e = Skip.
Proof.
  induction es as [|g es IH]; intros t e De Des S; simpl; [assumption|].
  inversion Des; subst.
  destruct (act t g) eqn:G; [now apply IH | | assumption].
  apply IH; try assumption. now apply (skip_stable t e g t' line).
Qed.

Lemma loop_tree_quiet es : forall t,
  Forall dom es -> quiet act es (loop_tree act es t).
Proof.
  induction es as [|e es IH]; intros t Des; simpl; [exact I|].
  inversion Des; subst.
  destruct (act t e) eqn:E.
  - rewrite (skip_loop_tree es t e) by assumption. now apply IH.
  - rewrite (skip_loop_tree es t' e); try assumption; [now apply IH|].
    now apply (done_skips t e t' line).
  - now rewrite E.
Qed.

(** Quietness carries over to any tree on which the skipped entries are
    still skipped and the throwing ones still throw. *)
Lemma quiet_transfer es t t2 :
  quiet act es t ->
  (forall e, In e es -> act t e = Skip -> act t2 e = Skip) ->
  (forall e x, In e es -> act t e = Fail x -> exists y, act t2 e = Fail y) ->
  quiet act es t2.
Proof.
  induction es as [|e es IH]; intros Q HS HF; simpl; [exact I|].
  simpl in Q. destruct (act t e) eqn:E; try contradiction.
  - rewrite (HS e (or_introl eq_refl) E). apply IH; try assumption.
    + intros g Hg. apply HS. now right.
    + intros g x Hg. apply HF. now right.
  - destruct (HF e e0 (or_introl eq_refl) E) as [y ->]. exact I.
Qed.

End Loop.

(* ===================================================================== *)
(** * The reconcilers, entry by entry                                      *)
(* ===================================================================== *)

Lemma syncSubdirectories_entry_action source replica e st :
  syncSubdirectories_entry source replica e st
  = apply_action (mirror_action source replica (tree st) e) st.
Proof.
  unfold syncSubdirectories_entry, mirror_action, bind, is_directory, fs_exists.
  destruct (directory_at (tree st) e); [|reflexivity].
  unfold create_directory, exists_at.
  destruct (status (tree st) (replica ++ relative e source)) eqn:S; simpl;
    rewrite ?S; try reflexivity.
  unfold create_error.
  destruct (put (tree st) (replica ++ relative e source) (Dir [])); reflexivity.
Qed.

Lemma regular_at_lookup t p :
  regular_at t p = true -> lookup t p = Some (File (read_all t p)).
Proof.
  unfold regular_at, status, read_all.
  destruct (lookup t p) as [[]|]; simpl; intros H; try discriminate. reflexivity.
Qed.

Lemma computeFileHash_run p st :
  computeFileHash p st
  = if directory_at (tree st) p then (Throw read_failure, st)
    else (Ok (SHA256_hex (read_all (tree st) p)), st).
Proof.
  unfold computeFileHash, bind, read_stream, directory_at.
  destruct (status (tree st) p); reflexivity.
Qed.

Lemma computeFileHash_regular p st :
  regular_at (tree st) p = true ->
  computeFileHash p st = (Ok (SHA256_hex (read_all (tree st) p)), st).
Proof.
  intros R. rewrite computeFileHash_run. unfold regular_at in R. unfold directory_at.
  destruct (status (tree st) p); try discriminate; reflexivity.
Qed.

Lemma directory_at_exists t p : directory_at t p = true -> exists_at t p = true.
Proof. unfold directory_at, exists_at. destruct (status t p); try discriminate; reflexivity. Qed.

Lemma syncCopy_entry_action source replica e st :
  syncCopy_entry source replica e st
  = apply_action (copy_action source replica (tree st) e) st.
Proof.
  unfold syncCopy_entry, copy_action, bind, is_regular_file, fs_exists.
  destruct (regular_at (tree st) e) eqn:R; [|reflexivity].
  pose proof (computeFileHash_regular e st R) as He.
  pose proof (computeFileHash_run (replica ++ relative e source) st) as Hr.
  destruct (directory_at (tree st) (replica ++ relative e source)) eqn:D.
  - assert (Hsc :
      (if negb (exists_at (tree st) (replica ++ relative e source))
       then ret true
       else bind (computeFileHash e) (fun sourceHash =>
            bind (computeFileHash (replica ++ relative e source)) (fun replicaHash =>
            ret (negb (String.eqb sourceHash replicaHash))))) st
      = (Throw read_failure, st)).
    { rewrite (directory_at_exists _ _ D). unfold bind. cbn [negb].
      rewrite He, Hr. reflexivity. }
    unfold bind in Hsc. rewrite Hsc. reflexivity.
  - assert (Hsc :
      (if negb (exists_at (tree st) (replica ++ relative e source))
       then ret true
       else bind (computeFileHash e) (fun sourceHash =>
            bind (computeFileHash (replica ++ relative e source)) (fun replicaHash =>
            ret (negb (String.eqb sourceHash replicaHash))))) st
      = (Ok (should_copy (tree st) e (replica ++ relative e source)), st)).
    { unfold should_copy.
      destruct (exists_at (tree st) (replica ++ relative e source)); [|reflexivity].
      unfold bind. cbn [negb]. rewrite He, Hr. reflexivity. }
    unfold bind in Hsc. rewrite Hsc.
    destruct (should_copy (tree st) e (replica ++ relative e source)); [|reflexivity].
    unfold copy_file, copy_error. rewrite (regular_at_lookup _ _ R).
    destruct (status (tree st) (replica ++ relative e source)); try reflexivity;
      (destruct (path_eqb e (replica ++ relative e source)); [reflexivity|]);
      destruct (put (tree st) (replica ++ relative e source) (File (read_all (tree st) e)));
      reflexivity.
Qed.

Lemma syncDelete_entry_action e st :
  syncDelete_entry e st = apply_action (delete_action (tree st) e) st.
Proof. reflexivity. Qed.

Lemma obs_status t t' p q : obs t' q = obs t p -> status t' q = status t p.
Proof. intros H. now rewrite !status_obs, H. Qed.

Lemma obs_read_all t t' p q : obs t' q = obs t p -> read_all t' q = read_all t p.
Proof. intros H. now rewrite !read_all_obs, H. Qed.

Lemma obs_exists_at t t' p q : obs t' q = obs t p -> exists_at t' q = exists_at t p.
Proof. intros H. unfold exists_at. now rewrite (obs_status _ _ _ _ H). Qed.

Lemma obs_regular_at t t' p q : obs t' q = obs t p -> regular_at t' q = regular_at t p.
Proof. intros H. unfold regular_at. now rewrite (obs_status _ _ _ _ H). Qed.

Lemma obs_directory_at t t' p q : obs t' q = obs t p -> directory_at t' q = directory_at t p.
Proof. intros H. unfold directory_at. now rewrite (obs_status _ _ _ _ H). Qed.

Lemma lookup_obs t t' p q : lookup t' q = lookup t p -> obs t' q = obs t p.
Proof. unfold obs. now intros ->. Qed.

Lemma leaf_File data : leaf (File data).
Proof. now intros a r. Qed.

Lemma leaf_empty_Dir : leaf (Dir []).
Proof. now intros a r. Qed.

Lemma put_leaf_obs t p x t' q :
  put t p x = Some t' -> leaf x ->
  exists_at t p = false \/ regular_at t p = true ->
  q <> p -> obs t' q = obs t q.
Proof.
  intros P L Hp Hq. destruct (under q p) eqn:U.
  - apply under_iff in U as [r ->]. destruct r as [|a r].
    + now rewrite app_nil_r in Hq.
    + unfold obs. rewrite (put_lookup_below p t x t' _ P), L, lookup_app.
      unfold exists_at, regular_at, status in Hp.
      destruct (lookup t p) as [[]|]; simpl in *; try reflexivity;
        destruct Hp; discriminate.
  - now apply (put_obs_off p t x t').
Qed.

Lemma put_obs_at t p x t' : put t p x = Some t' -> obs t' p = obs_node (Some x).
Proof.
  intros P. unfold obs. rewrite <- (app_nil_r p) at 1.
  now rewrite (put_lookup_below p t x t' [] P).
Qed.

Lemma removelast_app_ne (p r : path) : r <> [] -> removelast (p ++ r) = p ++ removelast r.
Proof. intros H. now apply removelast_app. Qed.

Lemma lookup_parent_dir t p :
  p <> [] -> lookup t p <> None -> directory_at t (removelast p) = true.
Proof.
  intros Hp H. rewrite (app_removelast_last EmptyString Hp) in H.
  destruct (lookup t (removelast p ++ [last p EmptyString])) eqn:E; [|congruence].
  now apply lookup_below_dir in E.
Qed.

Lemma under_removelast (r s : path) :
  r <> [] -> under (removelast r) s = true -> under r s = true.
Proof.
  intros Hr H. apply under_iff in H as [x Hx]. apply under_iff.
  exists (x ++ [last r EmptyString]).
  rewrite app_assoc, <- Hx. now apply app_removelast_last.
Qed.

(* ===================================================================== *)
(** * Source and replica apart                                            *)
(* ===================================================================== *)

Section Apart.

Variables source replica : path.
Hypothesis roots_apart : apart source replica.

Lemma put_source t r x t' q :
  put t (replica ++ r) x = Some t' -> lookup t' (source ++ q) = lookup t (source ++ q).
Proof.
  intros P. apply (put_lookup_apart _ _ _ _ _ P). now apply apart_app.
Qed.

Lemma del_source t r q :
  lookup (del t (replica ++ r)) (source ++ q) = lookup t (source ++ q).
Proof. apply del_lookup_apart. now apply apart_app. Qed.

Lemma source_replica_neq r : path_eqb (source ++ r) (replica ++ r) = false.
Proof.
  destruct (path_eqb (source ++ r) (replica ++ r)) eqn:E; [|reflexivity].
  apply path_eqb_eq in E.
  destruct (apart_app source replica r r roots_apart) as [H _].
  rewrite E, under_refl in H. discriminate.
Qed.

(** ** When the Structure Mirror skips, throws *)

Lemma mirror_skip_iff t r :
  mirror_action source replica t (source ++ r) = Skip <->
  directory_at t (source ++ r) = false \/ exists_at t (replica ++ r) = true.
Proof.
  unfold mirror_action. rewrite relative_app.
  destruct (directory_at t (source ++ r)); [|tauto].
  destruct (exists_at t (replica ++ r)); [tauto|].
  destruct (put t (replica ++ r) (Dir [])); split; intros H;
    try discriminate; destruct H; discriminate.
Qed.

Lemma mirror_fail_iff t r :
  r <> [] ->
  ((exists x, mirror_action source replica t (source ++ r) = Fail x) <->
   directory_at t (source ++ r) = true /\ exists_at t (replica ++ r) = false
   /\ directory_at t (removelast (replica ++ r)) = false).
Proof.
  intros Hr. unfold mirror_action. rewrite relative_app.
  assert (Hp : replica ++ r <> []) by (destruct replica, r; simpl; congruence).
  pose proof (put_None_iff (replica ++ r) t (Dir []) Hp) as PN.
  destruct (directory_at t (source ++ r)).
  2:{ split; [intros [x H]; discriminate | intros [H _]; discriminate]. }
  destruct (exists_at t (replica ++ r)).
  1:{ split; [intros [x H]; discriminate | intros [_ [H _]]; discriminate]. }
  destruct (put t (replica ++ r) (Dir [])) eqn:P.
  - split; [intros [x H]; discriminate|]. intros [_ [_ H]].
    apply PN in H. discriminate.
  - split; [intros _ | intros _; eexists; reflexivity].
    repeat split. now apply PN.
Qed.

(** ** When the Copy Reconciler skips, throws *)

Lemma copy_skip_iff t r :
  copy_action source replica t (source ++ r) = Skip <->
  regular_at t (source ++ r) = false
  \/ acted_on t (source ++ r) (replica ++ r) = false.
Proof.
  unfold copy_action, acted_on. rewrite relative_app, source_replica_neq.
  destruct (regular_at t (source ++ r)); [|tauto].
  destruct (directory_at t (replica ++ r)); cbn [orb].
  { split; [discriminate | intros [H|H]; discriminate]. }
  destruct (should_copy t (source ++ r) (replica ++ r)); [|tauto].
  split; [|intros [H|H]; discriminate].
  destruct (status t (replica ++ r)); try discriminate;
    destruct (put t (replica ++ r) _); discriminate.
Qed.

Lemma copy_fail_iff t r :
  r <> [] ->
  ((exists x, copy_action source replica t (source ++ r) = Fail x) <->
   regular_at t (source ++ r) = true
   /\ acted_on t (source ++ r) (replica ++ r) = true
   /\ copy_blocked replica t r).
Proof.
  intros Hr. unfold copy_action, copy_blocked, acted_on.
  rewrite relative_app, source_replica_neq.
  assert (Hp : replica ++ r <> []) by (destruct replica, r; simpl; congruence).
  pose proof (put_None_iff (replica ++ r) t (File (read_all t (source ++ r))) Hp) as PN.
  destruct (regular_at t (source ++ r)).
  2:{ split; [intros [x H]; discriminate | intros [H _]; discriminate]. }
  destruct (directory_at t (replica ++ r)) eqn:D; cbn [orb].
  1:{ split; [intros _ | intros _; eexists; reflexivity].
      split; [reflexivity|]. split; [reflexivity|].
      unfold directory_at in D.
      destruct (status t (replica ++ r)); try discriminate; exact I. }
  destruct (should_copy t (source ++ r) (replica ++ r)).
  2:{ split; [intros [x H]; discriminate | intros [_ [H _]]; discriminate]. }
  destruct (status t (replica ++ r)) eqn:S.
  - destruct (put t (replica ++ r) _) eqn:P.
    + split; [intros [x H]; discriminate|]. intros [_ [_ H]].
      apply PN in H. discriminate.
    + split; [intros _ | intros _; eexists; reflexivity].
      repeat split. now apply PN.
  - destruct (put t (replica ++ r) _) eqn:P.
    + split; [intros [x H]; discriminate | intros [_ [_ []]]].
    + exfalso. apply (put_None_iff _ _ _ Hp) in P.
      rewrite lookup_parent_dir in P; [discriminate | assumption |].
      unfold status in S. destruct (lookup t (replica ++ r)); [discriminate | discriminate].
  - split; [intros _; now repeat split | intros _; eexists; reflexivity].
  - split; [intros _; now repeat split | intros _; eexists; reflexivity].
Qed.

Lemma should_copy_obs t t' a b :
  obs t' a = obs t a -> obs t' b = obs t b -> should_copy t' a b = should_copy t a b.
Proof.
  intros Ha Hb. unfold should_copy.
  now rewrite (obs_exists_at _ _ _ _ Hb), (obs_read_all _ _ _ _ Ha), (obs_read_all _ _ _ _ Hb).
Qed.

Lemma acted_on_obs t t' a b :
  obs t' a = obs t a -> obs t' b = obs t b -> acted_on t' a b = acted_on t a b.
Proof.
  intros Ha Hb. unfold acted_on.
  now rewrite (obs_directory_at _ _ _ _ Hb), (should_copy_obs _ _ _ _ Ha Hb).
Qed.

Lemma mirror_skip_footprint t t' r :
  same_footprint source replica t t' r ->
  mirror_action source replica t (source ++ r) = Skip ->
  mirror_action source replica t' (source ++ r) = Skip.
Proof.
  intros (Hs & Hr & _). rewrite !mirror_skip_iff.
  now rewrite (obs_directory_at _ _ _ _ Hs), (obs_exists_at _ _ _ _ Hr).
Qed.

Lemma mirror_fail_footprint t t' r x :
  r <> [] -> same_footprint source replica t t' r ->
  mirror_action source replica t (source ++ r) = Fail x ->
  exists y, mirror_action source replica t' (source ++ r) = Fail y.
Proof.
  intros Hne (Hs & Hr & Hp) H. apply mirror_fail_iff; [assumption|].
  rewrite (obs_directory_at _ _ _ _ Hs), (obs_exists_at _ _ _ _ Hr),
    (obs_directory_at _ _ _ _ Hp).
  apply mirror_fail_iff; [assumption | now exists x].
Qed.

Lemma copy_skip_footprint t t' r :
  same_footprint source replica t t' r ->
  copy_action source replica t (source ++ r) = Skip ->
  copy_action source replica t' (source ++ r) = Skip.
Proof.
  intros (Hs & Hr & _). rewrite !copy_skip_iff.
  now rewrite (obs_regular_at _ _ _ _ Hs), (acted_on_obs _ _ _ _ Hs Hr).
Qed.

Lemma copy_fail_footprint t t' r x :
  r <> [] -> same_footprint source replica t t' r ->
  copy_action source replica t (source ++ r) = Fail x ->
  exists y, copy_action source replica t' (source ++ r) = Fail y.
Proof.
  intros Hne (Hs & Hr & Hp) H. apply copy_fail_iff; [assumption|].
  unfold copy_blocked.
  rewrite (obs_regular_at _ _ _ _ Hs), (acted_on_obs _ _ _ _ Hs Hr),
    (obs_status _ _ _ _ Hr), (obs_directory_at _ _ _ _ Hp).
  apply copy_fail_iff; [assumption | now exists x].
Qed.

End Apart.

Lemma directory_not_regular t p : directory_at t p = true -> regular_at t p = true -> False.
Proof. unfold directory_at, regular_at. destruct (status t p); discriminate. Qed.

Lemma put_exists_mono t p x t' q :
  put t p x = Some t' -> leaf x ->
  exists_at t p = false \/ regular_at t p = true ->
  exists_at t q = true -> exists_at t' q = true.
Proof.
  intros P L Hp Hq. destruct (list_eq_dec string_dec q p) as [->|Hne].
  - unfold exists_at. rewrite status_obs, (put_obs_at _ _ _ _ P). now destruct x.
  - now rewrite (obs_exists_at _ _ _ _ (put_leaf_obs _ _ _ _ _ P L Hp Hne)).
Qed.

Section Stability.

Variables source replica : path.
Hypothesis roots_apart : apart source replica.

Let mirror := mirror_action source replica.
Let copy := copy_action source replica.

Lemma mirror_mutate_inv t r t' line :
  mirror t (source ++ r) = Mutate t' line ->
  directory_at t (source ++ r) = true
  /\ exists_at t (replica ++ r) = false
  /\ put t (replica ++ r) (Dir []) = Some t'.
Proof.
  unfold mirror, mirror_action. rewrite relative_app.
  destruct (directory_at t (source ++ r)); [|discriminate].
  destruct (exists_at t (replica ++ r)); [discriminate|].
  destruct (put t (replica ++ r) (Dir [])); [|discriminate].
  intros [= <- _]. now repeat split.
Qed.

Lemma copy_mutate_inv t r t' line :
  copy t (source ++ r) = Mutate t' line ->
  regular_at t (source ++ r) = true
  /\ (exists_at t (replica ++ r) = false \/ regular_at t (replica ++ r) = true)
  /\ put t (replica ++ r) (File (read_all t (source ++ r))) = Some t'.
Proof.
  unfold copy, copy_action. rewrite relative_app, (source_replica_neq _ _ roots_apart).
  destruct (regular_at t (source ++ r)); [|discriminate].
  destruct (directory_at t (replica ++ r)); [discriminate|].
  destruct (should_copy t (source ++ r) (replica ++ r)); [|discriminate].
  unfold exists_at, regular_at.
  destruct (status t (replica ++ r)); try discriminate;
    (destruct (put t (replica ++ r) _); [|discriminate]);
    intros [= <- _]; repeat split; auto.
Qed.

Lemma put_source_obs t r x t' q :
  put t (replica ++ r) x = Some t' -> obs t' (source ++ q) = obs t (source ++ q).
Proof.
  intros P. apply lookup_obs. now apply (put_source source replica roots_apart t r x).
Qed.

Lemma del_source_obs t r q :
  obs (del t (replica ++ r)) (source ++ q) = obs t (source ++ q).
Proof. apply lookup_obs. now apply del_source. Qed.

(** ** The Structure Mirror on its own output *)

Lemma mirror_skip_mono t t' r :
  obs t' (source ++ r) = obs t (source ++ r) ->
  (exists_at t (replica ++ r) = true -> exists_at t' (replica ++ r) = true) ->
  mirror t (source ++ r) = Skip -> mirror t' (source ++ r) = Skip.
Proof.
  intros Hs Hx. unfold mirror. rewrite !mirror_skip_iff.
  rewrite (obs_directory_at _ _ _ _ Hs). intros [H|H]; [now left | right; auto].
Qed.

Lemma mirror_done_skips t e t' line :
  source_entry source e -> mirror t e = Mutate t' line -> mirror t' e = Skip.
Proof.
  intros [r [-> Hr]] H. apply mirror_mutate_inv in H as (_ & _ & P).
  apply mirror_skip_iff. right.
  unfold exists_at. now rewrite status_obs, (put_obs_at _ _ _ _ P).
Qed.

Lemma mirror_skip_stable t e g t' line :
  source_entry source e -> source_entry source g ->
  mirror t e = Skip -> mirror t g = Mutate t' line -> mirror t' e = Skip.
Proof.
  intros [r [-> Hr]] [r' [-> Hr']] S H.
  apply mirror_mutate_inv in H as (_ & X & P).
  apply (mirror_skip_mono t); try assumption.
  - now apply (put_source_obs t r' (Dir [])).
  - apply (put_exists_mono _ _ _ _ _ P leaf_empty_Dir). now left.
Qed.

(** ** The Copy Reconciler on its own output *)

Lemma copy_skip_obs t t' r :
  obs t' (source ++ r) = obs t (source ++ r) ->
  obs t' (replica ++ r) = obs t (replica ++ r) ->
  copy t (source ++ r) = Skip -> copy t' (source ++ r) = Skip.
Proof.
  intros Hs Hr. unfold copy. rewrite !(copy_skip_iff _ _ roots_apart).
  now rewrite (obs_regular_at _ _ _ _ Hs), (acted_on_obs _ _ _ _ Hs Hr).
Qed.

Lemma copy_done_skips t e t' line :
  source_entry source e -> copy t e = Mutate t' line -> copy t' e = Skip.
Proof.
  intros [r [-> Hr]] H. apply copy_mutate_inv in H as (R & _ & P).
  apply (copy_skip_iff _ _ roots_apart). right. unfold acted_on, should_copy.
  pose proof (put_obs_at _ _ _ _ P) as Hat. simpl in Hat.
  pose proof (put_source_obs t r _ t' r P) as Hsrc.
  unfold exists_at, directory_at. rewrite status_obs, Hat. cbn [fst negb orb].
  rewrite (read_all_obs t' (replica ++ r)), Hat. cbn [snd].
  rewrite (obs_read_all _ _ _ _ Hsrc), String.eqb_refl. reflexivity.
Qed.

Lemma copy_skip_stable t e g t' line :
  source_entry source e -> source_entry source g ->
  copy t e = Skip -> copy t g = Mutate t' line -> copy t' e = Skip.
Proof.
  intros [r [-> Hr]] [r' [-> Hr']] S H.
  destruct (list_eq_dec string_dec r r') as [->|Hne]; [congruence|].
  apply copy_mutate_inv in H as (_ & X & P).
  apply (copy_skip_obs t); try assumption.
  - exact (put_source_obs t r' _ t' r P).
  - apply (put_leaf_obs _ _ _ _ _ P (leaf_File _) X).
    intros E. apply app_inv_head in E. contradiction.
Qed.

(** ** The Structure Mirror after a copy *)

Lemma mirror_skip_after_copy t r g t' line :
  source_entry source g ->
  mirror t (source ++ r) = Skip -> copy t g = Mutate t' line ->
  mirror t' (source ++ r) = Skip.
Proof.
  intros [r' [-> Hr']] S H. apply copy_mutate_inv in H as (_ & X & P).
  apply (mirror_skip_mono t); try assumption.
  - exact (put_source_obs t r' _ t' r P).
  - now apply (put_exists_mono _ _ _ _ _ P (leaf_File _)).
Qed.

Lemma mirror_fail_after_copy t r x g t' line :
  r <> [] -> source_entry source g ->
  mirror t (source ++ r) = Fail x -> copy t g = Mutate t' line ->
  exists y, mirror t' (source ++ r) = Fail y.
Proof.
  intros Hr [r' [-> Hr']] F H. apply copy_mutate_inv in H as (R & X & P).
  assert (F' : exists x, mirror t (source ++ r) = Fail x) by now exists x.
  apply (mirror_fail_iff _ _ roots_apart t r Hr) in F' as (D & E & PD).
  apply (mirror_fail_iff _ _ roots_apart t' r Hr).
  rewrite (obs_directory_at _ _ _ _ (put_source_obs t r' _ t' r P)).
  split; [assumption|]. split.
  - rewrite (obs_exists_at t t' (replica ++ r) (replica ++ r)); [assumption|].
    apply (put_leaf_obs _ _ _ _ _ P (leaf_File _) X).
    intros Eq. apply app_inv_head in Eq. subst r'.
    exact (directory_not_regular _ _ D R).
  - destruct (list_eq_dec string_dec (removelast (replica ++ r)) (replica ++ r'))
      as [Eq|Hne].
    + rewrite Eq. unfold directory_at.
      now rewrite status_obs, (put_obs_at _ _ _ _ P).
    + now rewrite (obs_directory_at _ _ _ _
                     (put_leaf_obs _ _ _ _ _ P (leaf_File _) X Hne)).
Qed.

(** ** Removing a stale replica entry *)

Lemma del_footprint t s r :
  s <> [] -> r <> [] ->
  exists_at t (source ++ s) = false -> exists_at t (source ++ r) = true ->
  same_footprint source replica t (del t (replica ++ s)) r.
Proof.
  intros Hs Hr St Ex.
  assert (U : under r s = false).
  { destruct (under r s) eqn:U; [|reflexivity].
    apply under_iff in U as [x ->]. rewrite app_assoc in Ex.
    apply exists_at_prefix in Ex. congruence. }
  repeat split.
  - apply del_source_obs.
  - apply del_obs_off. now rewrite under_app_cancel.
  - apply del_obs_off. rewrite removelast_app_ne, under_app_cancel by assumption.
    destruct (under (removelast r) s) eqn:U'; [|reflexivity].
    apply under_removelast in U'; congruence.
Qed.

End Stability.

(* ===================================================================== *)
(** * A reconciler as a whole                                              *)
(* ===================================================================== *)

Lemma recursive_directory_iterator_entries root st :
  recursive_directory_iterator root st
  = match entries_of (tree st) root with
    | Some es => (Ok es, st)
    | None => (Throw (iterator_error root), st)
    end.
Proof.
  unfold recursive_directory_iterator, entries_of, iterator_error.
  now destruct (lookup (tree st) root) as [[]|].
Qed.

Lemma no_mutation_refl st : no_mutation st st.
Proof.
  repeat split. exists []. split; [now rewrite app_nil_r | constructor].
Qed.

Lemma no_mutation_trans st1 st2 st3 :
  no_mutation st1 st2 -> no_mutation st2 st3 -> no_mutation st1 st3.
Proof.
  intros (T1 & F1 & C1 & e1 & L1 & E1) (T2 & F2 & C2 & e2 & L2 & E2).
  repeat split; try congruence.
  exists (e1 ++ e2). split; [now rewrite L2, L1, app_assoc | now apply Forall_app].
Qed.

Lemma log_exception_no_mutation e st :
  fst (log_exception e st) = Ok tt /\ no_mutation st (snd (log_exception e st)).
Proof.
  destruct e; simpl; (split; [reflexivity|]); repeat split;
    eexists; (split; [reflexivity|]); repeat constructor.
Qed.

Section Reconcile.

Variable act : node -> path -> action.
Variable body : path -> M unit.
Hypothesis body_act :
  forall e st, body e st = apply_action (act (tree st) e) st.

Variable root : path.
Variable select : node -> list path -> list path.

Lemma reconcile_ok st : fst (reconcile body root select st) = Ok tt.
Proof.
  unfold reconcile, try_catch, bind.
  rewrite recursive_directory_iterator_entries.
  destruct (entries_of (tree st) root) as [es|].
  - destruct (for_each (select (tree st) es) body st) as [[[]|e] st'] eqn:E;
      [reflexivity | apply log_exception_no_mutation].
  - apply log_exception_no_mutation.
Qed.

Lemma log_exception_tree e st : tree (snd (log_exception e st)) = tree st.
Proof. now destruct e. Qed.

Lemma reconcile_run_tree st : tree (snd (reconcile body root select st)) = reconcile_tree act root select (tree st).
Proof.
  unfold reconcile, reconcile_tree, try_catch, bind.
  rewrite recursive_directory_iterator_entries.
  destruct (entries_of (tree st) root) as [es|].
  - rewrite <- (for_each_tree act body body_act).
    destruct (for_each (select (tree st) es) body st) as [[[]|e] st'];
      [reflexivity | apply log_exception_tree].
  - apply log_exception_tree.
Qed.

Lemma reconcile_clock st : clock (snd (reconcile body root select st)) = clock st.
Proof.
  unfold reconcile, try_catch, bind.
  rewrite recursive_directory_iterator_entries.
  destruct (entries_of (tree st) root) as [es|]; [|now destruct (iterator_error root)].
  pose proof (for_each_clock act body body_act (select (tree st) es) st) as C.
  destruct (for_each (select (tree st) es) body st) as [[[]|e] st'];
    [exact C | destruct e; exact C].
Qed.

Lemma reconcile_quiet st :
  (forall es, entries_of (tree st) root = Some es ->
              quiet act (select (tree st) es) (tree st)) ->
  no_mutation st (snd (reconcile body root select st)).
Proof.
  intros Q. unfold reconcile, try_catch, bind.
  rewrite recursive_directory_iterator_entries.
  destruct (entries_of (tree st) root) as [es|].
  - pose proof (quiet_for_each act body body_act _ st (Q es eq_refl)) as E.
    destruct (for_each (select (tree st) es) body st) as [[[]|e] st']; simpl in E; subst st'.
    + apply no_mutation_refl.
    + apply log_exception_no_mutation.
  - apply log_exception_no_mutation.
Qed.

End Reconcile.

Lemma syncSubdirectories_reconcile source replica st :
  syncSubdirectories source replica st
  = reconcile (syncSubdirectories_entry source replica) source all_entries st.
Proof.
  unfold syncSubdirectories, reconcile, try_catch, bind.
  now destruct (recursive_directory_iterator source st) as [[es|e] st'].
Qed.

Lemma syncCopy_reconcile source replica st :
  syncCopy source replica st
  = reconcile (syncCopy_entry source replica) source all_entries st.
Proof.
  unfold syncCopy, reconcile, try_catch, bind.
  now destruct (recursive_directory_iterator source st) as [[es|e] st'].
Qed.

Lemma syncDelete_reconcile source replica st :
  syncDelete source replica st
  = reconcile syncDelete_entry replica (stale_in source replica) st.
Proof. reflexivity. Qed.

Lemma filter_nil_all {A} (f : A -> bool) (l : list A) :
  (forall x, In x l -> f x = false) -> filter f l = [].
Proof.
  induction l as [|x l IH]; intros H; simpl; [reflexivity|].
  rewrite (H x (or_introl eq_refl)). apply IH. intros y Hy. apply H. now right.
Qed.

Lemma loop_tree_invariant (act : node -> path -> action) (P : node -> Prop) es :
  (forall t e t' line, In e es -> P t -> act t e = Mutate t' line -> P t') ->
  forall t, P t -> P (loop_tree act es t).
Proof.
  induction es as [|e es IH]; intros Step t Pt; simpl; [assumption|].
  destruct (act t e) eqn:E; try assumption.
  - apply IH; [|assumption]. intros t0 g t1 l Hg. apply Step. now right.
  - apply IH.
    + intros t0 g t1 l Hg. apply Step. now right.
    + apply (Step t e t' line); [now left | assumption | assumption].
Qed.

Lemma del_exists_false t p q : exists_at t q = false -> exists_at (del t p) q = false.
Proof.
  intros H. destruct p as [|a p]; [assumption|].
  destruct (under q (a :: p)) eqn:U.
  - unfold exists_at. rewrite status_obs, del_obs_below; [reflexivity | discriminate | assumption].
  - now rewrite (obs_exists_at _ _ _ _ (del_obs_off (a :: p) t q U)).
Qed.

Lemma delete_loop_exists_false L : forall t q,
  exists_at t q = false -> exists_at (loop_tree delete_action L t) q = false.
Proof.
  induction L as [|p L IH]; intros t q H; simpl; [assumption|].
  apply IH. now apply del_exists_false.
Qed.

Lemma delete_loop_removed L : forall t p,
  In p L -> p <> [] -> exists_at (loop_tree delete_action L t) p = false.
Proof.
  induction L as [|e L IH]; intros t p Hin Hp; [contradiction|]. simpl.
  destruct Hin as [->|Hin]; [|now apply IH].
  apply delete_loop_exists_false.
  unfold exists_at. rewrite status_obs, del_obs_below; [reflexivity | assumption | apply under_refl].
Qed.

Lemma delete_loop_wf L : forall t, wf t = true -> wf (loop_tree delete_action L t) = true.
Proof.
  induction L as [|e L IH]; intros t W; simpl; [assumption|].
  apply IH. now apply wf_del.
Qed.

Section Prune.

Variables source replica : path.
Hypothesis roots_apart : apart source replica.

Lemma stale_path_del t s p :
  stale_path source replica t p -> stale_path source replica (del t (replica ++ s)) p.
Proof.
  intros (s' & -> & Hs' & St). exists s'. repeat split; try assumption.
  now rewrite (obs_exists_at _ _ _ _ (del_source_obs source replica roots_apart t s s')).
Qed.

Lemma delete_loop_invariant (P : node -> Prop) :
  (forall t s, s <> [] -> exists_at t (source ++ s) = false ->
               P t -> P (del t (replica ++ s))) ->
  forall L t, Forall (stale_path source replica t) L -> P t -> P (loop_tree delete_action L t).
Proof.
  intros Step. induction L as [|p L IH]; intros t HL Pt; simpl; [assumption|].
  inversion HL as [|? ? Hp HL']; subst.
  destruct Hp as (s & -> & Hs & St).
  apply IH.
  - eapply Forall_impl; [|exact HL']. intros p. apply stale_path_del.
  - now apply Step.
Qed.

Lemma entries_of_In t root es p :
  wf t = true -> entries_of t root = Some es ->
  (In p es <-> exists s, p = root ++ s /\ s <> [] /\ exists_at t (root ++ s) = true).
Proof.
  unfold entries_of. intros W E.
  destruct (lookup t root) as [[|ds|]|] eqn:L; try discriminate.
  inversion E; subst es. rewrite in_map_iff.
  assert (Wd : wf (Dir ds) = true) by now apply (wf_lookup root t).
  assert (Hx : forall s, exists_at t (root ++ s) = true <-> lookup (Dir ds) s <> None).
  { intros s. unfold exists_at, status. rewrite lookup_app, L.
    destruct (lookup (Dir ds) s) as [[]|]; simpl; split; congruence. }
  split.
  - intros (s & <- & Hs). apply (In_walk s _ Wd) in Hs as [Hne Hl].
    exists s. repeat split; [assumption | now apply Hx].
  - intros (s & -> & Hne & Hl). exists s. split; [reflexivity|].
    apply (In_walk s _ Wd). split; [assumption | now apply Hx].
Qed.

Lemma stale_in_stale t es :
  wf t = true -> entries_of t replica = Some es ->
  Forall (stale_path source replica t) (stale_in source replica t es).
Proof.
  intros W E. apply Forall_forall. intros p Hp.
  apply filter_In in Hp as [Hin St].
  apply (entries_of_In t replica es p W E) in Hin as (s & -> & Hs & _).
  rewrite relative_app in St. apply negb_true_iff in St.
  exists s. now repeat split.
Qed.

Lemma delete_loop_source L : forall t q,
  Forall (stale_path source replica t) L ->
  lookup (loop_tree delete_action L t) (source ++ q) = lookup t (source ++ q).
Proof.
  intros t q HL.
  apply (delete_loop_invariant
           (fun t' => lookup t' (source ++ q) = lookup t (source ++ q)));
    [|assumption | reflexivity].
  intros t0 s _ _ H. now rewrite (del_source source replica roots_apart).
Qed.

(** After the Prune Reconciler nothing stale is left. *)
Lemma prune_leaves_no_stale t es' :
  wf t = true ->
  entries_of (prune_tree source replica t) replica = Some es' ->
  stale_in source replica (prune_tree source replica t) es' = [].
Proof.
  intros W E'. unfold prune_tree, reconcile_tree in *.
  destruct (entries_of t replica) as [es|] eqn:E.
  2:{ rewrite E in E'. discriminate. }
  set (L := stale_in source replica t es) in *.
  set (t1 := loop_tree delete_action L t) in *.
  assert (HL : Forall (stale_path source replica t) L) by now apply stale_in_stale.
  assert (W1 : wf t1 = true) by now apply delete_loop_wf.
  apply filter_nil_all. intros p Hp.
  apply (entries_of_In t1 replica es' p W1 E') in Hp as (s & -> & Hs & X1).
  rewrite relative_app. apply negb_false_iff.
  unfold exists_at, status. unfold t1. rewrite (delete_loop_source L t s HL).
  fold (status t (source ++ s)). fold (exists_at t (source ++ s)).
  destruct (exists_at t (source ++ s)) eqn:Xs; [reflexivity|].
  assert (X0 : exists_at t (replica ++ s) = true).
  { destruct (exists_at t (replica ++ s)) eqn:X0; [reflexivity|].
    apply (delete_loop_exists_false L) in X0. fold t1 in X0. congruence. }
  assert (Hin : In (replica ++ s) L).
  { apply filter_In. split.
    - apply (entries_of_In t replica es _ W E). exists s. now repeat split.
    - rewrite relative_app, Xs. reflexivity. }
  apply (delete_loop_removed L t) in Hin.
  + fold t1 in Hin. congruence.
  + destruct replica, s; simpl; congruence.
Qed.

End Prune.

(* ===================================================================== *)
(** * One cycle                                                            *)
(* ===================================================================== *)

Lemma bind_ok {A B} (m : M A) (k : A -> M B) st a :
  fst (m st) = Ok a -> bind m k st = k a (snd (m st)).
Proof. unfold bind. destruct (m st) as [[x|e] st']; simpl; congruence. Qed.

Section Cycle.

Variables source replica : path.

Let mirrorM := reconcile (syncSubdirectories_entry source replica) source all_entries.
Let copyM := reconcile (syncCopy_entry source replica) source all_entries.
Let pruneM := reconcile syncDelete_entry replica (stale_in source replica).

Lemma reconcilers_unfold st :
  reconcilers source replica st = pruneM (snd (copyM (snd (mirrorM st)))).
Proof.
  unfold reconcilers, pruneM, copyM, mirrorM.
  rewrite (bind_ok _ _ st tt)
    by (rewrite syncSubdirectories_reconcile; apply reconcile_ok).
  rewrite (bind_ok _ _ _ tt)
    by (rewrite syncCopy_reconcile; apply reconcile_ok).
  now rewrite syncSubdirectories_reconcile, syncCopy_reconcile, syncDelete_reconcile.
Qed.

Lemma reconcilers_ok st : fst (reconcilers source replica st) = Ok tt.
Proof. rewrite reconcilers_unfold. apply reconcile_ok. Qed.

Lemma reconcilers_tree st :
  tree (snd (reconcilers source replica st))
  = prune_tree source replica (copy_tree source replica (mirror_tree source replica (tree st))).
Proof.
  rewrite reconcilers_unfold. unfold pruneM, copyM, mirrorM, prune_tree, copy_tree, mirror_tree.
  rewrite (reconcile_run_tree delete_action _ syncDelete_entry_action).
  rewrite (reconcile_run_tree _ _ (syncCopy_entry_action source replica)).
  now rewrite (reconcile_run_tree _ _ (syncSubdirectories_entry_action source replica)).
Qed.

Lemma reconcilers_clock st : clock (snd (reconcilers source replica st)) = clock st.
Proof.
  rewrite reconcilers_unfold. unfold pruneM, copyM, mirrorM.
  rewrite (reconcile_clock delete_action _ syncDelete_entry_action).
  rewrite (reconcile_clock _ _ (syncCopy_entry_action source replica)).
  now rewrite (reconcile_clock _ _ (syncSubdirectories_entry_action source replica)).
Qed.

Lemma reconcilers_settled st :
  settled source replica (tree st) -> no_mutation st (snd (reconcilers source replica st)).
Proof.
  intros (Qm & Qc & Qd). rewrite reconcilers_unfold.
  assert (N1 : no_mutation st (snd (mirrorM st))).
  { apply (reconcile_quiet _ _ (syncSubdirectories_entry_action source replica)).
    exact Qm. }
  assert (N2 : no_mutation (snd (mirrorM st)) (snd (copyM (snd (mirrorM st))))).
  { apply (reconcile_quiet _ _ (syncCopy_entry_action source replica)).
    destruct N1 as [-> _]. exact Qc. }
  pose proof (no_mutation_trans _ _ _ N1 N2) as N12.
  apply (no_mutation_trans _ _ _ N12).
  apply (reconcile_quiet _ _ syncDelete_entry_action).
  destruct N12 as [-> _]. intros es E. now rewrite (Qd es E).
Qed.

(** ** [syncFolders] in terms of the above *)

Lemma create_replica_run st :
  status (tree st) replica = not_found ->
  (create_directory replica ;;
   logOperation (CreatedReplicaDirectory replica) ;;
   set_changesMade true) st
  = match put (tree st) replica (Dir []) with
    | Some t0 =>
        (Ok tt, State t0 true (log st ++ [CreatedReplicaDirectory replica]) (clock st))
    | None => (Throw (create_error replica), st)
    end.
Proof.
  intros S. unfold bind, create_directory, create_error. rewrite S.
  now destruct (put (tree st) replica (Dir [])).
Qed.

Lemma syncFolders_shape st :
  syncFolders source replica st
  = try_catch
      (present <- fs_exists replica ;;
       (if negb present then
          create_directory replica ;;
          logOperation (CreatedReplicaDirectory replica) ;;
          set_changesMade true
        else ret tt) ;;
       reconcilers source replica)
      log_exception (reset_flag st).
Proof. reflexivity. Qed.

Lemma try_catch_ok (m : M unit) h st :
  fst (m st) = Ok tt -> try_catch m h st = m st.
Proof.
  unfold try_catch. destruct (m st) as [[[]|e] st']; simpl; [reflexivity | discriminate].
Qed.

Lemma syncFolders_unfold st :
  syncFolders source replica st
  = if exists_at (tree st) replica then reconcilers source replica (reset_flag st)
    else match put (tree st) replica (Dir []) with
         | Some t0 =>
             reconcilers source replica (State t0 true (log st ++ [CreatedReplicaDirectory replica]) (clock st))
         | None => log_exception (create_error replica) (reset_flag st)
         end.
Proof.
  rewrite syncFolders_shape.
  destruct (exists_at (tree st) replica) eqn:X.
  - rewrite try_catch_ok.
    + unfold bind at 1, fs_exists. change (tree (reset_flag st)) with (tree st).
      rewrite X. reflexivity.
    + unfold bind at 1, fs_exists. change (tree (reset_flag st)) with (tree st).
      rewrite X. cbn [negb]. unfold bind at 1, ret. apply reconcilers_ok.
  - assert (S : status (tree (reset_flag st)) replica = not_found).
    { unfold exists_at in X. simpl. now destruct (status (tree st) replica). }
    pose proof (create_replica_run (reset_flag st) S) as R.
    change (tree (reset_flag st)) with (tree st) in R.
    change (log (reset_flag st)) with (log st) in R.
    change (clock (reset_flag st)) with (clock st) in R.
    destruct (put (tree st) replica (Dir [])) as [t0|].
    + rewrite try_catch_ok.
      * unfold bind at 1, fs_exists. change (tree (reset_flag st)) with (tree st).
        rewrite X. cbn [negb]. unfold bind at 1. rewrite R. reflexivity.
      * unfold bind at 1, fs_exists. change (tree (reset_flag st)) with (tree st).
        rewrite X. cbn [negb]. unfold bind at 1. rewrite R. apply reconcilers_ok.
    + unfold try_catch. unfold bind at 1, fs_exists.
      change (tree (reset_flag st)) with (tree st).
      rewrite X. cbn [negb]. unfold bind at 1. rewrite R. reflexivity.
Qed.

Lemma syncFolders_ok st : fst (syncFolders source replica st) = Ok tt.
Proof.
  rewrite syncFolders_unfold.
  destruct (exists_at (tree st) replica); [apply reconcilers_ok|].
  destruct (put (tree st) replica (Dir [])); [apply reconcilers_ok|].
  apply log_exception_no_mutation.
Qed.

Lemma syncFolders_tree st :
  tree (snd (syncFolders source replica st)) = cycle_tree source replica (tree st).
Proof.
  rewrite syncFolders_unfold. unfold cycle_tree, ensure_replica.
  destruct (exists_at (tree st) replica); [exact (reconcilers_tree (reset_flag st))|].
  destruct (put (tree st) replica (Dir [])) as [t0|]; [|reflexivity].
  exact (reconcilers_tree (State t0 true _ _)).
Qed.

Lemma syncFolders_clock st : clock (snd (syncFolders source replica st)) = clock st.
Proof.
  rewrite syncFolders_unfold.
  destruct (exists_at (tree st) replica); [exact (reconcilers_clock (reset_flag st))|].
  destruct (put (tree st) replica (Dir [])) as [t0|]; [|reflexivity].
  exact (reconcilers_clock (State t0 true _ _)).
Qed.

Lemma syncFolders_settled st :
  cycle_settled source replica (tree st) ->
  no_mutation (reset_flag st) (snd (syncFolders source replica st)).
Proof.
  unfold cycle_settled. intros H. rewrite syncFolders_unfold.
  destruct (exists_at (tree st) replica).
  - now apply reconcilers_settled.
  - rewrite H. apply log_exception_no_mutation.
Qed.

End Cycle.

(* ===================================================================== *)
(** * A cycle settles the tree                                            *)
(* ===================================================================== *)

Lemma entries_of_source_entry t source es :
  entries_of t source = Some es -> Forall (source_entry source) es.
Proof.
  unfold entries_of. destruct (lookup t source) as [[|ds|]|]; try discriminate.
  intros [= <-]. apply Forall_forall. intros e He.
  apply in_map_iff in He as (r & <- & Hr). exists r. split; [reflexivity|].
  intros ->. now apply (walk_not_nil (Dir ds)) in Hr.
Qed.

Lemma entries_of_same t t' root :
  lookup t' root = lookup t root -> entries_of t' root = entries_of t root.
Proof. unfold entries_of. now intros ->. Qed.

Section Settles.

Variables source replica : path.
Hypothesis roots_apart : apart source replica.

Let mirror := mirror_action source replica.
Let copy := copy_action source replica.

Lemma kept_refl t : wf t = true -> kept source t t.
Proof. intros W. now repeat split. Qed.

Lemma kept_trans t1 t2 t3 : kept source t1 t2 -> kept source t2 t3 -> kept source t1 t3.
Proof.
  intros (W2 & S2 & X2) (W3 & S3 & X3). repeat split; [assumption | | auto].
  intros q. now rewrite S3, S2.
Qed.

Lemma kept_put_leaf t r x t' :
  wf t = true -> wf x = true -> leaf x ->
  exists_at t (replica ++ r) = false \/ regular_at t (replica ++ r) = true ->
  put t (replica ++ r) x = Some t' -> kept source t t'.
Proof.
  intros W Wx L H P. repeat split.
  - now apply (wf_put _ _ _ _ W Wx P).
  - intros q. now apply (put_source source replica roots_apart t r x).
  - intros q. now apply (put_exists_mono _ _ _ _ _ P L H).
Qed.

Lemma mirror_loop_kept es : forall t,
  Forall (source_entry source) es -> wf t = true -> kept source t (loop_tree mirror es t).
Proof.
  intros t Hes W.
  apply (loop_tree_invariant mirror (kept source t) es); [|now apply kept_refl].
  intros t1 e t2 line He K M.
  rewrite Forall_forall in Hes. destruct (Hes e He) as (r & -> & Hr).
  apply mirror_mutate_inv in M as (_ & X & P).
  apply (kept_trans _ _ _ K). destruct K as (W1 & _).
  apply (kept_put_leaf t1 r (Dir []) t2 W1 eq_refl leaf_empty_Dir (or_introl X) P).
Qed.

Lemma copy_loop_kept es : forall t,
  Forall (source_entry source) es -> wf t = true -> kept source t (loop_tree copy es t).
Proof.
  intros t Hes W.
  apply (loop_tree_invariant copy (kept source t) es); [|now apply kept_refl].
  intros t1 e t2 line He K M.
  rewrite Forall_forall in Hes. destruct (Hes e He) as (r & -> & Hr).
  apply (copy_mutate_inv source replica roots_apart) in M as (_ & X & P).
  apply (kept_trans _ _ _ K). destruct K as (W1 & _).
  apply (kept_put_leaf t1 r (File (read_all t1 (source ++ r))) t2 W1 eq_refl
           (leaf_File _) X P).
Qed.

Lemma mirror_tree_kept t : wf t = true -> kept source t (mirror_tree source replica t).
Proof.
  intros W. unfold mirror_tree, reconcile_tree.
  destruct (entries_of t source) as [es|] eqn:E; [|now apply kept_refl].
  apply mirror_loop_kept; [|assumption]. now apply (entries_of_source_entry t).
Qed.

Lemma copy_tree_kept t : wf t = true -> kept source t (copy_tree source replica t).
Proof.
  intros W. unfold copy_tree, reconcile_tree.
  destruct (entries_of t source) as [es|] eqn:E; [|now apply kept_refl].
  apply copy_loop_kept; [|assumption]. now apply (entries_of_source_entry t).
Qed.

(** What the Prune Reconciler keeps. *)
Lemma prune_tree_kept t :
  wf t = true ->
  wf (prune_tree source replica t) = true
  /\ (forall q, lookup (prune_tree source replica t) (source ++ q) = lookup t (source ++ q))
  /\ exists_at (prune_tree source replica t) replica = exists_at t replica.
Proof.
  intros W. unfold prune_tree, reconcile_tree.
  destruct (entries_of t replica) as [es|] eqn:E; [|now repeat split].
  pose proof (stale_in_stale source replica t es W E) as HL.
  repeat split.
  - now apply delete_loop_wf.
  - intros q. now apply (delete_loop_source source replica roots_apart).
  - apply (delete_loop_invariant source replica roots_apart
             (fun t' => exists_at t' replica = exists_at t replica));
      [|assumption | reflexivity].
    intros t0 s Hs _ <-. apply obs_exists_at, del_obs_off.
    rewrite <- (app_nil_r replica) at 1. rewrite under_app_cancel.
    destruct s; [contradiction | reflexivity].
Qed.

Lemma entries_exist_of t es :
  wf t = true -> entries_of t source = Some es -> entries_exist source es t.
Proof.
  intros W E e He. apply (entries_of_In t source es e W E) in He as (r & -> & Hr & X).
  exists r. now repeat split.
Qed.

Lemma quiet_after_del t s es :
  s <> [] -> exists_at t (source ++ s) = false -> entries_exist source es t ->
  (quiet mirror es t -> quiet mirror es (del t (replica ++ s)))
  /\ (quiet copy es t -> quiet copy es (del t (replica ++ s))).
Proof.
  intros Hs St Ex.
  assert (FP : forall e, In e es ->
    exists r, e = source ++ r /\ r <> []
              /\ same_footprint source replica t (del t (replica ++ s)) r).
  { intros e He. destruct (Ex e He) as (r & -> & Hr & X).
    exists r. split; [reflexivity|]. split; [assumption|].
    now apply del_footprint. }
  split; intros Q; apply (quiet_transfer _ es t); try assumption.
  - intros e He S. destruct (FP e He) as (r & -> & Hr & F).
    now apply (mirror_skip_footprint source replica t).
  - intros e x He S. destruct (FP e He) as (r & -> & Hr & F).
    now apply (mirror_fail_footprint source replica roots_apart t _ r x).
  - intros e He S. destruct (FP e He) as (r & -> & Hr & F).
    now apply (copy_skip_footprint source replica roots_apart t).
  - intros e x He S. destruct (FP e He) as (r & -> & Hr & F).
    now apply (copy_fail_footprint source replica roots_apart t _ r x).
Qed.

Lemma quiet_after_prune t es :
  wf t = true -> entries_exist source es t ->
  quiet mirror es t -> quiet copy es t ->
  quiet mirror es (prune_tree source replica t)
  /\ quiet copy es (prune_tree source replica t).
Proof.
  intros W Ex Qm Qc. unfold prune_tree, reconcile_tree.
  destruct (entries_of t replica) as [rs|] eqn:E; [|now split].
  pose proof (stale_in_stale source replica t rs W E) as HL.
  assert (G : entries_exist source es (loop_tree delete_action (stale_in source replica t rs) t)
              /\ quiet mirror es (loop_tree delete_action (stale_in source replica t rs) t)
              /\ quiet copy es (loop_tree delete_action (stale_in source replica t rs) t));
    [|tauto].
  apply (delete_loop_invariant source replica roots_apart
           (fun t' => entries_exist source es t' /\ quiet mirror es t' /\ quiet copy es t'));
    [|assumption | tauto].
  intros t0 s Hs St (Ex0 & Qm0 & Qc0).
  destruct (quiet_after_del t0 s es Hs St Ex0) as [Hm Hc].
  repeat split; auto.
  intros e He. destruct (Ex0 e He) as (r & -> & Hr & X).
  exists r. repeat split; try assumption.
  now rewrite (obs_exists_at _ _ _ _ (del_source_obs source replica roots_apart t0 s r)).
Qed.

Lemma mirror_quiet_after_copy es : forall t,
  Forall (source_entry source) es ->
  quiet mirror es t -> quiet mirror es (loop_tree copy es t).
Proof.
  intros t Hes Q.
  apply (loop_tree_invariant copy (quiet mirror es) es); [|assumption].
  intros t1 g t2 line Hg Q1 M. rewrite Forall_forall in Hes.
  apply (quiet_transfer mirror es t1); try assumption.
  - intros e He S. destruct (Hes e He) as (r & -> & Hr).
    apply (mirror_skip_after_copy source replica roots_apart t1 r g t2 line); auto.
  - intros e x He F. destruct (Hes e He) as (r & -> & Hr).
    apply (mirror_fail_after_copy source replica roots_apart t1 r x g t2 line); auto.
Qed.

(** Once the replica root is there, the three reconcilers leave a tree on
    which none of them finds anything to do. *)
Lemma reconcilers_settle t :
  wf t = true -> exists_at t replica = true ->
  cycle_settled source replica
    (prune_tree source replica (copy_tree source replica (mirror_tree source replica t))).
Proof.
  intros W X.
  set (tM := mirror_tree source replica t).
  set (tC := copy_tree source replica tM).
  set (tD := prune_tree source replica tC).
  destruct (mirror_tree_kept t W) as (WM & SM & XM). fold tM in WM, SM, XM.
  destruct (copy_tree_kept tM WM) as (WC & SC & XC). fold tC in WC, SC, XC.
  destruct (prune_tree_kept tC WC) as (WD & SD & XD). fold tD in WD, SD, XD.
  unfold cycle_settled. rewrite XD, (XC _ (XM _ X)).
  assert (EM : entries_of tM source = entries_of t source).
  { apply entries_of_same. specialize (SM []). now rewrite app_nil_r in SM. }
  assert (EC : entries_of tC source = entries_of tM source).
  { apply entries_of_same. specialize (SC []). now rewrite app_nil_r in SC. }
  assert (ED : entries_of tD source = entries_of tC source).
  { apply entries_of_same. specialize (SD []). now rewrite app_nil_r in SD. }
  assert (Q : forall es, entries_of tD source = Some es ->
                quiet mirror es tD /\ quiet copy es tD).
  { intros es E. rewrite ED in E. pose proof E as E1. rewrite EC in E1.
    pose proof E1 as E0. rewrite EM in E0.
    pose proof (entries_of_source_entry _ _ _ E0) as Hes.
    assert (HM : tM = loop_tree mirror es t).
    { unfold tM, mirror_tree, reconcile_tree. now rewrite E0. }
    assert (HC : tC = loop_tree copy es tM).
    { unfold tC, copy_tree, reconcile_tree. now rewrite E1. }
    apply quiet_after_prune; try assumption.
    - now apply entries_exist_of.
    - rewrite HC. apply mirror_quiet_after_copy; [assumption|].
      rewrite HM. apply (loop_tree_quiet mirror (source_entry source)); try assumption.
      + apply mirror_done_skips.
      + now apply mirror_skip_stable.
    - rewrite HC. apply (loop_tree_quiet copy (source_entry source)); try assumption.
      + now apply copy_done_skips.
      + now apply copy_skip_stable. }
  repeat split.
  - intros es E. now apply Q.
  - intros es E. now apply Q.
  - intros es E. now apply (prune_leaves_no_stale source replica roots_apart).
Qed.

Lemma cycle_tree_settled t :
  wf t = true -> cycle_settled source replica (cycle_tree source replica t).
Proof.
  intros W. unfold cycle_tree, ensure_replica.
  destruct (exists_at t replica) eqn:X; [now apply reconcilers_settle|].
  destruct (put t replica (Dir [])) as [t0|] eqn:P.
  - apply reconcilers_settle; [now apply (wf_put replica t (Dir []) t0 W)|].
    unfold exists_at. now rewrite status_obs, (put_obs_at _ _ _ _ P).
  - unfold cycle_settled. now rewrite X.
Qed.

End Settles.

(* ===================================================================== *)
(** * The walk lists a directory before its content                       *)
(* ===================================================================== *)

Lemma removelast_cons_ne {A} (a : A) (l : list A) :
  l <> [] -> removelast (a :: l) = a :: removelast l.
Proof. destruct l; [contradiction | reflexivity]. Qed.

Lemma walk_parent_before t : forall l1 r l2,
  walk t = l1 ++ r :: l2 -> removelast r <> [] -> In (removelast r) l1.
Proof.
  induction t as [data| |es IH] using node_induction; intros l1 r l2 H Hp;
    try (destruct l1; discriminate).
  revert l1 H. induction es as [|[n c] es IHes]; intros l1 H.
  - destruct l1; discriminate.
  - inversion IH as [|? ? IHc IHrest]; subst. simpl in IHc.
    change (walk (Dir ((n, c) :: es)))
      with (([n] :: map (cons n) (walk c)) ++ walk (Dir es)) in H.
    apply app_eq_app in H as [k [[HA HB]|[HA HB]]].
    + destruct k as [|x k].
      * rewrite app_nil_r in HA. subst l1. simpl in HB.
        specialize (IHes IHrest [] (eq_sym HB)). contradiction.
      * inversion HB; subst x. clear HB.
        destruct l1 as [|y l1].
        -- inversion HA; subst. contradiction.
        -- inversion HA as [[Hy Hm]]. subst y.
           apply map_eq_app in Hm as (m1 & m2 & Hw & Hm1 & Hm2).
           destruct m2 as [|r' m2]; [discriminate|]. inversion Hm2; subst.
           assert (Hr' : r' <> []).
           { intros ->. apply (walk_not_nil c). rewrite Hw. apply in_elt. }
           rewrite removelast_cons_ne by assumption.
           destruct (removelast r') as [|a p] eqn:R.
           ++ now left.
           ++ right. apply in_map. rewrite <- R. apply (IHc m1 r' m2 Hw).
              rewrite R. discriminate.
    + subst l1. apply in_or_app. right. apply (IHes IHrest k). now symmetry.
Qed.

Lemma entries_parent_before t source es done e rest r :
  entries_of t source = Some es -> es = done ++ e :: rest -> e = source ++ r ->
  removelast r <> [] -> In (source ++ removelast r) done.
Proof.
  unfold entries_of. destruct (lookup t source) as [[|ds|]|]; try discriminate.
  intros [= <-] H -> Hp.
  apply map_eq_app in H as (l1 & l2 & Hw & <- & Hl2).
  destruct l2 as [|r' l2]; [discriminate|]. inversion Hl2 as [[Hr Hrest]].
  apply app_inv_head in Hr. subst r'.
  apply in_map. now apply (walk_parent_before (Dir ds) l1 r l2).
Qed.

Lemma quiet_all_skip (act : node -> path -> action) es t :
  quiet act es t ->
  (forall done e rest x, es = done ++ e :: rest ->
     (forall g, In g done -> act t g = Skip) -> act t e <> Fail x) ->
  forall e, In e es -> act t e = Skip.
Proof.
  intros Q NF.
  assert (G : forall rest done, es = done ++ rest ->
                (forall g, In g done -> act t g = Skip) ->
                quiet act rest t -> forall e, In e rest -> act t e = Skip).
  { induction rest as [|e rest IH]; intros done Hes Hd Qr g Hg; [contradiction|].
    simpl in Qr. destruct (act t e) eqn:E; try contradiction.
    - destruct Hg as [<-|Hg]; [assumption|].
      apply (IH (done ++ [e])); try assumption.
      + now rewrite <- app_assoc.
      + intros h Hh. apply in_app_or in Hh as [Hh|[<-|[]]]; auto.
    - exfalso. now apply (NF done e rest e0 Hes Hd). }
  now apply (G es []).
Qed.

Lemma all_skip_completes (act : node -> path -> action) es : forall t,
  (forall e, In e es -> act (loop_tree act es t) e = Skip) -> completes act es t.
Proof.
  induction es as [|e es IH]; intros t H; simpl; [exact I|].
  pose proof (H e (or_introl eq_refl)) as He. simpl in He, H.
  destruct (act t e) eqn:E.
  - apply IH. intros g Hg. apply H. now right.
  - apply IH. intros g Hg. apply H. now right.
  - congruence.
Qed.

(* ===================================================================== *)
(** * Replicas without foreign entries of another kind                    *)
(* ===================================================================== *)

Section Compatible.

Variables source replica : path.
Hypothesis roots_apart : apart source replica.

Let mirror := mirror_action source replica.
Let copy := copy_action source replica.

Lemma compatible_dirs t : compatible source replica t -> dirs_compatible source replica t.
Proof.
  intros C r D X. unfold directory_at in *. rewrite C; [assumption| |assumption].
  unfold exists_at. now destruct (status t (source ++ r)).
Qed.

Lemma dirs_compatible_create t r t' :
  dirs_compatible source replica t -> directory_at t (source ++ r) = true ->
  exists_at t (replica ++ r) = false ->
  put t (replica ++ r) (Dir []) = Some t' -> dirs_compatible source replica t'.
Proof.
  intros C D X P q Dq Xq.
  rewrite (obs_directory_at _ _ _ _ (put_source_obs source replica roots_apart t r _ t' q P)) in Dq.
  destruct (list_eq_dec string_dec (replica ++ q) (replica ++ r)) as [E|Hne].
  - rewrite E. unfold directory_at. now rewrite status_obs, (put_obs_at _ _ _ _ P).
  - pose proof (put_leaf_obs _ _ _ _ _ P leaf_empty_Dir (or_introl X) Hne) as O.
    rewrite (obs_exists_at _ _ _ _ O) in Xq. rewrite (obs_directory_at _ _ _ _ O). auto.
Qed.



End Compatible.

(* ===================================================================== *)
(** * Idempotence of the cycle                                            *)
(* ===================================================================== *)

(** C2, as amended (idempotence).  With the two roots apart, whatever the tree a first
    call of [syncFolders] started from, a second call on the tree it left
    (whatever happened to the flag and the log in between) changes nothing:
    the tree is the same, [changesMade] is false at the end, and every line
    the second call logs is an error line, none reports a created
    directory, a copied file or a removal. *)
Theorem second_cycle_no_mutation (source replica : path) (st st1 : state) :
  apart source replica ->
  wf (tree st) = true ->
  tree st1 = tree (run (syncFolders source replica) st) ->
  let st2 := run (syncFolders source replica) st1 in
  tree st2 = tree st1
  /\ changesMade st2 = false
  /\ exists lines, log st2 = log st1 ++ lines
                   /\ Forall (fun m => is_mutation_line m = false) lines.
Proof.
  intros A W T st2.
  assert (S : cycle_settled source replica (tree st1)).
  { rewrite T. unfold run. rewrite syncFolders_tree. now apply cycle_tree_settled. }
  destruct (syncFolders_settled source replica st1 S) as (Ht & Hf & _ & Hl).
  repeat split; assumption.
Qed.

Lemma second_cycle_no_mutation_witness :
  let st1 := run (syncFolders ["s"%string] ["r"%string]) (initial demo_tree) in
  let st2 := run (syncFolders ["s"%string] ["r"%string]) st1 in
  tree st2 = tree st1
  /\ changesMade st2 = false
  /\ exists lines, log st2 = log st1 ++ lines
                   /\ Forall (fun m => is_mutation_line m = false) lines.
Proof.
  intros st1.
  apply (second_cycle_no_mutation ["s"%string] ["r"%string] (initial demo_tree) st1).
  - split; reflexivity.
  - reflexivity.
  - reflexivity.
Defined.

(** C2, as stated, fails: with the source [/r/s] inside the replica [/r],
    the first cycle copies [/r/s/a] to [/r/a] and prunes [/r/s/s] and
    [/r/s/a], whose counterparts [/r/s/s/s] and [/r/s/s/a] the source does
    not have.  The source is still a directory.  The second cycle, run on
    the tree the first one left, finds [/r/s] and [/r/a] without counterpart
    in the emptied source and removes both, with [changesMade] set. *)
Lemma second_cycle_mutates_on_nested_roots :
  let source := ["r"; "s"]%string in
  let replica := ["r"]%string in
  let st1 := run (syncFolders source replica) (initial nested_twice_tree) in
  let st2 := run (syncFolders source replica) st1 in
  wf nested_twice_tree = true
  /\ under source replica = true
  /\ log st1 = [CopiedFile ["r"; "s"; "a"]%string ["r"; "a"]%string;
                Removed ["r"; "s"; "s"]%string;
                Removed ["r"; "s"; "a"]%string]
  /\ directory_at (tree st1) source = true
  /\ log st2 = log st1 ++ [Removed ["r"; "s"]%string; Removed ["r"; "a"]%string]
  /\ changesMade st2 = true
  /\ exists_at (tree st1) ["r"; "a"]%string = true
  /\ exists_at (tree st2) ["r"; "a"]%string = false
  /\ tree st2 <> tree st1.
Proof. repeat split; try (vm_compute; reflexivity). vm_compute. discriminate. Qed.

(* ===================================================================== *)
(** * The reconcilers on a compatible replica                              *)
(* ===================================================================== *)

Section Converges.

Variables source replica : path.
Hypothesis roots_apart : apart source replica.

Let mirror := mirror_action source replica.
Let copy := copy_action source replica.

(** With every earlier entry skipped and no foreign non-directory in its
    way, the Structure Mirror does not throw on an entry: the parent of its
    counterpart is the replica root or the counterpart of an earlier entry. *)
Lemma mirror_no_fail t es done e rest x :
  entries_of t source = Some es ->
  dirs_compatible source replica t -> directory_at t replica = true ->
  es = done ++ e :: rest ->
  (forall g, In g done -> mirror t g = Skip) ->
  mirror t e <> Fail x.
Proof.
  intros E C R Hes Hd F.
  pose proof (entries_of_source_entry _ _ _ E) as Hse. rewrite Forall_forall in Hse.
  destruct (Hse e) as (r & -> & Hr); [rewrite Hes; apply in_elt|].
  assert (F' : exists x, mirror t (source ++ r) = Fail x) by now exists x.
  apply (mirror_fail_iff _ _ roots_apart t r Hr) in F' as (D & X & P).
  rewrite removelast_app_ne in P by assumption.
  destruct (list_eq_dec string_dec (removelast r) []) as [Hn|Hn].
  - rewrite Hn, app_nil_r in P. congruence.
  - pose proof (entries_parent_before t source es done _ rest r E Hes eq_refl Hn) as Hin.
    apply Hd in Hin. apply mirror_skip_iff in Hin.
    assert (Dp : directory_at t (source ++ removelast r) = true).
    { rewrite <- removelast_app_ne by assumption. apply lookup_parent_dir.
      - destruct source, r; simpl; congruence.
      - unfold directory_at, status in D. destruct (lookup t (source ++ r)); congruence. }
    destruct Hin as [Hin|Hin]; [congruence|].
    rewrite (C _ Dp Hin) in P. discriminate.
Qed.


Lemma mirror_loop_dirs_compatible es : forall t,
  Forall (source_entry source) es ->
  dirs_compatible source replica t ->
  dirs_compatible source replica (loop_tree mirror es t).
Proof.
  intros t Hes C.
  apply (loop_tree_invariant mirror (dirs_compatible source replica) es); [|assumption].
  intros t1 e t2 line He C1 M. rewrite Forall_forall in Hes.
  destruct (Hes e He) as (r & -> & Hr).
  apply mirror_mutate_inv in M as (D & X & P).
  now apply (dirs_compatible_create source replica roots_apart t1 r t2).
Qed.




End Converges.

(* ===================================================================== *)
(** * Convergence                                                          *)
(* ===================================================================== *)



Lemma same_kinds_lookup q : forall a b x y,
  same_kinds a b = true -> lookup a q = Some x -> lookup b q = Some y ->
  type_of y = type_of x.
Proof.
  induction q as [|n q IH]; intros a b x y H La Lb; simpl in La, Lb.
  - inversion La; inversion Lb; subst. destruct x, y; simpl in *; congruence.
  - destruct a as [|ea|]; try discriminate. destruct b as [|eb|]; try discriminate.
    destruct (find_entry n ea) as [ca|] eqn:Fa; try discriminate.
    destruct (find_entry n eb) as [cb|] eqn:Fb; try discriminate.
    apply (IH ca cb); try assumption.
    simpl in H. rewrite forallb_forall in H.
    specialize (H (n, ca) (find_entry_In _ _ _ Fa)). simpl in H. now rewrite Fb in H.
Qed.

Lemma same_kinds_sound t source replica :
  match lookup t source, lookup t replica with
  | Some a, Some b => same_kinds a b
  | _, _ => true
  end = true ->
  compatible source replica t.
Proof.
  intros H r Xs Xr. unfold exists_at, status in *. rewrite !lookup_app in *.
  destruct (lookup t source) as [a|]; [|discriminate].
  destruct (lookup t replica) as [b|]; [|discriminate].
  destruct (lookup a r) as [x|] eqn:La; [|discriminate].
  destruct (lookup b r) as [y|] eqn:Lb; [|discriminate].
  now apply (same_kinds_lookup r a b).
Qed.

Section Convergence.

Variables source replica : path.
Hypothesis roots_apart : apart source replica.

Let mirror := mirror_action source replica.
Let copy := copy_action source replica.


Lemma directory_entries t root :
  directory_at t root = true -> exists es, entries_of t root = Some es.
Proof.
  unfold directory_at, status, entries_of.
  destruct (lookup t root) as [[|ds|]|]; try discriminate. now eexists.
Qed.


End Convergence.




(* ===================================================================== *)
(** * What a loop logs                                                     *)
(* ===================================================================== *)

Section LoopLog.

Variable act : node -> path -> action.
Variable body : path -> M unit.
Hypothesis body_act :
  forall e st, body e st = apply_action (act (tree st) e) st.

Lemma for_each_log es : forall st,
  log (snd (for_each es body st)) = log st ++ loop_lines act es (tree st).
Proof.
  induction es as [|e es IH]; intros st; simpl; [now rewrite app_nil_r|].
  unfold bind. rewrite body_act.
  destruct (act (tree st) e); simpl; [apply IH | | now rewrite app_nil_r].
  rewrite IH. simpl. now rewrite <- app_assoc.
Qed.

Lemma loop_lines_Forall (P : message -> Prop) es :
  (forall t e t' line, act t e = Mutate t' line -> P line) ->
  forall t, Forall P (loop_lines act es t).
Proof.
  intros H. induction es as [|e es IH]; intros t; simpl; [constructor|].
  destruct (act t e) eqn:E; [apply IH | | constructor].
  constructor; [now apply (H t e t' line) | apply IH].
Qed.

Variable root : path.
Variable select : node -> list path -> list path.

(** A reconciler whose loop runs to its end logs the lines of the loop and
    nothing else. *)
Lemma reconcile_completes_log st es :
  entries_of (tree st) root = Some es ->
  completes act (select (tree st) es) (tree st) ->
  log (snd (reconcile body root select st))
  = log st ++ loop_lines act (select (tree st) es) (tree st).
Proof.
  intros E C. unfold reconcile, try_catch, bind.
  rewrite recursive_directory_iterator_entries, E.
  pose proof (completes_for_each act body body_act _ st C) as O.
  pose proof (for_each_log (select (tree st) es) st) as L.
  destruct (for_each (select (tree st) es) body st) as [[[]|e] st']; simpl in *;
    [assumption | discriminate].
Qed.

End LoopLog.

(* ===================================================================== *)
(** * The Structure Mirror                                                *)
(* ===================================================================== *)

Section Mirror.

Variables source replica : path.
Hypothesis roots_apart : apart source replica.

Let mirror := mirror_action source replica.

Lemma mirror_loop_created_only es : forall t,
  Forall (source_entry source) es -> created_only source replica t (loop_tree mirror es t).
Proof.
  intros t Hes.
  apply (loop_tree_invariant mirror
           (fun t' => created_only source replica t t'
                      /\ forall q, lookup t' (source ++ q) = lookup t (source ++ q)) es).
  - intros t1 e t2 line He [K S] M. rewrite Forall_forall in Hes.
    destruct (Hes e He) as (r & -> & Hr).
    apply mirror_mutate_inv in M as (D & X & P). split.
    + intros q. destruct (list_eq_dec string_dec q (replica ++ r)) as [->|Hne].
      * right. exists r. split; [reflexivity|].
        split; [unfold directory_at, status in *; now rewrite <- S|].
        split; [|exact (put_obs_at _ _ _ _ P)].
        destruct (K (replica ++ r)) as [O|(r' & _ & _ & _ & O)].
        -- now rewrite <- (obs_exists_at _ _ _ _ O).
        -- unfold exists_at in X. rewrite status_obs, O in X. discriminate.
      * rewrite (put_leaf_obs _ _ _ _ _ P leaf_empty_Dir (or_introl X) Hne). apply K.
    + intros q. rewrite (put_source source replica roots_apart t1 r (Dir []) t2 q P). apply S.
  - split; [intros q; now left | reflexivity].
Qed.

(** On a replica root that is a directory, with no foreign non-directory
    where the source has a directory, the loop runs to its end and every
    source directory ends up mirrored. *)
Lemma mirror_loop_complete t es :
  wf t = true -> entries_of t source = Some es ->
  directory_at t replica = true -> dirs_compatible source replica t ->
  completes mirror es t
  /\ forall r, directory_at t (source ++ r) = true ->
               directory_at (loop_tree mirror es t) (replica ++ r) = true.
Proof.
  intros W E R C.
  pose proof (entries_of_source_entry _ _ _ E) as Hes.
  set (tM := loop_tree mirror es t).
  destruct (mirror_loop_kept source replica roots_apart es t Hes W) as (WM & SM & XM).
  fold tM in WM, SM, XM.
  assert (CM : dirs_compatible source replica tM)
    by now apply mirror_loop_dirs_compatible.
  assert (EM : entries_of tM source = Some es).
  { rewrite <- E. apply entries_of_same. specialize (SM []). now rewrite app_nil_r in SM. }
  assert (Dsame : forall r, directory_at tM (source ++ r) = directory_at t (source ++ r)).
  { intros r. unfold directory_at, status. now rewrite SM. }
  assert (RM : directory_at tM replica = true).
  { assert (Xr : exists_at tM replica = true).
    { apply XM. unfold directory_at in R. unfold exists_at. now destruct (status t replica). }
    rewrite <- (app_nil_r replica). apply CM.
    - rewrite Dsame. unfold entries_of in E. unfold directory_at, status.
      rewrite app_nil_r. destruct (lookup t source) as [[]|]; try discriminate. reflexivity.
    - now rewrite app_nil_r. }
  assert (Q : quiet mirror es tM).
  { apply (loop_tree_quiet mirror (source_entry source)); try assumption.
    - now apply mirror_done_skips.
    - now apply mirror_skip_stable. }
  assert (A : forall e, In e es -> mirror tM e = Skip).
  { apply quiet_all_skip; [assumption|]. intros done e rest x Hd Hs.
    now apply (mirror_no_fail source replica roots_apart tM es done e rest x). }
  split; [now apply all_skip_completes|].
  intros r D. destruct (list_eq_dec string_dec r []) as [->|Hr].
  - now rewrite app_nil_r.
  - assert (Hin : In (source ++ r) es).
    { apply (entries_of_In t source es _ W E). exists r. repeat split; [assumption|].
      unfold directory_at in D. unfold exists_at. now destruct (status t (source ++ r)). }
    apply A in Hin. apply mirror_skip_iff in Hin as [Hin|Hin].
    + rewrite Dsame in Hin. congruence.
    + apply CM; [now rewrite Dsame | assumption].
Qed.

End Mirror.

(** C7, as amended (Structure Mirror).  Take the two roots apart, the
    source and the replica roots directories, and no replica entry other
    than a directory at the relative path of a source directory.  Then
    [syncSubdirectories] leaves a directory in the replica for every
    directory of the source; what it changed are counterparts of source
    directories that did not exist, each made as one empty directory (and
    [create_directory] throws, changing nothing, on a path whose parent is
    not a directory: it never makes a chain); it logs no error, only
    "Created directory" lines; nothing that existed is gone; and running it
    again changes nothing. *)
Theorem structure_mirror_on_compatible_replica (source replica : path) (st : state) :
  apart source replica ->
  wf (tree st) = true ->
  directory_at (tree st) source = true ->
  directory_at (tree st) replica = true ->
  dirs_compatible source replica (tree st) ->
  let st' := run (syncSubdirectories source replica) st in
  (forall r, directory_at (tree st) (source ++ r) = true ->
             directory_at (tree st') (replica ++ r) = true)
  /\ created_only source replica (tree st) (tree st')
  /\ (forall p s, p <> [] -> directory_at (tree s) (removelast p) = false ->
                  exists_at (tree s) p = false ->
                  exists e, create_directory p s = (Throw e, s))
  /\ (exists lines, log st' = log st ++ lines
                    /\ Forall (fun m => exists p, m = CreatedDirectory p) lines)
  /\ (forall q, exists_at (tree st) q = true -> exists_at (tree st') q = true)
  /\ no_mutation st' (run (syncSubdirectories source replica) st').
Proof.
  intros A W Ds Dr C st'.
  destruct (directory_entries (tree st) source Ds) as [es E].
  pose proof (entries_of_source_entry _ _ _ E) as Hes.
  assert (Hst' : st' = snd (reconcile (syncSubdirectories_entry source replica)
                             source all_entries st)).
  { unfold st', run. now rewrite syncSubdirectories_reconcile. }
  assert (T : tree st' = loop_tree (mirror_action source replica) es (tree st)).
  { rewrite Hst'.
    rewrite (reconcile_run_tree _ _ (syncSubdirectories_entry_action source replica)).
    unfold reconcile_tree. now rewrite E. }
  destruct (mirror_loop_complete source replica A (tree st) es W E Dr C) as [Cm Dirs].
  destruct (mirror_loop_kept source replica A es (tree st) Hes W) as (WM & SM & XM).
  split; [now rewrite T|]. split; [rewrite T; now apply mirror_loop_created_only|].
  split.
  { intros p s Hp Hd Hx. unfold create_directory.
    assert (S : status (tree s) p = not_found).
    { unfold exists_at in Hx. now destruct (status (tree s) p). }
    rewrite S. apply (put_None_iff p (tree s) (Dir []) Hp) in Hd. rewrite Hd.
    now eexists. }
  split.
  { exists (loop_lines (mirror_action source replica) es (tree st)). split.
    - rewrite Hst'.
      now rewrite (reconcile_completes_log _ _
                     (syncSubdirectories_entry_action source replica) source all_entries st es E Cm).
    - apply loop_lines_Forall. intros t e t' line M. unfold mirror_action in M.
      destruct (directory_at t e); [|discriminate].
      destruct (exists_at t _); [discriminate|].
      destruct (put t _ (Dir [])); [|discriminate]. inversion M. now eexists. }
  split; [now rewrite T|].
  unfold run. rewrite syncSubdirectories_reconcile.
  apply (reconcile_quiet _ _ (syncSubdirectories_entry_action source replica)).
  intros es' E'. unfold all_entries.
  assert (E'' : entries_of (tree st') source = Some es).
  { rewrite <- E. apply entries_of_same. rewrite T. specialize (SM []).
    now rewrite app_nil_r in SM. }
  rewrite E'' in E'. inversion E'; subst es'. rewrite T.
  apply (loop_tree_quiet _ (source_entry source)); try assumption.
  - now apply mirror_done_skips.
  - now apply mirror_skip_stable.
Qed.

Lemma structure_mirror_on_compatible_replica_witness :
  let st := initial tidy_tree in
  let st' := run (syncSubdirectories ["s"%string] ["r"%string]) st in
  (forall r, directory_at (tree st) (["s"%string] ++ r) = true ->
             directory_at (tree st') (["r"%string] ++ r) = true)
  /\ created_only ["s"%string] ["r"%string] (tree st) (tree st')
  /\ (forall p s, p <> [] -> directory_at (tree s) (removelast p) = false ->
                  exists_at (tree s) p = false ->
                  exists e, create_directory p s = (Throw e, s))
  /\ (exists lines, log st' = log st ++ lines
                    /\ Forall (fun m => exists p, m = CreatedDirectory p) lines)
  /\ (forall q, exists_at (tree st) q = true -> exists_at (tree st') q = true)
  /\ no_mutation st' (run (syncSubdirectories ["s"%string] ["r"%string]) st').
Proof.
  apply (structure_mirror_on_compatible_replica ["s"%string] ["r"%string] (initial tidy_tree)).
  - split; reflexivity.
  - reflexivity.
  - reflexivity.
  - reflexivity.
  - apply compatible_dirs, same_kinds_sound. reflexivity.
Defined.

(** C7, as stated, fails: the replica holds a regular file [d] where the
    source has the directory [d].  [d/e] and [x] are directories of the
    source whose counterparts do not exist; the Structure Mirror makes
    neither: [create_directory] throws on [d/e], and the loop is left before
    it reaches [x], whose parent is there. *)
Lemma structure_mirror_fails_on_kind_conflict :
  let st := initial conflict_tree in
  let st' := run (syncSubdirectories ["s"%string] ["r"%string]) st in
  wf conflict_tree = true
  /\ apart ["s"%string] ["r"%string]
  /\ directory_at (tree st) ["s"; "d"; "e"]%string = true
  /\ exists_at (tree st) ["r"; "d"; "e"]%string = false
  /\ exists_at (tree st') ["r"; "d"; "e"]%string = false
  /\ directory_at (tree st) ["s"; "x"]%string = true
  /\ exists_at (tree st) ["r"; "x"]%string = false
  /\ directory_at (tree st) ["r"]%string = true
  /\ exists_at (tree st') ["r"; "x"]%string = false
  /\ log st' = [FilesystemErrorLine "create_directory: /r/d/e"].
Proof. repeat split; reflexivity. Qed.

(* ===================================================================== *)
(** * A failure inside a reconciler                                        *)
(* ===================================================================== *)

Lemma for_each_app_throw {A} (body : A -> M unit) done e rest x : forall st,
  result (for_each done body) st = Ok tt ->
  body e (run (for_each done body) st) = (Throw x, run (for_each done body) st) ->
  for_each (done ++ e :: rest) body st = (Throw x, run (for_each done body) st).
Proof.
  unfold result, run. induction done as [|d done IH]; intros st O B; simpl in *.
  - unfold bind. now rewrite B.
  - unfold bind in *. destruct (body d st) as [[[]|y] st1]; simpl in *; [|discriminate].
    now apply IH.
Qed.

Lemma syncCopy_entry_throws source replica e st x :
  result (syncCopy_entry source replica e) st = Throw x ->
  syncCopy_entry source replica e st = (Throw x, st).
Proof.
  unfold result. rewrite syncCopy_entry_action.
  destruct (copy_action source replica (tree st) e); simpl; intros H;
    try discriminate. now inversion H.
Qed.

Lemma log_exception_add_line e st :
  log_exception e st = (Ok tt, add_line (exception_line e) st).
Proof. now destruct e. Qed.

(** C4, as amended (partial failure in the Copy Reconciler).  When
    [syncCopy_entry] throws on an entry [e] of the enumeration, after the
    entries [done] before it went through, [syncCopy] catches the exception
    and returns normally; the state it leaves is the one the entries before
    [e] produced, with the error line added: the entries [rest] after [e]
    are not processed.  The cycle goes on: the next statement,
    [syncDelete], runs from that state. *)
Theorem copy_failure_ends_the_loop (source replica : path) (st : state)
    (done rest : list path) (e : path) (x : exn) :
  entries_of (tree st) source = Some (done ++ e :: rest) ->
  result (for_each done (syncCopy_entry source replica)) st = Ok tt ->
  result (syncCopy_entry source replica e)
         (run (for_each done (syncCopy_entry source replica)) st) = Throw x ->
  let st1 := run (for_each done (syncCopy_entry source replica)) st in
  syncCopy source replica st = (Ok tt, add_line (exception_line x) st1)
  /\ (syncCopy source replica ;; syncDelete source replica) st
     = syncDelete source replica (add_line (exception_line x) st1).
Proof.
  intros E O T st1.
  assert (H : syncCopy source replica st = (Ok tt, add_line (exception_line x) st1)).
  { unfold syncCopy, try_catch, bind.
    rewrite recursive_directory_iterator_entries, E.
    rewrite (for_each_app_throw _ done e rest x st O (syncCopy_entry_throws _ _ _ _ _ T)).
    apply log_exception_add_line. }
  split; [exact H|]. unfold bind. now rewrite H.
Qed.

Lemma copy_failure_ends_the_loop_witness :
  let st := initial blocked_tree in
  let x := copy_error ["s"; "d"; "f"]%string ["r"; "d"; "f"]%string in
  syncCopy ["s"%string] ["r"%string] st = (Ok tt, add_line (exception_line x) st)
  /\ (syncCopy ["s"%string] ["r"%string] ;; syncDelete ["s"%string] ["r"%string]) st
     = syncDelete ["s"%string] ["r"%string] (add_line (exception_line x) st).
Proof.
  apply (copy_failure_ends_the_loop ["s"%string] ["r"%string] (initial blocked_tree)
           [["s"; "d"]%string] [["s"; "z.txt"]%string] ["s"; "d"; "f"]%string
           (copy_error ["s"; "d"; "f"]%string ["r"; "d"; "f"]%string)).
  - reflexivity.
  - reflexivity.
  - reflexivity.
Defined.

(** C4, as stated, fails: [copy_file] throws on [d/f], whose place in the
    replica lies under a regular file; [z.txt], next in the enumeration, is
    never copied, although nothing is in its way.  The cycle is not
    abandoned: the stale [old.txt] is removed. *)
Lemma copy_failure_abandons_remaining_files :
  let st' := after_cycle blocked_tree in
  wf blocked_tree = true
  /\ apart ["s"%string] ["r"%string]
  /\ regular_at blocked_tree ["s"; "z.txt"]%string = true
  /\ directory_at blocked_tree ["r"]%string = true
  /\ exists_at blocked_tree ["r"; "z.txt"]%string = false
  /\ exists_at (tree st') ["r"; "z.txt"]%string = false
  /\ exists_at (tree st') ["r"; "old.txt"]%string = false
  /\ log st' = [FilesystemErrorLine "copy_file: /s/d/f /r/d/f";
                Removed ["r"; "old.txt"]%string].
Proof. repeat split; reflexivity. Qed.

(* ===================================================================== *)
(** * The Content Comparator                                               *)
(* ===================================================================== *)

(** C5 (a read that fails is not reported).  The stream is never asked
    whether it opened, where [logOperation] asks [is_open] of its own: on
    the path [/s/missing], which does not exist, [computeFileHash] returns
    normally, with the digest of the empty sequence, and that is the very
    digest it returns for the empty regular file [/s/d/f]. *)
Lemma computeFileHash_swallows_failure :
  let st := initial tidy_tree in
  exists_at (tree st) ["s"; "missing"]%string = false
  /\ computeFileHash ["s"; "missing"]%string st
     = (Ok "e3b0c44298fc1c149afbf4c8996fb92427ae41e4649b934ca495991b7852b855"%string, st)
  /\ regular_at (tree st) ["s"; "d"; "f"]%string = true
  /\ result (computeFileHash ["s"; "missing"]%string) st
     = result (computeFileHash ["s"; "d"; "f"]%string) st.
Proof. repeat split; vm_compute; reflexivity. Qed.

(** Where reading throws, the error does reach the caller: with the
    directory [/r/a.txt] at the place of the source file [/s/a.txt], the
    hash of the replica entry throws, [syncCopy] logs the error and leaves
    its loop, and [/s/b.txt] is not copied. *)
Example read_of_a_directory_throws :
  let st := initial crossed_tree in
  let st' := run (syncCopy ["s"%string] ["r"%string]) st in
  computeFileHash ["r"; "a.txt"]%string st = (Throw read_failure, st)
  /\ log st'
     = [ErrorLine "basic_filebuf::underflow error reading the file: Is a directory"]
  /\ tree st' = tree st
  /\ exists_at (tree st') ["r"; "b.txt"]%string = false.
Proof. repeat split; vm_compute; reflexivity. Qed.

(* ===================================================================== *)
(** * The completion check                                                 *)
(* ===================================================================== *)

Lemma fold_count {A} (f : A -> bool) (l : list A) : forall n,
  fold_left (fun count e => if f e then S count else count) l n
  = n + List.length (filter f l).
Proof.
  induction l as [|x l IH]; intros n; simpl; [lia|].
  rewrite IH. destruct (f x); simpl; lia.
Qed.

Lemma countFilesAndDirectories_count dir st :
  countFilesAndDirectories dir st
  = match entry_count (tree st) dir with
    | Some n => (Ok n, st)
    | None => (Throw (iterator_error dir), st)
    end.
Proof.
  unfold countFilesAndDirectories, bind, entry_count.
  rewrite recursive_directory_iterator_entries.
  destruct (entries_of (tree st) dir) as [es|]; [|reflexivity].
  simpl. do 2 f_equal. exact (fold_count (counted (tree st)) es 0).
Qed.

Lemma app_one_neq {A} (l : list A) (x : A) : l ++ [x] <> l.
Proof.
  intros H. apply (f_equal (@List.length A)) in H. rewrite length_app in H. simpl in H. lia.
Qed.

Lemma completion_due_iff source replica st :
  completion_due source replica st = true
  <-> (exists n, entry_count (tree st) source = Some n
                 /\ entry_count (tree st) replica = Some n)
      /\ changesMade st = true.
Proof.
  unfold completion_due.
  destruct (entry_count (tree st) source) as [a|];
    [|split; [discriminate | intros [[n [H _]] _]; discriminate]].
  destruct (entry_count (tree st) replica) as [b|];
    [|split; [discriminate | intros [[n [_ H]] _]; discriminate]].
  rewrite andb_true_iff, Nat.eqb_eq. split.
  - intros [-> F]. split; [now exists b | assumption].
  - intros [[n [H1 H2]] F]. split; congruence.
Qed.

Lemma checkSyncCompletion_log source replica st :
  log (run (checkSyncCompletion source replica) st)
  = (if completion_due source replica st
     then log st ++ [SynchronizationComplete] else log st)
  /\ tree (run (checkSyncCompletion source replica) st) = tree st
  /\ clock (run (checkSyncCompletion source replica) st) = clock st.
Proof.
  unfold run, checkSyncCompletion, completion_due, bind.
  rewrite (countFilesAndDirectories_count source).
  destruct (entry_count (tree st) source) as [a|]; [|now repeat split].
  rewrite (countFilesAndDirectories_count replica).
  destruct (entry_count (tree st) replica) as [b|]; [|now repeat split].
  unfold get_changesMade.
  destruct (Nat.eqb a b && changesMade st); now repeat split.
Qed.

(** C3 (completion check).  [checkSyncCompletion] adds the
    "Synchronization complete" line to the log exactly when both roots can be
    counted, the number of regular files and directories below the source
    equals the number below the replica, and [changesMade] is set; in every
    other case it adds no line.  It never touches the tree. *)
Theorem completion_line_iff (source replica : path) (st : state) :
  let st' := run (checkSyncCompletion source replica) st in
  let counts_match :=
    exists n, entry_count (tree st) source = Some n
              /\ entry_count (tree st) replica = Some n in
  (log st' = log st ++ [SynchronizationComplete]
   <-> counts_match /\ changesMade st = true)
  /\ (log st' = log st <-> ~ (counts_match /\ changesMade st = true))
  /\ tree st' = tree st.
Proof.
  intros st' counts_match.
  destruct (checkSyncCompletion_log source replica st) as (L & T & _).
  fold st' in L, T. rewrite L. unfold counts_match.
  rewrite <- (completion_due_iff source replica st).
  destruct (completion_due source replica st).
  - split; [tauto|]. split; [|assumption]. split.
    + intros H. now apply app_one_neq in H.
    + intros H. now contradiction H.
  - split; [|split; [|assumption]].
    + split; [|discriminate]. intros H. symmetry in H. now apply app_one_neq in H.
    + split; [intros _; discriminate | reflexivity].
Qed.

(* ===================================================================== *)
(** * The Prune Reconciler                                                 *)
(* ===================================================================== *)

Lemma remove_entry_absent name es : find_entry name es = None -> remove_entry name es = es.
Proof.
  induction es as [|[n c] es IH]; simpl; [reflexivity|].
  destruct (String.eqb name n); [discriminate|]. intros H. now rewrite IH.
Qed.

Lemma set_entry_same name c es : find_entry name es = Some c -> set_entry name c es = es.
Proof.
  induction es as [|[n d] es IH]; simpl; [discriminate|].
  destruct (String.eqb name n); [now intros [= ->] | intros H; now rewrite IH].
Qed.

(** Removing what is not there changes nothing. *)
Lemma del_absent p : forall t, exists_at t p = false -> del t p = t.
Proof.
  unfold exists_at, status.
  induction p as [|a p IH]; intros t H; [reflexivity|].
  destruct t as [|es|]; try reflexivity.
  destruct p as [|b p].
  - simpl in *. destruct (find_entry a es) as [c|] eqn:F.
    + now destruct c.
    + now rewrite remove_entry_absent.
  - remember (b :: p) as bp eqn:Hbp.
    assert (D : del (Dir es) (a :: bp)
                = match find_entry a es with
                  | Some c => Dir (set_entry a (del c bp) es)
                  | None => Dir es
                  end) by now subst bp.
    rewrite D. cbn [lookup] in H.
    destruct (find_entry a es) as [c|] eqn:F; [|reflexivity].
    rewrite (IH c H). now rewrite set_entry_same.
Qed.

Lemma delete_loop_completes L : forall t, completes delete_action L t.
Proof. induction L as [|p L IH]; intros t; simpl; [exact I | apply IH]. Qed.

Lemma delete_loop_obs_off L : forall t q,
  (forall p, In p L -> under q p = false) ->
  obs (loop_tree delete_action L t) q = obs t q.
Proof.
  induction L as [|p L IH]; intros t q H; simpl; [reflexivity|].
  rewrite IH by (intros p' Hp'; apply H; now right).
  apply del_obs_off. apply H. now left.
Qed.

Lemma stale_in_iff source replica t es p :
  In p (stale_in source replica t es)
  <-> In p es /\ exists_at t (source ++ relative p replica) = false.
Proof. unfold stale_in. now rewrite filter_In, negb_true_iff. Qed.

Lemma syncDelete_loop source replica st es :
  entries_of (tree st) replica = Some es ->
  syncDelete source replica st
  = for_each (stale_in source replica (tree st) es) syncDelete_entry st.
Proof.
  intros E. unfold syncDelete, stale_entries, try_catch.
  unfold bind at 1. rewrite recursive_directory_iterator_entries, E.
  unfold bind at 1. fold (stale_in source replica (tree st) es).
  pose proof (completes_for_each delete_action syncDelete_entry syncDelete_entry_action
                (stale_in source replica (tree st) es) st (delete_loop_completes _ _)) as O.
  destruct (for_each (stale_in source replica (tree st) es) syncDelete_entry st)
    as [[[]|e] st'] eqn:F; simpl in O; [|discriminate].
  reflexivity.
Qed.

(** What the Prune Reconciler keeps: a replica entry whose place exists in
    the source, whatever is there. *)
Lemma prune_keeps source replica t es s :
  entries_of t replica = Some es ->
  exists_at t (source ++ s) = true ->
  obs (loop_tree delete_action (stale_in source replica t es) t) (replica ++ s)
  = obs t (replica ++ s).
Proof.
  intros E X. apply delete_loop_obs_off. intros p Hp.
  apply stale_in_iff in Hp as [Hin St].
  pose proof (entries_of_source_entry _ _ _ E) as Hes. rewrite Forall_forall in Hes.
  destruct (Hes p Hin) as (s' & -> & Hs'). rewrite relative_app in St.
  rewrite under_app_cancel. destruct (under s s') eqn:U; [|reflexivity].
  apply under_iff in U as [x ->]. rewrite app_assoc in X.
  apply exists_at_prefix in X. congruence.
Qed.

(** C6 (Prune Reconciler).  With the replica root a directory, the list
    [syncDelete] removes is fixed from the tree as it is before any removal:
    it holds exactly the entries found below the replica root whose
    counterpart in the source does not exist, and the removals are one
    [remove_all] per element of that list.  [remove_all] is recursive:
    nothing at or below the path is left, and nothing off the path changes.
    Applied to a path that does not exist, in particular to one already
    removed with an ancestor, it returns normally and leaves the state as it
    is. *)
Theorem prune_collects_then_removes (source replica : path) (st : state)
    (es : list path) :
  wf (tree st) = true ->
  entries_of (tree st) replica = Some es ->
  let stale := stale_in source replica (tree st) es in
  (forall p, In p stale <->
             exists s, p = replica ++ s /\ s <> []
                       /\ exists_at (tree st) p = true
                       /\ exists_at (tree st) (source ++ s) = false)
  /\ syncDelete source replica st = for_each stale syncDelete_entry st
  /\ tree (run (syncDelete source replica) st) = fold_left del stale (tree st)
  /\ (forall s p r, p <> [] -> exists_at (tree (run (remove_all p) s)) (p ++ r) = false)
  /\ (forall s p q, under q p = false ->
                    obs (tree (run (remove_all p) s)) q = obs (tree s) q)
  /\ (forall s p, exists_at (tree s) p = false ->
                  remove_all p s = (Ok tt, s))
  /\ (forall s p r, p <> [] ->
                    remove_all (p ++ r) (run (remove_all p) s)
                    = (Ok tt, run (remove_all p) s)).
Proof.
  intros W E stale.
  assert (Gone : forall s p r, p <> [] ->
            exists_at (tree (run (remove_all p) s)) (p ++ r) = false).
  { intros s p r Hp. unfold run, remove_all, with_tree. simpl.
    unfold exists_at, status. now rewrite del_lookup_below. }
  assert (Noop : forall s p, exists_at (tree s) p = false -> remove_all p s = (Ok tt, s)).
  { intros s p H. unfold remove_all, with_tree. rewrite (del_absent p _ H). now destruct s. }
  split; [|split; [|split; [|split; [|split; [|split]]]]].
  - intros p. unfold stale. rewrite stale_in_iff, (entries_of_In _ _ _ p W E). split.
    + intros [(s & -> & Hs & X) St]. rewrite relative_app in St. now exists s.
    + intros (s & -> & Hs & X & St). split; [now exists s | now rewrite relative_app].
  - now apply syncDelete_loop.
  - unfold run. rewrite (syncDelete_loop source replica st es E).
    rewrite (for_each_tree delete_action syncDelete_entry syncDelete_entry_action).
    fold stale. generalize (tree st). induction stale as [|p L IH]; intros t; simpl;
      [reflexivity | apply IH].
  - exact Gone.
  - intros s p q U. unfold run, remove_all, with_tree. simpl. now apply del_obs_off.
  - exact Noop.
  - intros s p r Hp. apply Noop. now apply Gone.
Qed.

Lemma prune_collects_then_removes_witness :
  let st := initial tidy_tree in
  let stale := [["r"; "stale"]%string; ["r"; "stale"; "x"]%string] in
  (forall p, In p stale <->
             exists s, p = ["r"%string] ++ s /\ s <> []
                       /\ exists_at (tree st) p = true
                       /\ exists_at (tree st) (["s"%string] ++ s) = false)
  /\ syncDelete ["s"%string] ["r"%string] st = for_each stale syncDelete_entry st
  /\ tree (run (syncDelete ["s"%string] ["r"%string]) st) = fold_left del stale (tree st)
  /\ (forall s p r, p <> [] -> exists_at (tree (run (remove_all p) s)) (p ++ r) = false)
  /\ (forall s p q, under q p = false ->
                    obs (tree (run (remove_all p) s)) q = obs (tree s) q)
  /\ (forall s p, exists_at (tree s) p = false ->
                  remove_all p s = (Ok tt, s))
  /\ (forall s p r, p <> [] ->
                    remove_all (p ++ r) (run (remove_all p) s)
                    = (Ok tt, run (remove_all p) s)).
Proof.
  apply (prune_collects_then_removes ["s"%string] ["r"%string] (initial tidy_tree)
           [["r"; "stale"]%string; ["r"; "stale"; "x"]%string; ["r"; "a.txt"]%string]).
  - reflexivity.
  - reflexivity.
Defined.



(** A regular file of the replica stays where the source has a directory:
    in [conflict_tree] the file [/r/d] is counted, is not stale, and is
    still a regular file after [syncDelete]. *)
Example prune_keeps_entry_of_other_kind :
  let st := initial conflict_tree in
  status (tree st) ["s"; "d"]%string = directory
  /\ status (tree st) ["r"; "d"]%string = regular
  /\ status (tree (run (syncDelete ["s"%string] ["r"%string]) st)) ["r"; "d"]%string = regular
  /\ log (run (syncDelete ["s"%string] ["r"%string]) st) = [].
Proof. repeat split; reflexivity. Qed.

(* ===================================================================== *)
(** * What a cycle may change                                              *)
(* ===================================================================== *)

Section Frame.

Variables source replica : path.

Lemma mirror_mutate_put t e t' line :
  mirror_action source replica t e = Mutate t' line ->
  put t (replica ++ relative e source) (Dir []) = Some t'.
Proof.
  unfold mirror_action. destruct (directory_at t e); [|discriminate].
  destruct (exists_at t _); [discriminate|].
  destruct (put t _ (Dir [])); [|discriminate]. now intros [= <- _].
Qed.

Lemma copy_mutate_put t e t' line :
  copy_action source replica t e = Mutate t' line ->
  put t (replica ++ relative e source) (File (read_all t e)) = Some t'.
Proof.
  unfold copy_action. destruct (regular_at t e); [|discriminate].
  destruct (directory_at t _); [discriminate|].
  destruct (should_copy t e _); [|discriminate].
  destruct (status t _); try discriminate;
    (destruct (path_eqb e _); [discriminate|]);
    (destruct (put t _ (File _)); [|discriminate]); now intros [= <- _].
Qed.

(** Every mutation of a cycle source replica binds or unbinds a path at or below the
    replica root: what those two operations keep, the cycle source replica keeps. *)
Lemma cycle_tree_invariant (P : node -> Prop) :
  (forall t r x t', P t -> put t (replica ++ r) x = Some t' -> P t') ->
  (forall t r, P t -> P (del t (replica ++ r))) ->
  forall t, P t -> P (cycle_tree source replica t).
Proof.
  intros Hput Hdel t Pt. unfold cycle_tree, ensure_replica.
  assert (G : forall t0, P t0 ->
    P (prune_tree source replica (copy_tree source replica (mirror_tree source replica t0)))).
  { intros t0 P0.
    assert (PM : P (mirror_tree source replica t0)).
    { unfold mirror_tree, reconcile_tree.
      destruct (entries_of t0 source) as [es|]; [|assumption].
      apply (loop_tree_invariant _ P); [|assumption].
      intros t1 e t2 line _ P1 M. apply mirror_mutate_put in M. exact (Hput t1 _ _ t2 P1 M). }
    set (tM := mirror_tree source replica t0) in *.
    assert (PC : P (copy_tree source replica tM)).
    { unfold copy_tree, reconcile_tree.
      destruct (entries_of tM source) as [es|]; [|assumption].
      apply (loop_tree_invariant _ P); [|assumption].
      intros t1 e t2 line _ P1 M. apply copy_mutate_put in M. exact (Hput t1 _ _ t2 P1 M). }
    set (tC := copy_tree source replica tM) in *.
    unfold prune_tree, reconcile_tree.
    destruct (entries_of tC replica) as [es|] eqn:E; [|assumption].
    apply (loop_tree_invariant _ P); [|assumption].
    intros t1 e t2 line He P1 M. inversion M; subst.
    apply stale_in_iff in He as [He _].
    pose proof (entries_of_source_entry _ _ _ E) as Hes. rewrite Forall_forall in Hes.
    destruct (Hes e He) as (s & -> & _). now apply Hdel. }
  destruct (exists_at t replica); [now apply G|].
  destruct (put t replica (Dir [])) as [t0|] eqn:Pu; [|assumption].
  apply G. apply (Hput t [] (Dir []) t0 Pt). now rewrite app_nil_r.
Qed.

(** Off the replica root nothing observable changes. *)
Lemma cycle_tree_off_replica t q :
  under q replica = false -> obs (cycle_tree source replica t) q = obs t q.
Proof.
  intros U.
  assert (Uo : forall r, under q (replica ++ r) = false).
  { intros r. destruct (under q (replica ++ r)) eqn:U'; [|reflexivity].
    rewrite (under_trans q (replica ++ r) replica U' (under_app replica r)) in U.
    discriminate. }
  apply (cycle_tree_invariant (fun t' => obs t' q = obs t q)); [| |reflexivity].
  - intros t1 r x t2 H Pu. rewrite <- H. now apply (put_obs_off _ _ _ _ _ Pu).
  - intros t1 r H. rewrite <- H. now apply del_obs_off.
Qed.

(** With the roots apart the source subtree is literally the same. *)
Lemma cycle_tree_source t :
  apart source replica -> lookup (cycle_tree source replica t) source = lookup t source.
Proof.
  intros A.
  apply (cycle_tree_invariant (fun t' => lookup t' source = lookup t source)); [| |reflexivity].
  - intros t1 r x t2 H Pu. rewrite <- H. apply (put_lookup_apart _ _ _ _ _ Pu).
    apply apart_sym, apart_app_l, apart_sym, A.
  - intros t1 r H. rewrite <- H. apply del_lookup_apart.
    apply apart_sym, apart_app_l, apart_sym, A.
Qed.

Lemma cycle_tree_run st : tree (run (cycle source replica) st) = cycle_tree source replica (tree st).
Proof.
  unfold run, cycle. rewrite (bind_ok _ _ st tt (syncFolders_ok source replica st)).
  destruct (checkSyncCompletion_log source replica (snd (syncFolders source replica st)))
    as (_ & T & _).
  unfold run in T. rewrite T. apply syncFolders_tree.
Qed.

End Frame.

(** Whatever the log path names, an append changes nothing beside it. *)
Lemma append_to_file_frame t p bytes t' q :
  append_to_file t p bytes = Some t' -> q <> p -> obs t' q = obs t q.
Proof.
  unfold append_to_file. intros A Hq. destruct (status t p) eqn:S.
  - apply (put_leaf_obs _ _ _ _ _ A (leaf_File _)); [|exact Hq].
    left. unfold exists_at. now rewrite S.
  - apply (put_leaf_obs _ _ _ _ _ A (leaf_File _)); [|exact Hq].
    right. unfold regular_at. now rewrite S.
  - discriminate.
  - now inversion A.
Qed.

(** The logger writes to its file and to nothing else. *)
Lemma logOperation_on_file_frame logFilePath now_tm message w q :
  q <> path_of_string logFilePath ->
  obs (fst (logOperation_on_file logFilePath now_tm message w)) q = obs (fst w) q.
Proof.
  intros Hq. unfold logOperation_on_file.
  destruct (append_to_file (fst w) (path_of_string logFilePath) _) as [t'|] eqn:A;
    [|reflexivity].
  exact (append_to_file_frame _ _ _ _ _ A Hq).
Qed.

(** C9, as amended (the source is left alone).  Every mutation of a cycle
    binds or unbinds a path at or below the replica root, and a line that
    [logOperation] writes goes to the log file and changes nothing beside
    it.  So, the log file aside, after any number of cycles every path that
    is not at or below the replica root shows the same type and the same
    bytes, whatever the two roots are; and when neither root lies under the
    other, the whole source subtree is what it was. *)
Theorem cycles_leave_source_unchanged (source replica : path) (n : nat) (st : state) :
  (forall q, under q replica = false ->
             obs (tree (cycles source replica n st)) q = obs (tree st) q)
  /\ (forall logFilePath now_tm message w q,
        q <> path_of_string logFilePath ->
        obs (fst (logOperation_on_file logFilePath now_tm message w)) q = obs (fst w) q)
  /\ (apart source replica ->
      lookup (tree (cycles source replica n st)) source = lookup (tree st) source
      /\ forall r, obs (tree (cycles source replica n st)) (source ++ r)
                   = obs (tree st) (source ++ r)).
Proof.
  split; [|split].
  - revert st. induction n as [|n IH]; intros st q U; simpl; [reflexivity|].
    rewrite (IH _ q U), cycle_tree_run. now apply cycle_tree_off_replica.
  - intros logFilePath now_tm message w q Hq. now apply logOperation_on_file_frame.
  - intros A.
    assert (L : forall n st,
              lookup (tree (cycles source replica n st)) source = lookup (tree st) source).
    { clear n st. induction n as [|n IH]; intros st; simpl; [reflexivity|].
      rewrite IH, cycle_tree_run. now apply cycle_tree_source. }
    split; [apply L|].
    intros r. unfold obs. now rewrite !lookup_app, L.
Qed.

Lemma cycles_leave_source_unchanged_witness :
  let st3 := cycles ["s"%string] ["r"%string] 3 (initial tidy_tree) in
  lookup (tree st3) ["s"%string] = lookup tidy_tree ["s"%string]
  /\ forall r, obs (tree st3) (["s"%string] ++ r) = obs tidy_tree (["s"%string] ++ r).
Proof.
  apply (proj2 (proj2 (cycles_leave_source_unchanged ["s"%string] ["r"%string] 3
                         (initial tidy_tree)))).
  split; reflexivity.
Defined.

(** C9, as stated, fails: with the source inside the replica, the Prune
    Reconciler finds no [/r/s/s] in the source, takes the replica entry
    [/r/s] for stale and removes it: one cycle removes the whole source. *)
Lemma cycle_removes_source_inside_replica :
  let st := initial nested_tree in
  let st' := run (syncFolders ["r"; "s"]%string ["r"%string]) st in
  wf nested_tree = true
  /\ directory_at (tree st) ["r"; "s"]%string = true
  /\ read_all (tree st) ["r"; "s"; "a"]%string = bytes_of_string "X"
  /\ exists_at (tree st') ["r"; "s"]%string = false
  /\ exists_at (tree st') ["r"; "s"; "a"]%string = false
  /\ log st' = [CopiedFile ["r"; "s"; "a"]%string ["r"; "a"]%string;
                Removed ["r"; "s"]%string;
                Removed ["r"; "s"; "a"]%string].
Proof. repeat split; reflexivity. Qed.

(* ===================================================================== *)
(** * The run loop and the clock                                          *)
(* ===================================================================== *)

Lemma isSourceValid_cases source st :
  isSourceValid source st = (Ok true, st)
  \/ exists st1, isSourceValid source st = (Ok false, st1).
Proof.
  unfold isSourceValid, bind, fs_exists, is_directory.
  destruct (exists_at (tree st) source); simpl; [|right; now eexists].
  destruct (directory_at (tree st) source); simpl; [now left | right; now eexists].
Qed.

Lemma checkSyncCompletion_clock source replica st :
  clock (snd (checkSyncCompletion source replica st)) = clock st.
Proof. now destruct (checkSyncCompletion_log source replica st) as (_ & _ & C). Qed.

(** The time [sleep_for] lets go by. *)
Lemma sleep_for_clock ns st :
  fst (sleep_for ns st) = Ok tt
  /\ clock (snd (sleep_for ns st)) = (clock st + Z.max 0 ns)%Z.
Proof.
  unfold sleep_for. destruct (Z.leb_spec ns 0); simpl; split; try reflexivity; lia.
Qed.

(** A pass through the loop body goes through, leaves the loop with
    [return 1], or lets an exception of the completion check escape. *)
Lemma loop_body_cases source replica interval work st :
  (exists st', loop_body source replica interval work st = (Ok None, st')
               /\ clock st'
                  = (clock st + work + Z.max 0 (nanoseconds_of_seconds interval - work))%Z)
  \/ (exists st', loop_body source replica interval work st = (Ok (Some 1%Z), st'))
  \/ (exists e st', loop_body source replica interval work st = (Throw e, st')).
Proof.
  destruct (loop_body source replica interval work st) as [o st'] eqn:E.
  revert E. unfold loop_body. unfold bind at 1.
  destruct (isSourceValid_cases source st) as [V|[st1 V]]; rewrite V; cbn [negb].
  { unfold bind at 1, steady_now.
    rewrite (bind_ok _ _ st tt (syncFolders_ok source replica st)).
    pose proof (syncFolders_clock source replica st) as C1.
    set (st2 := snd (syncFolders source replica st)) in *.
    unfold bind at 1.
    pose proof (checkSyncCompletion_clock source replica st2) as C2.
    destruct (checkSyncCompletion source replica st2) as [[[]|e] st3]; simpl in C2.
    - unfold bind at 1, elapse. unfold bind at 1, steady_now. cbn [clock].
      set (st4 := State (tree st3) (changesMade st3) (log st3) (clock st3 + work)).
      unfold bind at 1.
      destruct (sleep_for_clock
                  (nanoseconds_of_seconds interval - (clock st3 + work - clock st)) st4)
        as [O S].
      destruct (sleep_for _ st4) as [[[]|e] st5]; simpl in O, S; [|discriminate].
      unfold ret. intros [= <- <-]. left. exists st5. split; [reflexivity|].
      subst st4. simpl in S. rewrite S, C2, C1. do 2 f_equal. lia.
    - intros [= <- <-]. right. right. now do 2 eexists. }
  unfold bind, logOperation, ret. simpl. intros [= <- <-]. right. left. now eexists.
Qed.

(** C8 (interval accounting).  Take a pass through the loop body that goes
    through (the source is valid, nothing uncaught is thrown), the two calls
    taking [work] nanoseconds of wall-clock time.  The sleep that follows
    lasts the configured interval minus [work] when [work] is below the
    interval, and no time at all otherwise: the next pass starts
    [max work interval] after this one started, and the sleep is never
    negative. *)
Theorem interval_accounting (source replica : path) (interval work : Z) (st : state) :
  result (loop_body source replica interval work) st = Ok None ->
  let st' := run (loop_body source replica interval work) st in
  let slept := (clock st' - (clock st + work))%Z in
  ((work < nanoseconds_of_seconds interval)%Z ->
   slept = (nanoseconds_of_seconds interval - work)%Z)
  /\ ((nanoseconds_of_seconds interval <= work)%Z -> slept = 0%Z)
  /\ (0 <= slept)%Z
  /\ clock st' = (clock st + Z.max work (nanoseconds_of_seconds interval))%Z.
Proof.
  unfold result, run. intros H.
  destruct (loop_body_cases source replica interval work st)
    as [(st1 & E & C)|[(st1 & E)|(e & st1 & E)]]; rewrite E in *; simpl in *;
    try discriminate.
  rewrite C. repeat split; lia.
Qed.

Lemma interval_accounting_witness :
  let st := initial tidy_tree in
  let st' := run (loop_body ["s"%string] ["r"%string] 5 2000000000) st in
  let slept := (clock st' - (clock st + 2000000000))%Z in
  ((2000000000 < nanoseconds_of_seconds 5)%Z ->
   slept = (nanoseconds_of_seconds 5 - 2000000000)%Z)
  /\ ((nanoseconds_of_seconds 5 <= 2000000000)%Z -> slept = 0%Z)
  /\ (0 <= slept)%Z
  /\ clock st' = (clock st + Z.max 2000000000 (nanoseconds_of_seconds 5))%Z.
Proof.
  apply (interval_accounting ["s"%string] ["r"%string] 5 2000000000 (initial tidy_tree)).
  vm_compute. reflexivity.
Defined.

(** A pass that takes 7 s with an interval of 5 s is followed by no sleep. *)
Example overrun_is_followed_at_once :
  clock (run (loop_body ["s"%string] ["r"%string] 5 7000000000) (initial tidy_tree))
  = 7000000000%Z.
Proof. vm_compute. reflexivity. Qed.

(* ===================================================================== *)
(** * The scenarios of the specification                                   *)
(* ===================================================================== *)

Definition scenario (t : node) : state :=
  run (cycle ["s"%string] ["r"%string]) (initial t).

(** Source empty, replica missing: the replica is made, and the completion
    line follows (both counts are 0 and the flag is set). *)
Example scenario_replica_missing :
  let st := scenario (Dir [("s"%string, Dir [])]) in
  tree st = Dir [("s"%string, Dir []); ("r"%string, Dir [])]
  /\ log st = [CreatedReplicaDirectory ["r"%string]; SynchronizationComplete].
Proof. split; reflexivity. Qed.

(** A file of the source missing in the replica is copied. *)
Example scenario_copy :
  let st := scenario (Dir [("s"%string, Dir [("a.txt"%string, File (bytes_of_string "X"))]);
                           ("r"%string, Dir [])]) in
  read_all (tree st) ["r"; "a.txt"]%string = bytes_of_string "X"
  /\ log st = [CopiedFile ["s"; "a.txt"]%string ["r"; "a.txt"]%string;
               SynchronizationComplete].
Proof. split; reflexivity. Qed.

(** A file that is already there with the same content is left alone. *)
Example scenario_same_content :
  let t := Dir [("s"%string, Dir [("a.txt"%string, File (bytes_of_string "X"))]);
                ("r"%string, Dir [("a.txt"%string, File (bytes_of_string "X"))])] in
  tree (scenario t) = t /\ log (scenario t) = [] /\ changesMade (scenario t) = false.
Proof. repeat split; vm_compute; reflexivity. Qed.

(** A file of the replica that the source does not have is removed. *)
Example scenario_stale :
  let st := scenario (Dir [("s"%string, Dir []);
                           ("r"%string, Dir [("stale.txt"%string, File [])])]) in
  exists_at (tree st) ["r"; "stale.txt"]%string = false
  /\ log st = [Removed ["r"; "stale.txt"]%string; SynchronizationComplete].
Proof. split; reflexivity. Qed.

(** A source that is gone ends the loop with [return 1]. *)
Example scenario_source_gone :
  loop_body ["s"%string] ["r"%string] 5 0 (initial (Dir []))
  = (Ok (Some 1%Z), State (Dir []) false [SourceMissing; SourceGone] 0).
Proof. reflexivity. Qed.

(* ===================================================================== *)
(** * Nothing stale outlives a cycle                                       *)
(* ===================================================================== *)



Lemma entries_of_directory t root es :
  entries_of t root = Some es -> directory_at t root = true.
Proof.
  unfold entries_of, directory_at, status.
  destruct (lookup t root) as [[]|]; try discriminate. reflexivity.
Qed.



(* ===================================================================== *)
(** * The flag, the log and the tree                                       *)
(* ===================================================================== *)

Lemma logged_nil st : logged [] st st.
Proof.
  repeat split; [now rewrite app_nil_r | simpl; now rewrite orb_false_r].
Qed.

Lemma logged_app l1 l2 st1 st2 st3 :
  logged l1 st1 st2 -> logged l2 st2 st3 -> logged (l1 ++ l2) st1 st3.
Proof.
  intros (L1 & F1 & T1) (L2 & F2 & T2). repeat split.
  - now rewrite L2, L1, app_assoc.
  - now rewrite F2, F1, existsb_app, orb_assoc.
  - rewrite existsb_app. intros H. apply orb_false_iff in H as [H1 H2].
    now rewrite (T2 H2), (T1 H1).
Qed.

Lemma error_lines_app l1 l2 : error_lines (l1 ++ l2) = error_lines l1 + error_lines l2.
Proof. unfold error_lines. now rewrite filter_app, length_app. Qed.

Lemma log_exception_logged e st :
  logged [exception_line e] st (snd (log_exception e st)).
Proof.
  rewrite log_exception_add_line. destruct e; repeat split; simpl;
    now rewrite orb_false_r.
Qed.

Section Logged.

Variable act : node -> path -> action.
Variable body : path -> M unit.
Hypothesis body_act :
  forall e st, body e st = apply_action (act (tree st) e) st.
Hypothesis mutation_lines :
  forall t e t' line, act t e = Mutate t' line -> is_mutation_line line = true.

Lemma loop_lines_quiet es : forall t,
  existsb is_mutation_line (loop_lines act es t) = false -> loop_tree act es t = t.
Proof.
  induction es as [|e es IH]; intros t H; simpl in *; [reflexivity|].
  destruct (act t e) eqn:E; [now apply IH | | reflexivity].
  simpl in H. rewrite (mutation_lines t e t' line E) in H. discriminate.
Qed.

Lemma loop_lines_no_error es : forall t, error_lines (loop_lines act es t) = 0.
Proof.
  unfold error_lines. induction es as [|e es IH]; intros t; simpl; [reflexivity|].
  destruct (act t e) eqn:E; [apply IH | | reflexivity].
  simpl. rewrite (mutation_lines t e t' line E). simpl. apply IH.
Qed.

Lemma for_each_flag es : forall st,
  changesMade (snd (for_each es body st))
  = changesMade st || existsb is_mutation_line (loop_lines act es (tree st)).
Proof.
  induction es as [|e es IH]; intros st; simpl; [now rewrite orb_false_r|].
  unfold bind. rewrite body_act.
  destruct (act (tree st) e) eqn:E; simpl; [apply IH | | now rewrite orb_false_r].
  rewrite IH. simpl. rewrite (mutation_lines _ _ _ _ E). simpl. now rewrite orb_true_r.
Qed.

Lemma for_each_logged es st :
  logged (loop_lines act es (tree st)) st (snd (for_each es body st)).
Proof.
  repeat split.
  - apply (for_each_log act body body_act).
  - apply for_each_flag.
  - intros H. rewrite (for_each_tree act body body_act). now apply loop_lines_quiet.
Qed.

Variable root : path.
Variable select : node -> list path -> list path.

(** What a reconciler logs: the lines of its loop, then the line of the
    exception that ended it, if any. *)
Lemma reconcile_logged st :
  exists lines, logged lines st (snd (reconcile body root select st))
                /\ error_lines lines <= 1.
Proof.
  unfold reconcile, try_catch, bind.
  rewrite recursive_directory_iterator_entries.
  destruct (entries_of (tree st) root) as [es|].
  - pose proof (for_each_logged (select (tree st) es) st) as L.
    pose proof (loop_lines_no_error (select (tree st) es) (tree st)) as N.
    destruct (for_each (select (tree st) es) body st) as [[[]|e] st']; simpl in L.
    + eexists. split; [exact L | lia].
    + eexists. split; [exact (logged_app _ _ _ _ _ L (log_exception_logged e st'))|].
      rewrite error_lines_app, N. now destruct e.
  - eexists. split; [apply log_exception_logged | now destruct (iterator_error root)].
Qed.

End Logged.

Lemma mirror_action_line source replica t e t' line :
  mirror_action source replica t e = Mutate t' line -> is_mutation_line line = true.
Proof.
  unfold mirror_action. destruct (directory_at t e); [|discriminate].
  destruct (exists_at t _); [discriminate|].
  destruct (put t _ (Dir [])); [|discriminate]. now intros [= _ <-].
Qed.

Lemma copy_action_line source replica t e t' line :
  copy_action source replica t e = Mutate t' line -> is_mutation_line line = true.
Proof.
  unfold copy_action. destruct (regular_at t e); [|discriminate].
  destruct (directory_at t _); [discriminate|].
  destruct (should_copy t e _); [|discriminate].
  destruct (status t _); try discriminate;
    (destruct (path_eqb e _); [discriminate|]);
    (destruct (put t _ (File _)); [|discriminate]); now intros [= _ <-].
Qed.

Lemma delete_action_line t e t' line :
  delete_action t e = Mutate t' line -> is_mutation_line line = true.
Proof. now intros [= _ <-]. Qed.

Lemma reconcilers_logged source replica st :
  exists lines, logged lines st (snd (reconcilers source replica st))
                /\ error_lines lines <= 3.
Proof.
  rewrite reconcilers_unfold.
  destruct (reconcile_logged _ _ (syncSubdirectories_entry_action source replica)
              (mirror_action_line source replica) source all_entries st) as [l1 [L1 N1]].
  set (st1 := snd (reconcile (syncSubdirectories_entry source replica) source all_entries st))
    in *.
  destruct (reconcile_logged _ _ (syncCopy_entry_action source replica)
              (copy_action_line source replica) source all_entries st1) as [l2 [L2 N2]].
  set (st2 := snd (reconcile (syncCopy_entry source replica) source all_entries st1)) in *.
  destruct (reconcile_logged _ _ syncDelete_entry_action delete_action_line
              replica (stale_in source replica) st2) as [l3 [L3 N3]].
  exists ((l1 ++ l2) ++ l3). split.
  - exact (logged_app _ _ _ _ _ (logged_app _ _ _ _ _ L1 L2) L3).
  - rewrite !error_lines_app. lia.
Qed.

(** What [syncFolders] logs, from the flag lowered at its start. *)
Lemma syncFolders_logged source replica st :
  exists lines, logged lines (reset_flag st) (snd (syncFolders source replica st))
                /\ error_lines lines <= 3.
Proof.
  rewrite syncFolders_unfold.
  destruct (exists_at (tree st) replica); [apply reconcilers_logged|].
  destruct (put (tree st) replica (Dir [])) as [t0|].
  2:{ eexists. split; [apply log_exception_logged | unfold error_lines; simpl; lia]. }
  destruct (reconcilers_logged source replica
              (State t0 true (log st ++ [CreatedReplicaDirectory replica]) (clock st)))
    as [lines [(L & F & T) N]].
  exists (CreatedReplicaDirectory replica :: lines). split; [repeat split|exact N].
  - rewrite L. simpl. now rewrite <- app_assoc.
  - rewrite F. reflexivity.
  - discriminate.
Qed.

(** X2 (what [syncFolders] logs and flags).  With the two roots apart,
    whatever the tree and the errors met, one call of [syncFolders] returns
    normally: no exception leaves it.  The lines it adds to the log and the
    flag it
    leaves agree: [changesMade] is true at the end exactly when one of the
    added lines reports a created directory, a copied file or a removal;
    when it is false the tree is what it was.  At most three of the added
    lines report an error: each reconciler stops at the first exception it
    meets. *)
Theorem changesMade_iff_mutation_logged (source replica : path) (st : state) :
  apart source replica ->
  let st' := run (syncFolders source replica) st in
  result (syncFolders source replica) st = Ok tt
  /\ exists lines,
       log st' = log st ++ lines
       /\ (changesMade st' = true <-> exists m, In m lines /\ is_mutation_line m = true)
       /\ (changesMade st' = false -> tree st' = tree st)
       /\ error_lines lines <= 3.
Proof.
  intros _ st'. split; [apply syncFolders_ok|].
  destruct (syncFolders_logged source replica st) as [lines [(L & F & T) N]].
  fold (run (syncFolders source replica) st) in L, F, T. fold st' in L, F, T.
  simpl in L, F, T. exists lines. split; [exact L|]. split; [|split; [|exact N]].
  - rewrite F. apply existsb_exists.
  - rewrite F. exact T.
Qed.

Lemma changesMade_iff_mutation_logged_witness :
  let st := initial blocked_tree in
  let st' := run (syncFolders ["s"%string] ["r"%string]) st in
  result (syncFolders ["s"%string] ["r"%string]) st = Ok tt
  /\ exists lines,
       log st' = log st ++ lines
       /\ (changesMade st' = true <-> exists m, In m lines /\ is_mutation_line m = true)
       /\ (changesMade st' = false -> tree st' = tree st)
       /\ error_lines lines <= 3.
Proof.
  apply (changesMade_iff_mutation_logged ["s"%string] ["r"%string] (initial blocked_tree)).
  split; reflexivity.
Defined.

Lemma cycle_run source replica st :
  run (cycle source replica) st
  = run (checkSyncCompletion source replica) (run (syncFolders source replica) st).
Proof.
  unfold run, cycle. now rewrite (bind_ok _ _ st tt (syncFolders_ok source replica st)).
Qed.

(** X3 (no completion line without a change).  In one cycle of the run
    loop, [syncFolders] followed by [checkSyncCompletion], the
    "Synchronization complete" line is added exactly when the two counts
    taken after the synchronization agree and the synchronization itself
    has logged a created directory, a copied file or a removal; the check
    adds no other line; and a cycle whose synchronization logs no such line
    leaves the tree as it found it and reports no completion. *)
Theorem completion_line_needs_a_mutation (source replica : path) (st : state) :
  let st1 := run (syncFolders source replica) st in
  let st2 := run (cycle source replica) st in
  exists lines,
    log st1 = log st ++ lines
    /\ (log st2 = log st1 ++ [SynchronizationComplete]
        <-> (exists n, entry_count (tree st1) source = Some n
                       /\ entry_count (tree st1) replica = Some n)
            /\ exists m, In m lines /\ is_mutation_line m = true)
    /\ (log st2 = log st1 \/ log st2 = log st1 ++ [SynchronizationComplete])
    /\ ((forall m, In m lines -> is_mutation_line m = false) ->
        tree st2 = tree st /\ log st2 = log st ++ lines).
Proof.
  intros st1 st2.
  destruct (syncFolders_logged source replica st) as [lines [(L & F & T) _]].
  fold (run (syncFolders source replica) st) in L, F, T. fold st1 in L, F, T.
  simpl in L, F, T.
  destruct (checkSyncCompletion_log source replica st1) as (L2 & T2 & _).
  assert (E2 : st2 = run (checkSyncCompletion source replica) st1) by apply cycle_run.
  rewrite <- E2 in L2, T2.
  pose proof (completion_due_iff source replica st1) as D.
  exists lines. split; [exact L|]. split; [|split].
  - rewrite <- (existsb_exists is_mutation_line lines), <- F, <- D, L2.
    destruct (completion_due source replica st1); split; intros H;
      try reflexivity; try discriminate.
    symmetry in H. now apply app_one_neq in H.
  - rewrite L2. destruct (completion_due source replica st1); [now right | now left].
  - intros N.
    assert (Q : existsb is_mutation_line lines = false).
    { destruct (existsb is_mutation_line lines) eqn:Q; [|reflexivity].
      apply existsb_exists in Q as (m & Hm & Q). rewrite (N m Hm) in Q. discriminate. }
    rewrite T2, (T Q). split; [reflexivity|]. rewrite L2.
    assert (D' : completion_due source replica st1 = false).
    { destruct (completion_due source replica st1) eqn:D'; [|reflexivity].
      destruct D as [D _]. destruct (D eq_refl) as [_ C]. rewrite F, Q in C. discriminate. }
    now rewrite D'.
Qed.

(* ===================================================================== *)
(** * How a pass through the run loop ends                                *)
(* ===================================================================== *)

Lemma isSourceValid_run source st :
  isSourceValid source st
  = if directory_at (tree st) source then (Ok true, st)
    else (Ok false, add_line (invalid_source_line (tree st) source) st).
Proof.
  unfold isSourceValid, bind, fs_exists, is_directory, invalid_source_line,
    exists_at, directory_at.
  destruct (status (tree st) source) eqn:S; simpl; rewrite ?S; reflexivity.
Qed.

Lemma entry_count_None t dir : entry_count t dir = None <-> directory_at t dir = false.
Proof.
  unfold entry_count, entries_of, directory_at, status.
  destruct (lookup t dir) as [[]|]; split; intros H; try reflexivity; discriminate.
Qed.

(** The three reconcilers bind and unbind paths strictly below the replica
    root only. *)
Lemma reconcilers_tree_invariant source replica (P : node -> Prop) :
  (forall t r x t', r <> [] -> P t -> put t (replica ++ r) x = Some t' -> P t') ->
  (forall t r, r <> [] -> P t -> P (del t (replica ++ r))) ->
  forall t, P t ->
  P (prune_tree source replica (copy_tree source replica (mirror_tree source replica t))).
Proof.
  intros Hput Hdel t0 P0.
  assert (PM : P (mirror_tree source replica t0)).
  { unfold mirror_tree, reconcile_tree.
    destruct (entries_of t0 source) as [es|] eqn:E; [|assumption].
    pose proof (entries_of_source_entry _ _ _ E) as Hes. rewrite Forall_forall in Hes.
    apply (loop_tree_invariant _ P); [|assumption].
    intros t1 e t2 line He P1 M. apply mirror_mutate_put in M.
    destruct (Hes e He) as (r & -> & Hr). rewrite relative_app in M.
    exact (Hput t1 r _ t2 Hr P1 M). }
  set (tM := mirror_tree source replica t0) in *.
  assert (PC : P (copy_tree source replica tM)).
  { unfold copy_tree, reconcile_tree.
    destruct (entries_of tM source) as [es|] eqn:E; [|assumption].
    pose proof (entries_of_source_entry _ _ _ E) as Hes. rewrite Forall_forall in Hes.
    apply (loop_tree_invariant _ P); [|assumption].
    intros t1 e t2 line He P1 M. apply copy_mutate_put in M.
    destruct (Hes e He) as (r & -> & Hr). rewrite relative_app in M.
    exact (Hput t1 r _ t2 Hr P1 M). }
  set (tC := copy_tree source replica tM) in *.
  unfold prune_tree, reconcile_tree.
  destruct (entries_of tC replica) as [es|] eqn:E; [|assumption].
  apply (loop_tree_invariant _ P); [|assumption].
  intros t1 e t2 line He P1 M. inversion M; subst.
  apply stale_in_iff in He as [He _].
  pose proof (entries_of_source_entry _ _ _ E) as Hes. rewrite Forall_forall in Hes.
  destruct (Hes e He) as (s & -> & Hs). now apply Hdel.
Qed.

Lemma under_longer (p r : path) : r <> [] -> under p (p ++ r) = false.
Proof.
  intros Hr. rewrite <- (app_nil_r p) at 1. rewrite under_app_cancel.
  destruct r; [contradiction | reflexivity].
Qed.

(** They leave the replica root itself as it is. *)
Lemma reconcilers_replica_root source replica t :
  obs (prune_tree source replica (copy_tree source replica (mirror_tree source replica t)))
      replica
  = obs t replica.
Proof.
  apply (reconcilers_tree_invariant source replica (fun t' => obs t' replica = obs t replica));
    [| |reflexivity].
  - intros t1 r x t2 Hr H Pu. rewrite <- H.
    apply (put_obs_off _ _ _ _ _ Pu). now apply under_longer.
  - intros t1 r Hr H. rewrite <- H. apply del_obs_off. now apply under_longer.
Qed.

Lemma exists_at_nil t : exists_at t [] = true.
Proof. unfold exists_at, status. simpl. now destruct t. Qed.

(** After [syncFolders] the replica root is a directory exactly when it was
    one, or was missing below a directory. *)
Lemma cycle_tree_replica_ready source replica t :
  directory_at (cycle_tree source replica t) replica = replica_ready replica t.
Proof.
  unfold cycle_tree, ensure_replica, replica_ready.
  destruct (exists_at t replica) eqn:X.
  - rewrite (obs_directory_at _ _ _ _ (reconcilers_replica_root source replica t)).
    simpl. now rewrite orb_false_r.
  - assert (D : directory_at t replica = false).
    { unfold exists_at in X. unfold directory_at. now destruct (status t replica). }
    assert (Hr : replica <> []) by (intros ->; rewrite exists_at_nil in X; discriminate).
    rewrite D. simpl.
    pose proof (put_None_iff replica t (Dir []) Hr) as PN.
    destruct (put t replica (Dir [])) as [t0|] eqn:Pu.
    + rewrite (obs_directory_at _ _ _ _ (reconcilers_replica_root source replica t0)).
      unfold directory_at at 1. rewrite status_obs, (put_obs_at _ _ _ _ Pu). simpl.
      destruct (directory_at t (removelast replica)); [reflexivity|].
      destruct PN as [_ PN]. discriminate (PN eq_refl).
    + rewrite D. symmetry. now apply PN.
Qed.

(** With a replica root that is neither a directory nor makeable, no
    reconciler can bind anything: the cycle leaves the tree as it is. *)
Lemma cycle_tree_not_ready source replica t :
  replica_ready replica t = false -> cycle_tree source replica t = t.
Proof.
  unfold replica_ready. intros H. apply orb_false_iff in H as [D H].
  assert (NoPut : forall r x, r <> [] -> put t (replica ++ r) x = None).
  { intros r x Hr. apply put_None_iff; [destruct replica, r; simpl; congruence|].
    rewrite removelast_app_ne by assumption.
    destruct (directory_at t (replica ++ removelast r)) eqn:D'; [|reflexivity].
    destruct (removelast r) as [|a p].
    - rewrite app_nil_r in D'. congruence.
    - unfold directory_at, status in D'.
      destruct (lookup t (replica ++ a :: p)) as [n|] eqn:L; [|discriminate].
      apply lookup_below_dir in L. congruence. }
  unfold cycle_tree, ensure_replica.
  destruct (exists_at t replica) eqn:X.
  - apply (reconcilers_tree_invariant source replica (fun t' => t' = t)); [| |reflexivity].
    + intros t1 r x t2 Hr -> Pu. rewrite (NoPut r x Hr) in Pu. discriminate.
    + intros t1 r Hr ->. apply del_absent.
      destruct (exists_at t (replica ++ r)) eqn:Xr; [|reflexivity].
      destruct r as [|a r]; [contradiction|].
      unfold exists_at, status in Xr.
      destruct (lookup t (replica ++ a :: r)) as [n|] eqn:L; [|discriminate].
      apply lookup_below_dir in L. congruence.
  - simpl in H.
    assert (Hr : replica <> []) by (intros ->; rewrite exists_at_nil in X; discriminate).
    apply (put_None_iff replica t (Dir []) Hr) in H. now rewrite H.
Qed.

Lemma checkSyncCompletion_result source replica st :
  match entry_count (tree st) source, entry_count (tree st) replica with
  | Some _, Some _ => fst (checkSyncCompletion source replica st) = Ok tt
  | None, _ => checkSyncCompletion source replica st = (Throw (iterator_error source), st)
  | Some _, None =>
      checkSyncCompletion source replica st = (Throw (iterator_error replica), st)
  end.
Proof.
  pose proof (countFilesAndDirectories_count source st) as Cs.
  pose proof (countFilesAndDirectories_count replica st) as Cr.
  destruct (entry_count (tree st) source) as [a|];
    [destruct (entry_count (tree st) replica) as [b|]|];
    unfold checkSyncCompletion; unfold bind at 1; rewrite Cs; try reflexivity;
    unfold bind at 1; rewrite Cr; try reflexivity.
  unfold bind, get_changesMade. now destruct (Nat.eqb a b && changesMade st).
Qed.

Lemma loop_body_invalid source replica interval work st :
  directory_at (tree st) source = false ->
  loop_body source replica interval work st
  = (Ok (Some 1%Z),
     State (tree st) (changesMade st)
           (log st ++ [invalid_source_line (tree st) source; SourceGone]) (clock st)).
Proof.
  intros V. unfold loop_body. unfold bind at 1. rewrite isSourceValid_run, V.
  unfold bind, logOperation, ret, add_line. simpl. now rewrite <- app_assoc.
Qed.

(** A pass that finds its source valid, statement by statement. *)
Lemma loop_body_run source replica interval work st :
  directory_at (tree st) source = true ->
  loop_body source replica interval work st
  = match checkSyncCompletion source replica (run (syncFolders source replica) st) with
    | (Ok _, st2) =>
        (Ok None,
         snd (sleep_for (nanoseconds_of_seconds interval - (clock st2 + work - clock st))
                (State (tree st2) (changesMade st2) (log st2) (clock st2 + work))))
    | (Throw e, st2) => (Throw e, st2)
    end.
Proof.
  intros V. unfold loop_body. unfold bind at 1. rewrite isSourceValid_run, V.
  cbn [negb]. unfold bind at 1, steady_now.
  rewrite (bind_ok _ _ st tt (syncFolders_ok source replica st)).
  fold (run (syncFolders source replica) st).
  unfold bind at 1.
  destruct (checkSyncCompletion source replica (run (syncFolders source replica) st))
    as [[[]|e] st2]; [|reflexivity].
  unfold bind, elapse, steady_now, sleep_for, ret. simpl.
  now destruct (nanoseconds_of_seconds interval - (clock st2 + work - clock st) <=? 0)%Z.
Qed.

Lemma loop_body_valid source replica interval work st :
  directory_at (tree st) source = true ->
  let st1 := run (syncFolders source replica) st in
  match entry_count (tree st1) source, entry_count (tree st1) replica with
  | Some _, Some _ => result (loop_body source replica interval work) st = Ok None
  | None, _ =>
      loop_body source replica interval work st = (Throw (iterator_error source), st1)
  | Some _, None =>
      loop_body source replica interval work st = (Throw (iterator_error replica), st1)
  end.
Proof.
  intros V st1.
  pose proof (loop_body_run source replica interval work st V) as B. fold st1 in B.
  pose proof (checkSyncCompletion_result source replica st1) as C.
  unfold result. rewrite B.
  destruct (entry_count (tree st1) source) as [a|];
    [destruct (entry_count (tree st1) replica) as [b|]|].
  - destruct (checkSyncCompletion source replica st1) as [[[]|e] st2];
      [reflexivity | discriminate].
  - now rewrite C.
  - now rewrite C.
Qed.

(** The tree a pass leaves: the one of the cycle, whether or not the
    completion check throws. *)
Lemma loop_body_tree source replica interval work st :
  tree (snd (loop_body source replica interval work st))
  = if directory_at (tree st) source then cycle_tree source replica (tree st)
    else tree st.
Proof.
  destruct (directory_at (tree st) source) eqn:V.
  - rewrite (loop_body_run source replica interval work st V).
    destruct (checkSyncCompletion_log source replica (run (syncFolders source replica) st))
      as (_ & T & _).
    unfold run at 1 in T.
    destruct (checkSyncCompletion source replica (run (syncFolders source replica) st))
      as [[[]|e] st2]; simpl in T |- *.
    + unfold sleep_for.
      destruct (nanoseconds_of_seconds interval - (clock st2 + work - clock st) <=? 0)%Z;
        simpl; rewrite T; apply syncFolders_tree.
    + rewrite T. apply syncFolders_tree.
  - now rewrite (loop_body_invalid source replica interval work st V).
Qed.


(** X4 (how a pass ends when the source is valid).  With the two roots apart
    and the source a directory, a pass through the body of the run loop
    goes through exactly when the replica root is a directory or is missing
    below a directory.  Otherwise (the replica path is taken by a file, or
    its parent is missing) the count of the replica in
    [checkSyncCompletion] throws, nothing catches the exception, and the
    pass has changed nothing on the filesystem. *)
Theorem pass_outcome (source replica : path) (interval work : Z) (st : state) :
  apart source replica ->
  directory_at (tree st) source = true ->
  (result (loop_body source replica interval work) st = Ok None
   <-> replica_ready replica (tree st) = true)
  /\ (replica_ready replica (tree st) = false ->
      result (loop_body source replica interval work) st = Throw (iterator_error replica)
      /\ tree (run (loop_body source replica interval work) st) = tree st).
Proof.
  intros A V.
  pose proof (loop_body_valid source replica interval work st V) as B. simpl in B.
  set (st1 := run (syncFolders source replica) st) in *.
  assert (T1 : tree st1 = cycle_tree source replica (tree st)) by apply syncFolders_tree.
  assert (Es : entry_count (tree st1) source <> None).
  { intros H. apply entry_count_None in H. unfold directory_at, status in H, V.
    rewrite T1, (cycle_tree_source source replica (tree st) A) in H. congruence. }
  pose proof (entry_count_None (tree st1) replica) as Er.
  rewrite T1, cycle_tree_replica_ready, <- T1 in Er.
  destruct (entry_count (tree st1) source) as [a|]; [clear Es|congruence].
  destruct (entry_count (tree st1) replica) as [b|].
  - assert (R : replica_ready replica (tree st) = true).
    { destruct (replica_ready replica (tree st)); [reflexivity|].
      destruct Er as [_ Er]. discriminate (Er eq_refl). }
    split; [now split | congruence].
  - destruct Er as [Er _]. specialize (Er eq_refl). split.
    + unfold result. rewrite B. simpl. split; [discriminate | congruence].
    + intros _. unfold result, run. rewrite B. simpl. split; [reflexivity|].
      rewrite T1. now apply cycle_tree_not_ready.
Qed.

Lemma pass_outcome_witness :
  let t := Dir [("s"%string, Dir []); ("r"%string, File [])] in
  result (loop_body ["s"%string] ["r"%string] 5 0) (initial t)
  = Throw (iterator_error ["r"%string])
  /\ tree (run (loop_body ["s"%string] ["r"%string] 5 0) (initial t)) = t.
Proof.
  apply (proj2 (pass_outcome ["s"%string] ["r"%string] 5 0
                  (initial (Dir [("s"%string, Dir []); ("r"%string, File [])]))
                  (conj eq_refl eq_refl) eq_refl)).
  reflexivity.
Defined.

(** The three ways a pass through the loop body ends. *)
Lemma loop_body_outcomes source replica interval work st :
  (directory_at (tree st) source = false
   /\ loop_body source replica interval work st
      = (Ok (Some 1%Z),
         State (tree st) (changesMade st)
               (log st ++ [invalid_source_line (tree st) source; SourceGone]) (clock st)))
  \/ (directory_at (tree st) source = true
      /\ exists st', loop_body source replica interval work st = (Ok None, st'))
  \/ (directory_at (tree st) source = true
      /\ exists dir st', (dir = source \/ dir = replica)
                        /\ loop_body source replica interval work st
                           = (Throw (iterator_error dir), st')).
Proof.
  destruct (directory_at (tree st) source) eqn:V.
  - right. pose proof (loop_body_valid source replica interval work st V) as B. simpl in B.
    destruct (entry_count (tree (run (syncFolders source replica) st)) source);
      [destruct (entry_count (tree (run (syncFolders source replica) st)) replica)|].
    + left. split; [reflexivity|]. unfold result in B.
      destruct (loop_body source replica interval work st) as [o st']. simpl in B. subst o.
      now exists st'.
    + right. split; [reflexivity|]. exists replica. eexists. split; [now right | exact B].
    + right. split; [reflexivity|]. exists source. eexists. split; [now left | exact B].
  - left. split; [reflexivity|]. now apply loop_body_invalid.
Qed.

(** X5 (how a pass ends when the source is not valid).  A pass through the
    body of the run loop ends with [return 1] exactly when the source path
    is not a directory at its start.  It then logs two lines, the first of
    which tells a missing path from one that is not a directory, and leaves
    the tree, the flag and the clock as they are: no cycle is run. *)
Theorem invalid_source_ends_the_run (source replica : path) (interval work : Z)
    (st : state) :
  (result (loop_body source replica interval work) st = Ok (Some 1%Z)
   <-> directory_at (tree st) source = false)
  /\ (directory_at (tree st) source = false ->
      run (loop_body source replica interval work) st
      = State (tree st) (changesMade st)
              (log st ++ [if exists_at (tree st) source
                          then SourceNotDirectory else SourceMissing;
                          SourceGone])
              (clock st)).
Proof.
  split.
  - unfold result.
    destruct (loop_body_outcomes source replica interval work st)
      as [[V E]|[[V (st' & E)]|[V (d & st' & _ & E)]]]; rewrite E, V; simpl;
      split; intros H; try reflexivity; discriminate.
  - intros V. unfold run. now rewrite (loop_body_invalid _ _ _ _ _ V).
Qed.

Lemma invalid_source_ends_the_run_witness :
  run (loop_body ["s"%string] ["r"%string] 5 0) (initial (Dir [("s"%string, File [])]))
  = State (Dir [("s"%string, File [])]) false [SourceNotDirectory; SourceGone] 0.
Proof.
  apply (proj2 (invalid_source_ends_the_run ["s"%string] ["r"%string] 5 0
                  (initial (Dir [("s"%string, File [])])))).
  reflexivity.
Defined.

(* ===================================================================== *)
(** * The completion line after a cycle that converges                    *)
(* ===================================================================== *)













(* ===================================================================== *)
(** * The steady state                                                     *)
(* ===================================================================== *)

Section AllSkip.

Variable act : node -> path -> action.
Variable body : path -> M unit.
Hypothesis body_act :
  forall e st, body e st = apply_action (act (tree st) e) st.



End AllSkip.





(* ===================================================================== *)
(** * What the Copy Reconciler writes                                      *)
(* ===================================================================== *)

Section Copy.

Variables source replica : path.
Hypothesis roots_apart : apart source replica.

Let copy := copy_action source replica.

Lemma copy_mutate_should t r t' line :
  copy t (source ++ r) = Mutate t' line ->
  should_copy t (source ++ r) (replica ++ r) = true.
Proof.
  unfold copy, copy_action. rewrite relative_app.
  destruct (regular_at t (source ++ r)); [|discriminate].
  destruct (directory_at t (replica ++ r)); [discriminate|].
  destruct (should_copy t (source ++ r) (replica ++ r)); [reflexivity | discriminate].
Qed.

Lemma copy_loop_copied_only es : forall t,
  Forall (source_entry source) es ->
  copied_only source replica t (loop_tree copy es t).
Proof.
  intros t Hes.
  apply (loop_tree_invariant copy
           (fun t' => copied_only source replica t t'
                      /\ forall q, obs t' (source ++ q) = obs t (source ++ q)) es).
  - intros t1 e t2 line He [K S] M. rewrite Forall_forall in Hes.
    destruct (Hes e He) as (r & -> & Hr).
    pose proof (copy_mutate_should _ _ _ _ M) as Sh.
    apply (copy_mutate_inv source replica roots_apart) in M as (R & X & P). split.
    + intros q. destruct (list_eq_dec string_dec q (replica ++ r)) as [->|Hne].
      * right. exists r. split; [reflexivity|].
        pose proof (put_obs_at _ _ _ _ P) as Hat. simpl in Hat.
        rewrite (obs_read_all _ _ _ _ (S r)) in Hat.
        split; [now rewrite <- (obs_regular_at _ _ _ _ (S r))|].
        destruct (K (replica ++ r)) as [O|(r' & Eq & _ & _ & _ & O)].
        -- split; [now rewrite <- (should_copy_obs _ _ _ _ (S r) O)|].
           split; [|exact Hat].
           now rewrite <- (obs_exists_at _ _ _ _ O), <- (obs_regular_at _ _ _ _ O).
        -- exfalso. apply app_inv_head in Eq. subst r'.
           unfold should_copy in Sh. unfold exists_at in Sh.
           rewrite status_obs, O in Sh. cbn [fst negb] in Sh.
           rewrite (read_all_obs t1 (replica ++ r)), O in Sh. cbn [snd] in Sh.
           rewrite (obs_read_all _ _ _ _ (S r)), String.eqb_refl in Sh. discriminate.
      * rewrite (put_leaf_obs _ _ _ _ _ P (leaf_File _) X Hne). apply K.
    + intros q. rewrite (put_source_obs source replica roots_apart t1 r _ t2 q P). apply S.
  - split; [intros q; now left | reflexivity].
Qed.

Lemma copy_tree_copied_only t : copied_only source replica t (copy_tree source replica t).
Proof.
  unfold copy_tree, reconcile_tree.
  destruct (entries_of t source) as [es|] eqn:E; [|intros q; now left].
  apply copy_loop_copied_only. now apply (entries_of_source_entry t).
Qed.

End Copy.

(** X7 (what the Copy Reconciler writes).  With the two roots apart,
    [syncCopy] never throws, and all it changes on the filesystem are
    replica counterparts of regular files of the source that were missing,
    or were regular files with another digest than the source file: each of
    them is, afterwards, a regular file holding the bytes of the source
    file.  A counterpart whose digest already agreed is left as it is, and
    nothing that existed is gone. *)
Theorem syncCopy_writes_source_bytes (source replica : path) (st : state) :
  apart source replica ->
  let st' := run (syncCopy source replica) st in
  result (syncCopy source replica) st = Ok tt
  /\ copied_only source replica (tree st) (tree st')
  /\ (forall r, should_copy (tree st) (source ++ r) (replica ++ r) = false ->
                obs (tree st') (replica ++ r) = obs (tree st) (replica ++ r))
  /\ (forall q, exists_at (tree st) q = true -> exists_at (tree st') q = true).
Proof.
  intros A st'.
  assert (T : tree st' = copy_tree source replica (tree st)).
  { unfold st', run. rewrite syncCopy_reconcile.
    apply (reconcile_run_tree _ _ (syncCopy_entry_action source replica)). }
  pose proof (copy_tree_copied_only source replica A (tree st)) as K. rewrite <- T in K.
  split; [|split; [exact K|split]].
  - unfold result. rewrite syncCopy_reconcile. apply reconcile_ok.
  - intros r Sh. destruct (K (replica ++ r)) as [O|(r' & Eq & _ & Sh' & _)]; [exact O|].
    apply app_inv_head in Eq. subst r'. congruence.
  - intros q X. destruct (K q) as [O|(r & _ & _ & _ & _ & O)].
    + now rewrite (obs_exists_at _ _ _ _ O).
    + unfold exists_at. now rewrite status_obs, O.
Qed.

Lemma syncCopy_writes_source_bytes_witness :
  let st := initial tidy_tree in
  let st' := run (syncCopy ["s"%string] ["r"%string]) st in
  result (syncCopy ["s"%string] ["r"%string]) st = Ok tt
  /\ copied_only ["s"%string] ["r"%string] (tree st) (tree st')
  /\ (forall r, should_copy (tree st) (["s"%string] ++ r) (["r"%string] ++ r) = false ->
                obs (tree st') (["r"%string] ++ r) = obs (tree st) (["r"%string] ++ r))
  /\ (forall q, exists_at (tree st) q = true -> exists_at (tree st') q = true).
Proof.
  apply (syncCopy_writes_source_bytes ["s"%string] ["r"%string] (initial tidy_tree)).
  split; reflexivity.
Defined.

(* ===================================================================== *)
(** * What the Prune Reconciler logs                                       *)
(* ===================================================================== *)

Lemma delete_loop_lines L : forall t, loop_lines delete_action L t = map Removed L.
Proof. induction L as [|p L IH]; intros t; simpl; [reflexivity | now rewrite IH]. Qed.

Lemma del_only_removes p t q : obs (del t p) q = obs t q \/ obs (del t p) q = (not_found, []).
Proof.
  destruct p as [|a p]; [now left|].
  destruct (under q (a :: p)) eqn:U.
  - right. apply del_obs_below; [discriminate | assumption].
  - left. now apply del_obs_off.
Qed.

Lemma delete_loop_only_removes L : forall t q,
  obs (loop_tree delete_action L t) q = obs t q
  \/ obs (loop_tree delete_action L t) q = (not_found, []).
Proof.
  induction L as [|p L IH]; intros t q; simpl; [now left|].
  destruct (IH (del t p) q) as [H|H]; [|now right].
  rewrite H. apply del_only_removes.
Qed.

(** X8 (what the Prune Reconciler logs and leaves).  With the replica
    root a directory, [syncDelete] never throws and logs exactly one
    "Removed" line per entry of its removal list, in the order of the
    enumeration: an entry that went away with its directory is still
    reported by a line of its own.  [changesMade] is raised exactly when the
    list is not empty, and at every path of the filesystem there is
    afterwards what was there before, or nothing.  With a replica root that
    is not a directory the enumeration throws, and [syncDelete] only logs
    that error. *)
Theorem syncDelete_reports_every_stale_entry (source replica : path) (st : state) :
  let st' := run (syncDelete source replica) st in
  result (syncDelete source replica) st = Ok tt
  /\ (forall es, entries_of (tree st) replica = Some es ->
        let stale := stale_in source replica (tree st) es in
        log st' = log st ++ map Removed stale
        /\ changesMade st' = changesMade st || negb (Nat.eqb (List.length stale) 0))
  /\ (entries_of (tree st) replica = None ->
      st' = add_line (exception_line (iterator_error replica)) st)
  /\ (forall q, obs (tree st') q = obs (tree st) q
                \/ obs (tree st') q = (not_found, [])).
Proof.
  intros st'. split; [|split; [|split]].
  - unfold result. rewrite syncDelete_reconcile. apply reconcile_ok.
  - intros es E stale. unfold st', run. rewrite (syncDelete_loop source replica st es E).
    fold stale. split.
    + rewrite (for_each_log delete_action _ syncDelete_entry_action).
      now rewrite delete_loop_lines.
    + rewrite (for_each_flag delete_action _ syncDelete_entry_action delete_action_line).
      rewrite delete_loop_lines. f_equal. now destruct stale.
  - intros E. unfold st', run, syncDelete, try_catch. unfold bind at 1.
    rewrite recursive_directory_iterator_entries, E. now rewrite log_exception_add_line.
  - intros q. unfold st', run. rewrite syncDelete_reconcile.
    rewrite (reconcile_run_tree delete_action _ syncDelete_entry_action).
    unfold reconcile_tree. destruct (entries_of (tree st) replica); [|now left].
    apply delete_loop_only_removes.
Qed.

Lemma syncDelete_reports_every_stale_entry_witness :
  let st := initial tidy_tree in
  let st' := run (syncDelete ["s"%string] ["r"%string]) st in
  let stale := [["r"; "stale"]%string; ["r"; "stale"; "x"]%string] in
  log st' = log st ++ map Removed stale
  /\ changesMade st' = changesMade st || negb (Nat.eqb (List.length stale) 0).
Proof.
  exact (proj1 (proj2 (syncDelete_reports_every_stale_entry
                         ["s"%string] ["r"%string] (initial tidy_tree)))
           [["r"; "stale"]%string; ["r"; "stale"; "x"]%string; ["r"; "a.txt"]%string]
           eq_refl).
Defined.

(* ===================================================================== *)
(** * The text of a digest                                                 *)
(* ===================================================================== *)

Lemma hex_digit_lower n : (n < 16)%N -> is_lower_hex (hex_digit n) = true.
Proof.
  intros H. destruct n as [|p]; [reflexivity|].
  do 4 (destruct p as [p|p|]; try reflexivity); lia.
Qed.

Lemma high_nibble b : (b < 256)%N -> (N.shiftr b 4 < 16)%N.
Proof.
  intros H. rewrite N.shiftr_div_pow2. change (2 ^ 4)%N with 16%N.
  apply N.Div0.div_lt_upper_bound. lia.
Qed.

Lemma low_nibble b : (N.land b 15 < 16)%N.
Proof. apply N.le_lt_trans with 15%N; [apply N.land_le_r | reflexivity]. Qed.

Lemma hex_string_format bs :
  Forall (fun b => (b < 256)%N) bs ->
  String.length (hex_string bs) = 2 * List.length bs
  /\ string_forallb is_lower_hex (hex_string bs) = true.
Proof.
  induction 1 as [|b bs Hb _ [IHl IHf]]; [now split|]. split.
  - simpl. rewrite IHl. lia.
  - cbn [hex_string string_forallb].
    now rewrite (hex_digit_lower _ (high_nibble b Hb)), (hex_digit_lower _ (low_nibble b)), IHf.
Qed.

Lemma be_bytes_small n x : Forall (fun b => (b < 256)%N) (Sha256.be_bytes n x).
Proof.
  induction n as [|n IH]; simpl; constructor; [|exact IH].
  apply N.le_lt_trans with 255%N; [apply N.land_le_r | reflexivity].
Qed.

Lemma be_bytes_length n x : List.length (Sha256.be_bytes n x) = n.
Proof. induction n as [|n IH]; simpl; [reflexivity | now rewrite IH]. Qed.

Lemma digest_format msg :
  List.length (Sha256.digest msg) = 32
  /\ Forall (fun b => (b < 256)%N) (Sha256.digest msg).
Proof.
  unfold Sha256.digest.
  set (s := Sha256.blocks _ _ _). cbn [flat_map]. split.
  - now rewrite !length_app, !be_bytes_length.
  - repeat (apply Forall_app; split); try apply be_bytes_small. constructor.
Qed.

Lemma SHA256_hex_format buffer :
  String.length (SHA256_hex buffer) = 64
  /\ string_forallb is_lower_hex (SHA256_hex buffer) = true.
Proof.
  destruct (digest_format buffer) as [L F].
  destruct (hex_string_format _ F) as [HL HF]. rewrite L in HL.
  with_strategy transparent [SHA256_hex] (unfold SHA256_hex). now split.
Qed.

(** X9 (the text of a digest).  A digest that [computeFileHash] returns
    (it returns none where reading throws) is a string of exactly 64
    characters, each of them one of [0-9a-f]: two per digest byte, the
    leading zero included; and the call leaves the state as it was. *)
Theorem computeFileHash_hex_format (st st' : state) (p : path) (h : string) :
  computeFileHash p st = (Ok h, st') ->
  st' = st
  /\ String.length h = 64
  /\ string_forallb is_lower_hex h = true.
Proof.
  rewrite computeFileHash_run.
  destruct (directory_at (tree st) p); intros H; [discriminate|].
  inversion H; subst. split; [reflexivity|]. apply SHA256_hex_format.
Qed.

Lemma computeFileHash_hex_format_witness :
  let st := initial tidy_tree in
  let h := "e3b0c44298fc1c149afbf4c8996fb92427ae41e4649b934ca495991b7852b855"%string in
  computeFileHash ["s"; "d"; "f"]%string st = (Ok h, st)
  /\ String.length h = 64
  /\ string_forallb is_lower_hex h = true.
Proof.
  intros st h.
  assert (E : computeFileHash ["s"; "d"; "f"]%string st = (Ok h, st))
    by (vm_compute; reflexivity).
  split; [exact E|].
  exact (proj2 (computeFileHash_hex_format st st _ h E)).
Defined.

(* ===================================================================== *)
(** * How [main] starts and ends                                           *)
(* ===================================================================== *)

Lemma signalHandler_stops signal k :
  signalHandler signal k = if stops signal then false else k.
Proof. reflexivity. Qed.

Lemma deliver_stops sigs : forall k, deliver sigs k = k && negb (existsb stops sigs).
Proof.
  unfold deliver. induction sigs as [|s sigs IH]; intros k; simpl.
  - now rewrite andb_true_r.
  - rewrite IH, signalHandler_stops. now destruct (stops s), k.
Qed.

Lemma stops_iff signal : stops signal = true <-> signal = SIGINT \/ signal = SIGTERM.
Proof. unfold stops. rewrite orb_true_iff, !Z.eqb_eq. tauto. Qed.

Section RunLoop.

Variables source replica : path.
Variable interval : Z.

Let loop := run_loop source replica interval.

Lemma run_loop_stopped passes p :
  keepRunning p = false ->
  loop passes p
  = (Returned 0,
     Process (add_line SynchronizationStopped (machine p)) false (startup p) (cerr p)).
Proof. intros K. unfold loop. destruct passes; simpl; now rewrite K. Qed.

Lemma run_loop_pass x rest p :
  keepRunning p = true ->
  loop (x :: rest) p
  = match loop_body source replica interval (work x) (machine p) with
    | (Ok None, st) =>
        loop rest (Process (with_tree (outside x) st)
                           (negb (existsb stops (signals x))) (startup p) (cerr p))
    | (Ok (Some code), st) =>
        (Returned code, Process st true (startup p) (cerr p))
    | (Throw e, st) =>
        (Terminated e, Process st true (startup p) (cerr p))
    end.
Proof.
  intros K. unfold loop. simpl. rewrite K, deliver_stops. reflexivity.
Qed.

Lemma run_loop_running passes : forall p p1,
  loop passes p = (Running, p1) -> keepRunning p1 = true.
Proof.
  induction passes as [|x rest IH]; intros p p1 H.
  - unfold loop in H. simpl in H. destruct (keepRunning p) eqn:K; [|discriminate].
    now inversion H; subst.
  - destruct (keepRunning p) eqn:K; [|now rewrite (run_loop_stopped _ _ K) in H].
    rewrite (run_loop_pass _ _ _ K) in H.
    destruct (loop_body source replica interval (work x) (machine p)) as [[[c|]|e] st];
      try discriminate.
    now apply IH in H.
Qed.

(** The passes that went through without ending the loop can be cut off. *)
Lemma run_loop_app before : forall p p1 rest,
  loop before p = (Running, p1) -> loop (before ++ rest) p = loop rest p1.
Proof.
  induction before as [|x before IH]; intros p p1 rest H.
  - unfold loop in H. simpl in H. destruct (keepRunning p) eqn:K; [|discriminate].
    now inversion H; subst.
  - destruct (keepRunning p) eqn:K; [|now rewrite (run_loop_stopped _ _ K) in H].
    rewrite (run_loop_pass _ _ _ K) in H. simpl app. rewrite (run_loop_pass _ _ _ K).
    destruct (loop_body source replica interval (work x) (machine p)) as [[[c|]|e] st];
      try discriminate.
    now apply IH.
Qed.

(** Where the loop ends and what it leaves, pass by pass. *)
Lemma run_loop_ends passes : forall p,
  keepRunning p = true ->
  match loop passes p with
  | (Returned code, p') =>
      (code = 0%Z
       /\ (exists x, In x passes /\ existsb stops (signals x) = true)
       /\ keepRunning p' = false
       /\ exists lines, log (machine p') = lines ++ [SynchronizationStopped])
      \/ (code = 1%Z
          /\ directory_at (tree (machine p')) source = false
          /\ exists lines, log (machine p') = lines ++ [SourceGone])
  | (Terminated e, _) => e = iterator_error source \/ e = iterator_error replica
  | (Running, p') => forall x, In x passes -> existsb stops (signals x) = false
  end.
Proof.
  induction passes as [|x rest IH]; intros p K.
  - unfold loop. simpl. rewrite K. intros x [].
  - rewrite (run_loop_pass _ _ _ K).
    destruct (loop_body_outcomes source replica interval (work x) (machine p))
      as [[V E]|[[V (st' & E)]|[V (d & st' & D & E)]]]; rewrite E.
    + right. split; [reflexivity|]. split; [exact V|]. simpl.
      exists (log (machine p) ++ [invalid_source_line (tree (machine p)) source]).
      now rewrite <- app_assoc.
    + destruct (existsb stops (signals x)) eqn:S; simpl.
      * rewrite run_loop_stopped by reflexivity. left. split; [reflexivity|].
        split; [exists x; split; [now left | assumption]|].
        split; [reflexivity|]. simpl. now eexists.
      * specialize (IH (Process (with_tree (outside x) st') true (startup p) (cerr p))
                       eq_refl).
        destruct (loop rest _) as [[code|e|] p']; [| exact IH |].
        -- destruct IH as [(C & (y & Hy & Sy) & R)|R]; [left | now right].
           split; [exact C|]. split; [exists y; split; [now right | assumption]|].
           exact R.
        -- intros y [<-|Hy]; [assumption | now apply IH].
    + destruct D as [->| ->]; [now left | now right].
Qed.

End RunLoop.

Lemma length_five {A} (l : list A) :
  List.length l = 5 -> exists a b c d e, l = [a; b; c; d; e].
Proof.
  destruct l as [|a [|b [|c [|d [|e [|f l]]]]]]; try discriminate.
  intros _. now exists a, b, c, d, e.
Qed.

Lemma main_usage argv passes p :
  List.length argv <> 5 ->
  main argv passes p
  = (Returned 1,
     Process (machine p) (keepRunning p) (startup p)
             (cerr p ++ [usage (hd EmptyString argv)])).
Proof.
  intros H. destruct argv as [|a [|b [|c [|d [|e [|f l]]]]]]; try reflexivity.
  now contradiction H.
Qed.

(** What [main] has done by the time it is in its loop. *)
Lemma main_in_loop argv passes p :
  (exists program source replica seconds logFilePath interval,
     argv = [program; source; replica; seconds; logFilePath]
     /\ stoi seconds = Ok interval
     /\ directory_at (tree (machine p)) (path_of_string source) = true
     /\ main argv passes p
        = run_loop (path_of_string source) (path_of_string replica) interval passes
            (Process (machine p) (keepRunning p)
                     (startup p ++ banner source replica interval) (cerr p)))
  \/ (exists p', main argv passes p = (Returned 1, p')
                 /\ tree (machine p') = tree (machine p)
                 /\ startup p' = startup p
                 /\ (List.length argv <> 5
                     \/ directory_at (tree (machine p)) (path_of_string (nth 1 argv EmptyString))
                        = false))
  \/ (exists e, main argv passes p = (Terminated e, p)
                /\ stoi (nth 3 argv EmptyString) = Throw e).
Proof.
  destruct (Nat.eq_dec (List.length argv) 5) as [L|L].
  - destruct (length_five argv L) as (a & s & r & i & l & ->).
    unfold main. simpl nth.
    destruct (stoi i) as [n|e] eqn:E.
    + rewrite isSourceValid_run.
      destruct (directory_at (tree (machine p)) (path_of_string s)) eqn:V.
      * left. exists a, s, r, i, l, n. now repeat split.
      * right. left. eexists. split; [reflexivity|]. repeat split. now right.
    + right. right. now exists e.
  - right. left. eexists. split; [now apply main_usage|]. repeat split. now left.
Qed.

(** X11 (how [main] ends).  Started with [keepRunning] set, [main] returns
    0 only after a [SIGINT] or a [SIGTERM] was delivered during a pass, and
    then the last line of the log is "Synchronization stopped."; it returns
    no code but 0 and 1; it returns 1 only with a wrong number of arguments
    or with a source that is not a directory in the tree it leaves; and the
    only exceptions that end it are the one of [std::stoi] and the one a
    directory iterator of the completion check throws on one of the two
    roots.  As long as it is in its loop no such signal was delivered. *)
Theorem main_exit_codes (argv : list string) (passes : list pass) (p : process) :
  keepRunning p = true ->
  match main argv passes p with
  | (Returned code, p') =>
      (code = 0%Z
       /\ (exists x s, In x passes /\ In s (signals x) /\ (s = SIGINT \/ s = SIGTERM))
       /\ exists lines, log (machine p') = lines ++ [SynchronizationStopped])
      \/ (code = 1%Z
          /\ (List.length argv <> 5
              \/ directory_at (tree (machine p'))
                              (path_of_string (nth 1 argv EmptyString)) = false))
  | (Terminated e, _) =>
      stoi (nth 3 argv EmptyString) = Throw e
      \/ e = iterator_error (path_of_string (nth 1 argv EmptyString))
      \/ e = iterator_error (path_of_string (nth 2 argv EmptyString))
  | (Running, _) =>
      forall x s, In x passes -> In s (signals x) -> s <> SIGINT /\ s <> SIGTERM
  end.
Proof.
  intros K.
  destruct (main_in_loop argv passes p)
    as [(a & s & r & i & l & n & -> & E & V & M)|[(p' & M & T & _ & C)|(e & M & E)]];
    rewrite M.
  - simpl nth.
    pose proof (run_loop_ends (path_of_string s) (path_of_string r) n passes
                  (Process (machine p) (keepRunning p)
                           (startup p ++ banner s r n) (cerr p)) K) as R.
    destruct (run_loop _ _ _ _ _) as [[code|e|] p'].
    + destruct R as [(C & (x & Hx & S) & _ & L)|(C & D & _)].
      * left. split; [exact C|]. split; [|exact L].
        apply existsb_exists in S as (sg & Hs & S). apply stops_iff in S.
        now exists x, sg.
      * right. split; [exact C | now right].
    + destruct R as [->| ->]; auto.
    + intros x sg Hx Hs.
      assert (S : stops sg = false).
      { specialize (R x Hx). destruct (stops sg) eqn:S; [|reflexivity].
        assert (existsb stops (signals x) = true)
          by (apply existsb_exists; now exists sg).
        congruence. }
      split; intros ->; discriminate.
  - right. split; [reflexivity|]. destruct C as [C|C]; [now left | right]. now rewrite T.
  - now left.
Qed.

Lemma main_exit_codes_witness :
  let argv := ["SyncFolders"; "/s"; "/r"; "5"; "/log.txt"]%string in
  let passes := [Pass 1000 [] (fun t => t); Pass 1000 [SIGTERM] (fun t => t);
                 Pass 1000 [] (fun t => t)] in
  match main argv passes (boot tidy_tree) with
  | (Returned code, p') =>
      (code = 0%Z
       /\ (exists x s, In x passes /\ In s (signals x) /\ (s = SIGINT \/ s = SIGTERM))
       /\ exists lines, log (machine p') = lines ++ [SynchronizationStopped])
      \/ (code = 1%Z
          /\ (List.length argv <> 5
              \/ directory_at (tree (machine p'))
                              (path_of_string (nth 1 argv EmptyString)) = false))
  | (Terminated e, _) =>
      stoi (nth 3 argv EmptyString) = Throw e
      \/ e = iterator_error (path_of_string (nth 1 argv EmptyString))
      \/ e = iterator_error (path_of_string (nth 2 argv EmptyString))
  | (Running, _) =>
      forall x s, In x passes -> In s (signals x) -> s <> SIGINT /\ s <> SIGTERM
  end.
Proof.
  apply (main_exit_codes ["SyncFolders"; "/s"; "/r"; "5"; "/log.txt"]%string
           [Pass 1000 [] (fun t => t); Pass 1000 [SIGTERM] (fun t => t);
            Pass 1000 [] (fun t => t)] (boot tidy_tree)).
  reflexivity.
Defined.

(** X12 (how [main] leaves its loop).  Let [main] be in its loop after the
    passes [before], and let [x] be the next pass.  When a [SIGINT] or a
    [SIGTERM] is delivered during [x] and [x] goes through, the pass is
    completed, sleep included; no later pass is begun; "Synchronization
    stopped." is logged and [main] returns 0.  When the source is no longer
    a directory as [x] begins, [main] logs why, logs that it exits, and
    returns 1 without touching the filesystem. *)
Theorem main_leaves_the_loop (argv : list string) (before after : list pass) (x : pass)
    (p p1 : process) (interval : Z) :
  let source := path_of_string (nth 1 argv EmptyString) in
  let replica := path_of_string (nth 2 argv EmptyString) in
  stoi (nth 3 argv EmptyString) = Ok interval ->
  main argv before p = (Running, p1) ->
  (forall st,
     loop_body source replica interval (work x) (machine p1) = (Ok None, st) ->
     (exists s, In s (signals x) /\ (s = SIGINT \/ s = SIGTERM)) ->
     main argv (before ++ x :: after) p
     = (Returned 0,
        Process (add_line SynchronizationStopped (with_tree (outside x) st)) false
                (startup p1) (cerr p1)))
  /\ (directory_at (tree (machine p1)) source = false ->
      main argv (before ++ x :: after) p
      = (Returned 1,
         Process (State (tree (machine p1)) (changesMade (machine p1))
                        (log (machine p1)
                         ++ [invalid_source_line (tree (machine p1)) source; SourceGone])
                        (clock (machine p1)))
                 true (startup p1) (cerr p1))).
Proof.
  intros source replica E R.
  destruct (main_in_loop argv before p)
    as [(a & s & r & i & l & n & -> & En & V & M)|[(p' & M & _)|(e & M & _)]];
    [|congruence|congruence].
  simpl in E. assert (n = interval) by congruence. subst n.
  assert (M' : main [a; s; r; i; l] (before ++ x :: after) p
               = run_loop (path_of_string s) (path_of_string r) interval
                   (before ++ x :: after)
                   (Process (machine p) (keepRunning p)
                            (startup p ++ banner s r interval) (cerr p))).
  { unfold main. now rewrite En, isSourceValid_run, V. }
  rewrite M in R. rewrite M', (run_loop_app _ _ _ _ _ _ (x :: after) R).
  pose proof (run_loop_running _ _ _ _ _ _ R) as K.
  rewrite (run_loop_pass _ _ _ _ _ _ K). subst source replica. cbn [nth]. split.
  - intros st B (sg & Hs & S). rewrite B.
    assert (X : existsb stops (signals x) = true).
    { apply existsb_exists. exists sg. split; [assumption | now apply stops_iff]. }
    rewrite X.
    exact (run_loop_stopped _ _ _ after
             (Process (with_tree (outside x) st) false (startup p1) (cerr p1)) eq_refl).
  - intros D. now rewrite (loop_body_invalid _ _ _ _ _ D).
Qed.

Lemma main_leaves_the_loop_witness :
  let argv := ["SyncFolders"; "/s"; "/r"; "5"; "/log.txt"]%string in
  let idle := Pass 1000 [] (fun t => t) in
  let last := Pass 1000 [SIGINT] (fun t => t) in
  let p1 := snd (main argv [idle] (boot tidy_tree)) in
  let st := snd (loop_body ["s"%string] ["r"%string] 5 1000 (machine p1)) in
  main argv ([idle] ++ last :: [idle; idle]) (boot tidy_tree)
  = (Returned 0,
     Process (add_line SynchronizationStopped (with_tree (outside last) st)) false
             (startup p1) (cerr p1)).
Proof.
  intros argv idle last p1 st.
  assert (R : main argv [idle] (boot tidy_tree) = (Running, p1))
    by (vm_compute; reflexivity).
  assert (B : loop_body (path_of_string (nth 1 argv EmptyString))
                        (path_of_string (nth 2 argv EmptyString)) 5 (work last) (machine p1)
              = (Ok None, st))
    by (vm_compute; reflexivity).
  apply (proj1 (main_leaves_the_loop argv [idle] [idle; idle] last (boot tidy_tree) p1 5
                  eq_refl R) st B).
  exists SIGINT. split; [now left | now left].
Defined.

(* ===================================================================== *)
(** * The log file                                                         *)
(* ===================================================================== *)

(** An append to a regular file, or to a name that is free in a directory,
    leaves the file longer by the bytes written, leaves everything else as
    it is, and leaves a regular file behind. *)
Lemma append_to_file_grows t p bytes :
  appendable t p ->
  exists t', append_to_file t p bytes = Some t'
             /\ read_all t' p = read_all t p ++ bytes
             /\ (forall q, q <> p -> obs t' q = obs t q)
             /\ appendable t' p.
Proof.
  intros [Hp S].
  assert (S' : exists_at t p = false \/ regular_at t p = true)
    by (destruct S as [R|[X _]]; auto).
  assert (D : directory_at t (removelast p) = true).
  { destruct S as [R|[_ D]]; [|exact D]. apply lookup_parent_dir; [exact Hp|].
    intros N. unfold regular_at, status in R. rewrite N in R. discriminate. }
  destruct (put t p (File (read_all t p ++ bytes))) as [t'|] eqn:Pu.
  2:{ apply (put_None_iff _ _ _ Hp) in Pu. congruence. }
  exists t'. pose proof (put_obs_at _ _ _ _ Pu) as Hat. simpl in Hat.
  split; [|split; [|split]].
  - unfold append_to_file. unfold exists_at, regular_at in S'.
    destruct (status t p); try exact Pu; destruct S'; discriminate.
  - now rewrite read_all_obs, Hat.
  - intros q Hq. exact (put_leaf_obs _ _ _ _ _ Pu (leaf_File _) S' Hq).
  - split; [exact Hp|]. left. unfold regular_at. now rewrite status_obs, Hat.
Qed.

Lemma append_to_file_fails t p bytes :
  unopenable t p -> append_to_file t p bytes = None.
Proof.
  intros [D|[X D]]; unfold append_to_file.
  - unfold directory_at in D. destruct (status t p); try discriminate; reflexivity.
  - unfold exists_at in X. destruct (status t p) eqn:S; try discriminate.
    destruct p as [|a p]; [reflexivity|]. apply put_None_iff; [discriminate | exact D].
Qed.

Lemma log_all_cons logFilePath call calls w :
  log_all logFilePath (call :: calls) w
  = log_all logFilePath calls (logOperation_on_file logFilePath (fst call) (snd call) w).
Proof. reflexivity. Qed.

Lemma logOperation_on_file_opens logFilePath now_tm message t c :
  appendable t (path_of_string logFilePath) ->
  exists t',
    logOperation_on_file logFilePath now_tm message (t, c)
    = (t', Console (stdout c ++ [log_entry now_tm message]) (stderr c))
    /\ read_all t' (path_of_string logFilePath)
       = read_all t (path_of_string logFilePath)
         ++ bytes_of_string (log_entry now_tm message ++ endl)
    /\ (forall q, q <> path_of_string logFilePath -> obs t' q = obs t q)
    /\ appendable t' (path_of_string logFilePath).
Proof.
  intros A.
  destruct (append_to_file_grows t (path_of_string logFilePath)
              (bytes_of_string (log_entry now_tm message ++ endl)) A)
    as (t' & E & R & Off & A').
  exists t'. unfold logOperation_on_file. cbn [fst snd]. rewrite E.
  split; [reflexivity|]. split; [exact R|]. split; [exact Off | exact A'].
Qed.

Lemma logOperation_on_file_swallowed logFilePath now_tm message t c :
  status t (path_of_string logFilePath) = other ->
  logOperation_on_file logFilePath now_tm message (t, c)
  = (t, Console (stdout c ++ [log_entry now_tm message]) (stderr c)).
Proof.
  intros S. unfold logOperation_on_file, append_to_file. cbn [fst snd].
  now rewrite S.
Qed.

Lemma logOperation_on_file_fails logFilePath now_tm message t c :
  unopenable t (path_of_string logFilePath) ->
  logOperation_on_file logFilePath now_tm message (t, c)
  = (t, Console (stdout c)
          (stderr c ++ [("Error: Unable to open log file: " ++ logFilePath)%string])).
Proof.
  intros A. unfold logOperation_on_file. cbn [fst snd].
  now rewrite (append_to_file_fails _ _ _ A).
Qed.

(** X13 (the log file).  Take a series of calls of [logOperation].  When
    the log path names a regular file, or nothing yet in a directory, the
    calls leave in the file what it held followed by their entries, one per
    line and in the order of the calls; the same entries go to [std::cout],
    nothing goes to [std::cerr], and nothing else on the filesystem changes.
    When it names a special file, the file opens and takes the bytes: the
    entries go to [std::cout], nothing goes to [std::cerr], and the
    filesystem is as it was.  When it names a directory, or nothing below
    something that is no directory, the file does not open: every call
    writes one line to [std::cerr] and returns, the entries reach neither a
    file nor [std::cout], and the caller is not told. *)
Theorem log_file_only_grows (logFilePath : string) (calls : list (tm * string))
    (t : node) (c : console) :
  let p := path_of_string logFilePath in
  let w' := log_all logFilePath calls (t, c) in
  (appendable t p ->
   read_all (fst w') p
   = read_all t p
     ++ List.concat
          (map (fun call => bytes_of_string (log_entry (fst call) (snd call) ++ endl))
               calls)
   /\ stdout (snd w') = stdout c ++ map (fun call => log_entry (fst call) (snd call)) calls
   /\ stderr (snd w') = stderr c
   /\ forall q, q <> p -> obs (fst w') q = obs t q)
  /\ (status t p = other ->
      fst w' = t
      /\ stdout (snd w') = stdout c ++ map (fun call => log_entry (fst call) (snd call)) calls
      /\ stderr (snd w') = stderr c)
  /\ (unopenable t p ->
      fst w' = t
      /\ stdout (snd w') = stdout c
      /\ stderr (snd w')
         = stderr c
           ++ repeat ("Error: Unable to open log file: " ++ logFilePath)%string
                     (List.length calls)).
Proof.
  intros p w'. subst p w'. split; [|split].
  - revert t c. induction calls as [|call calls IH]; intros t c A.
    + simpl. rewrite !app_nil_r. now repeat split.
    + rewrite log_all_cons.
      destruct (logOperation_on_file_opens logFilePath (fst call) (snd call) t c A)
        as (t' & -> & R & Off & A').
      destruct (IH t' (Console (stdout c ++ [log_entry (fst call) (snd call)]) (stderr c)) A')
        as (R' & O' & E' & Off').
      split; [|split; [|split]].
      * rewrite R', R. simpl. now rewrite <- app_assoc.
      * rewrite O'. simpl. now rewrite <- app_assoc.
      * exact E'.
      * intros q Hq. now rewrite (Off' q Hq), (Off q Hq).
  - revert c. induction calls as [|call calls IH]; intros c S.
    + simpl. rewrite app_nil_r. now repeat split.
    + rewrite log_all_cons, (logOperation_on_file_swallowed _ _ _ _ _ S).
      destruct (IH (Console (stdout c ++ [log_entry (fst call) (snd call)]) (stderr c)) S)
        as (T' & O' & E').
      split; [exact T'|]. split; [|exact E']. rewrite O'. simpl.
      now rewrite <- app_assoc.
  - revert c. induction calls as [|call calls IH]; intros c A.
    + simpl. rewrite app_nil_r. now repeat split.
    + rewrite log_all_cons, (logOperation_on_file_fails _ _ _ _ _ A).
      destruct (IH (Console (stdout c)
                      (stderr c
                       ++ [("Error: Unable to open log file: " ++ logFilePath)%string])) A)
        as (T' & O' & E').
      split; [exact T'|]. split; [exact O'|]. rewrite E'. simpl.
      now rewrite <- app_assoc.
Qed.

Lemma log_file_only_grows_witness :
  let calls := [(Tm 126 10 1 9 5 7, "Starting folder synchronization."%string);
                (Tm 126 10 1 9 5 8, "Synchronization stopped."%string)] in
  let w' := log_all "/log.txt" calls (tidy_tree, Console [] []) in
  let d' := log_all "/r/stale/x" calls (tidy_tree, Console [] []) in
  (read_all (fst w') ["log.txt"%string]
   = bytes_of_string ("[2026-11-01 09:05:07] Starting folder synchronization." ++ endl
                      ++ "[2026-11-01 09:05:08] Synchronization stopped." ++ endl)
   /\ stdout (snd w') = ["[2026-11-01 09:05:07] Starting folder synchronization.";
                         "[2026-11-01 09:05:08] Synchronization stopped."]%string
   /\ stderr (snd w') = []
   /\ forall q, q <> ["log.txt"%string] -> obs (fst w') q = obs tidy_tree q)
  /\ (fst d' = tidy_tree
      /\ stdout (snd d') = ["[2026-11-01 09:05:07] Starting folder synchronization.";
                            "[2026-11-01 09:05:08] Synchronization stopped."]%string
      /\ stderr (snd d') = []).
Proof.
  split.
  - apply (proj1 (log_file_only_grows "/log.txt"
                    [(Tm 126 10 1 9 5 7, "Starting folder synchronization."%string);
                     (Tm 126 10 1 9 5 8, "Synchronization stopped."%string)]
                    tidy_tree (Console [] []))).
    split; [discriminate|]. right. split; reflexivity.
  - apply (proj1 (proj2 (log_file_only_grows "/r/stale/x"
                    [(Tm 126 10 1 9 5 7, "Starting folder synchronization."%string);
                     (Tm 126 10 1 9 5 8, "Synchronization stopped."%string)]
                    tidy_tree (Console [] [])))).
    reflexivity.
Defined.

(* ===================================================================== *)
(** * The layout of a log entry                                            *)
(* ===================================================================== *)

Lemma string_length_app (a b : string) :
  String.length (a ++ b) = String.length a + String.length b.
Proof. induction a as [|c a IH]; simpl; [reflexivity | now rewrite IH]. Qed.

Lemma substring_all (s : string) : substring 0 (String.length s) s = s.
Proof. induction s as [|c s IH]; simpl; [reflexivity | now rewrite IH]. Qed.

Lemma substring_skip (a b : string) (n : nat) :
  substring (String.length a) n (a ++ b) = substring 0 n b.
Proof. induction a as [|c a IH]; simpl; [reflexivity | exact IH]. Qed.

Lemma string_app_assoc (a b c : string) : ((a ++ b) ++ c = a ++ b ++ c)%string.
Proof. induction a as [|ch a IH]; simpl; [reflexivity | now rewrite IH]. Qed.

Lemma substring_take (a b : string) :
  substring 0 (String.length a) (a ++ b) = a.
Proof.
  induction a as [|c a IH]; simpl; [now destruct b | now rewrite IH].
Qed.

Lemma substring_middle (a b c : string) :
  substring (String.length a) (String.length b) (a ++ b ++ c) = b.
Proof. rewrite substring_skip. apply substring_take. Qed.

(** A year of four digits is written with four characters. *)
Lemma to_string_four_digits (y : Z) :
  (1000 <= y <= 9999)%Z -> String.length (to_string y) = 4.
Proof.
  intros H. unfold to_string.
  assert (H0 : (y <? 0)%Z = false) by (apply Z.ltb_ge; lia).
  assert (H1 : (y <? 10)%Z = false) by (apply Z.ltb_ge; lia).
  assert (H2 : (y / 10 <? 10)%Z = false)
    by (apply Z.ltb_ge; Z.div_mod_to_equations; lia).
  assert (H3 : (y / 10 / 10 <? 10)%Z = false)
    by (apply Z.ltb_ge; Z.div_mod_to_equations; lia).
  assert (H4 : (y / 10 / 10 / 10 <? 10)%Z = true)
    by (apply Z.ltb_lt; Z.div_mod_to_equations; lia).
  rewrite H0. cbn [digits]. now rewrite H1, H2, H3, H4.
Qed.

Lemma getCurrentTime_length now_tm :
  plausible now_tm -> String.length (getCurrentTime now_tm) = 19.
Proof.
  intros (Y & _). unfold getCurrentTime.
  rewrite !string_length_app, to_string_four_digits by lia. reflexivity.
Qed.

(** X14 (the layout of a log entry).  For a local time in the years 1000 to
    9999 the time stamp of [getCurrentTime] has 19 characters, so that in
    every entry [logOperation] builds the stamp stands between an opening
    bracket and a closing bracket followed by a space, and the message
    begins at column 22, whatever the message is. *)
Theorem log_entry_layout (now_tm : tm) (message : string) :
  plausible now_tm ->
  String.length (getCurrentTime now_tm) = 19
  /\ String.length (log_entry now_tm message) = 22 + String.length message
  /\ substring 0 1 (log_entry now_tm message) = "["%string
  /\ substring 1 19 (log_entry now_tm message) = getCurrentTime now_tm
  /\ substring 20 2 (log_entry now_tm message) = "] "%string
  /\ substring 22 (String.length message) (log_entry now_tm message) = message.
Proof.
  intros P. pose proof (getCurrentTime_length now_tm P) as L.
  split; [exact L|]. unfold log_entry.
  set (stamp := getCurrentTime now_tm) in *.
  split; [|split; [|split; [|split]]].
  - rewrite !string_length_app, L. reflexivity.
  - exact (substring_take "[" (stamp ++ "] " ++ message)).
  - pose proof (substring_middle "[" stamp ("] " ++ message)) as H.
    rewrite L in H. exact H.
  - pose proof (substring_middle ("[" ++ stamp) "] " message) as H.
    rewrite string_length_app, L in H. exact H.
  - pose proof (substring_skip ("[" ++ stamp ++ "] ") message (String.length message)) as H.
    rewrite !string_length_app, L, substring_all in H.
    rewrite <- (string_app_assoc stamp "] " message). exact H.
Qed.

Lemma log_entry_layout_witness :
  let now_tm := Tm 126 10 1 9 5 7 in
  let message := "Synchronization stopped."%string in
  String.length (getCurrentTime now_tm) = 19
  /\ String.length (log_entry now_tm message) = 22 + String.length message
  /\ substring 0 1 (log_entry now_tm message) = "["%string
  /\ substring 1 19 (log_entry now_tm message) = getCurrentTime now_tm
  /\ substring 20 2 (log_entry now_tm message) = "] "%string
  /\ substring 22 (String.length message) (log_entry now_tm message) = message.
Proof.
  apply (log_entry_layout (Tm 126 10 1 9 5 7) "Synchronization stopped.").
  unfold plausible. simpl. lia.
Defined.

(* ===================================================================== *)
(** * What a cycle does to a replica entry that has a counterpart         *)
(* ===================================================================== *)

Lemma mirror_tree_created_only source replica t :
  apart source replica -> created_only source replica t (mirror_tree source replica t).
Proof.
  intros A. unfold mirror_tree, reconcile_tree.
  destruct (entries_of t source) as [es|] eqn:E; [|intros q; now left].
  apply (mirror_loop_created_only source replica A). now apply (entries_of_source_entry t).
Qed.

(** X16 (entries with a counterpart are kept).  With the two roots apart,
    a replica entry whose relative path exists in the source outlives the
    cycle, and its type is never changed: it is left exactly as it is, or,
    when it is a regular file and its counterpart is one too, it holds the
    bytes of the counterpart afterwards.  In particular a replica file that
    stands where the source has a directory, or a replica directory where
    the source has a file, stays. *)
Theorem cycle_keeps_entries_with_a_counterpart (source replica : path) (st : state)
    (s : path) :
  apart source replica ->
  wf (tree st) = true ->
  exists_at (tree st) (source ++ s) = true ->
  exists_at (tree st) (replica ++ s) = true ->
  let st' := run (syncFolders source replica) st in
  status (tree st') (replica ++ s) = status (tree st) (replica ++ s)
  /\ (obs (tree st') (replica ++ s) = obs (tree st) (replica ++ s)
      \/ (regular_at (tree st) (source ++ s) = true
          /\ regular_at (tree st) (replica ++ s) = true
          /\ obs (tree st') (replica ++ s) = (regular, read_all (tree st) (source ++ s)))).
Proof.
  intros A W Xs Xr st'.
  assert (T : tree st' = cycle_tree source replica (tree st)) by apply syncFolders_tree.
  unfold cycle_tree, ensure_replica in T.
  rewrite (exists_at_prefix _ _ _ Xr) in T.
  set (t := tree st) in *.
  set (tM := mirror_tree source replica t) in *.
  set (tC := copy_tree source replica tM) in *.
  destruct (mirror_tree_kept source replica A t W) as (WM & SM & _). fold tM in WM, SM.
  destruct (copy_tree_kept source replica A tM WM) as (WC & SC & _). fold tC in WC, SC.
  assert (OM : obs tM (replica ++ s) = obs t (replica ++ s)).
  { destruct (mirror_tree_created_only source replica t A (replica ++ s))
      as [O|(r & _ & _ & N & _)]; [exact O | congruence]. }
  assert (OsM : obs tM (source ++ s) = obs t (source ++ s)) by (apply lookup_obs, SM).
  assert (OD : obs (tree st') (replica ++ s) = obs tC (replica ++ s)).
  { rewrite T. unfold prune_tree, reconcile_tree.
    destruct (entries_of tC replica) as [es|] eqn:E; [|reflexivity].
    apply prune_keeps; [assumption|].
    unfold exists_at, status. rewrite SC, SM. exact Xs. }
  assert (G : obs (tree st') (replica ++ s) = obs t (replica ++ s)
              \/ (regular_at t (source ++ s) = true
                  /\ regular_at t (replica ++ s) = true
                  /\ obs (tree st') (replica ++ s) = (regular, read_all t (source ++ s)))).
  { rewrite OD.
    destruct (copy_tree_copied_only source replica A tM (replica ++ s))
      as [O|(r & Eq & R & _ & P & O)]; fold tC in O.
    - left. now rewrite O.
    - right. apply app_inv_head in Eq. subst r.
      rewrite (obs_regular_at _ _ _ _ OsM) in R.
      rewrite (obs_read_all _ _ _ _ OsM) in O.
      rewrite (obs_exists_at _ _ _ _ OM), (obs_regular_at _ _ _ _ OM) in P.
      split; [exact R|]. split; [|exact O].
      destruct P as [P|P]; [congruence | exact P]. }
  split; [|exact G].
  destruct G as [O|(_ & R & O)].
  - now apply obs_status.
  - rewrite status_obs, O. unfold regular_at in R. simpl.
    now destruct (status t (replica ++ s)).
Qed.

Lemma cycle_keeps_entries_with_a_counterpart_witness :
  let st := initial conflict_tree in
  let st' := run (syncFolders ["s"%string] ["r"%string]) st in
  status (tree st') (["r"%string] ++ ["d"%string]) = regular
  /\ status (tree st) (["s"%string] ++ ["d"%string]) = directory.
Proof.
  split; [|reflexivity].
  apply (proj1 (cycle_keeps_entries_with_a_counterpart ["s"%string] ["r"%string]
                  (initial conflict_tree) ["d"%string]
                  (conj eq_refl eq_refl) eq_refl eq_refl eq_refl)).
Defined.

(* ===================================================================== *)
(** * What the Structure Mirror changes                                    *)
(* ===================================================================== *)

(** X17 (what the Structure Mirror changes).  With the two roots apart and
    whatever the replica holds, [syncSubdirectories] never throws, and all
    it changes on the filesystem are replica counterparts of source
    directories that did not exist: each is a directory afterwards.
    Whatever exists afterwards and did not exist before is such a
    directory, so a created directory holds nothing but directories created
    by the same call.  Nothing that existed is gone or altered, and every
    line it logs but possibly the last, an error line, is a "Created
    directory" line. *)
Theorem syncSubdirectories_only_creates_directories (source replica : path)
    (st : state) :
  apart source replica ->
  let st' := run (syncSubdirectories source replica) st in
  result (syncSubdirectories source replica) st = Ok tt
  /\ created_only source replica (tree st) (tree st')
  /\ (forall q, exists_at (tree st) q = false -> exists_at (tree st') q = true ->
                directory_at (tree st') q = true
                /\ exists r, q = replica ++ r
                             /\ directory_at (tree st) (source ++ r) = true)
  /\ (forall q, exists_at (tree st) q = true -> obs (tree st') q = obs (tree st) q)
  /\ exists lines, log st' = log st ++ lines /\ error_lines lines <= 1.
Proof.
  intros A st'.
  assert (T : tree st' = mirror_tree source replica (tree st)).
  { unfold st', run. rewrite syncSubdirectories_reconcile.
    apply (reconcile_run_tree _ _ (syncSubdirectories_entry_action source replica)). }
  pose proof (mirror_tree_created_only source replica (tree st) A) as K.
  rewrite <- T in K. split; [|split; [exact K|split; [|split]]].
  - unfold result. rewrite syncSubdirectories_reconcile. apply reconcile_ok.
  - intros q N X. destruct (K q) as [O|(r & -> & D & _ & O)].
    + rewrite (obs_exists_at _ _ _ _ O) in X. congruence.
    + split; [|now exists r]. unfold directory_at. now rewrite status_obs, O.
  - intros q X. destruct (K q) as [O|(r & _ & _ & N & _)]; [exact O | congruence].
  - destruct (reconcile_logged _ _ (syncSubdirectories_entry_action source replica)
                (mirror_action_line source replica) source all_entries st)
      as [lines [(L & _) N]].
    exists lines. split; [|exact N].
    unfold st', run. now rewrite syncSubdirectories_reconcile.
Qed.

Lemma syncSubdirectories_only_creates_directories_witness :
  let st := initial tidy_tree in
  let st' := run (syncSubdirectories ["s"%string] ["r"%string]) st in
  result (syncSubdirectories ["s"%string] ["r"%string]) st = Ok tt
  /\ created_only ["s"%string] ["r"%string] (tree st) (tree st')
  /\ (forall q, exists_at (tree st) q = false -> exists_at (tree st') q = true ->
                directory_at (tree st') q = true
                /\ exists r, q = ["r"%string] ++ r
                             /\ directory_at (tree st) (["s"%string] ++ r) = true)
  /\ (forall q, exists_at (tree st) q = true -> obs (tree st') q = obs (tree st) q)
  /\ exists lines, log st' = log st ++ lines /\ error_lines lines <= 1.
Proof.
  apply (syncSubdirectories_only_creates_directories ["s"%string] ["r"%string]
           (initial tidy_tree)).
  split; reflexivity.
Defined.

(* ===================================================================== *)
(** * The whole run                                                        *)
(* ===================================================================== *)

Section WholeRun.

Variables source replica : path.
Variable interval : Z.

Lemma run_loop_clock passes : forall p p1,
  run_loop source replica interval passes p = (Running, p1) ->
  clock (machine p1) = (clock (machine p) + spacing interval passes)%Z.
Proof.
  induction passes as [|x rest IH]; intros p p1 H.
  - simpl in H. destruct (keepRunning p); [|discriminate].
    inversion H; subst. simpl. lia.
  - destruct (keepRunning p) eqn:K;
      [|now rewrite (run_loop_stopped source replica interval _ _ K) in H].
    rewrite (run_loop_pass source replica interval _ _ _ K) in H.
    destruct (loop_body_cases source replica interval (work x) (machine p))
      as [(st' & E & C)|[(st' & E)|(e & st' & E)]]; rewrite E in H; try discriminate.
    apply IH in H. rewrite H. simpl. rewrite C. lia.
Qed.

End WholeRun.

(** X18 (passes are spaced by the interval).  While [main] is in its loop,
    every pass it has completed took the longer of its work and the
    configured interval: after [n] passes the steady clock has advanced by
    the sum of these, which is at least [n] times the interval. *)
Theorem passes_are_spaced_by_the_interval (argv : list string) (passes : list pass)
    (p p1 : process) (interval : Z) :
  stoi (nth 3 argv EmptyString) = Ok interval ->
  main argv passes p = (Running, p1) ->
  clock (machine p1) = (clock (machine p) + spacing interval passes)%Z
  /\ (clock (machine p) + Z.of_nat (List.length passes) * nanoseconds_of_seconds interval
      <= clock (machine p1))%Z.
Proof.
  intros E R.
  destruct (main_in_loop argv passes p)
    as [(a & s & r & i & l & n & -> & En & V & M)|[(p' & M & _)|(e & M & _)]];
    [|congruence|congruence].
  simpl in E. assert (n = interval) by congruence. subst n.
  rewrite M in R. apply run_loop_clock in R. simpl in R. split; [exact R|].
  rewrite R. clear. induction passes as [|x rest IH]; simpl List.length; simpl spacing; lia.
Qed.

Lemma passes_are_spaced_by_the_interval_witness :
  let argv := ["SyncFolders"; "/s"; "/r"; "5"; "/log.txt"]%string in
  let passes := [Pass 7000000000 [] (fun t => t); Pass 1000 [] (fun t => t)] in
  let p1 := snd (main argv passes (boot tidy_tree)) in
  clock (machine p1) = (clock (machine (boot tidy_tree)) + spacing 5 passes)%Z
  /\ (clock (machine (boot tidy_tree))
      + Z.of_nat (List.length passes) * nanoseconds_of_seconds 5
      <= clock (machine p1))%Z.
Proof.
  intros argv passes p1.
  apply (passes_are_spaced_by_the_interval argv passes (boot tidy_tree) p1 5 eq_refl).
  vm_compute. reflexivity.
Defined.
